(** * TinyCam streaming client: a shallow embedding and its properties

    The two client variants of the repository,
    [TinyCamClientExample/stream_downloader.py] and
    [TinyCamClientExample/Python/tinycam.py], share their utility
    functions ([safe_b64decode], [hkdf_sha256], [be_u64], ...) and the
    reconnect loop of [main_async]; they differ in the receive loop
    ([iter_plain_chunks] against [get_chunks]).

    Conventions of the embedding:
    - Python [bytes] are lists of [Byte.byte];
    - Python [str] values are lists of 8-bit characters ([ascii]), which
      covers every string the program builds or inspects character by
      character;
    - Python [int] is [Z];
    - a call that may raise returns an [outcome]: [Ok v] or [Raise e];
    - the library calls [hmac.new(..., hashlib.sha256).digest()] and
      [AESGCM.decrypt] are parameters of the sections that use them;
      module [Hashlib] gives SHA-256 and HMAC for concrete runs;
    - a receive loop runs over the finite sequence of messages that
      arrive before the connection is closed, and produces the events
      of the session in program order. *)

From Stdlib Require Import Ascii String Init.Byte Strings.Byte.
From Stdlib Require Import DecimalString.
From Stdlib Require DecimalPos DecimalZ.
From Stdlib Require Import List ZArith NArith Lia Bool Arith Sorted.
Import ListNotations.

(* ================================================================== *)
(** * Part I: definitions                                              *)
(* ================================================================== *)

(** ** Values, exceptions, outcomes *)

Definition bytes := list byte.
Definition str := list ascii.

(** A string literal of the source, as a [str]. *)
Definition lit (s : string) : str := list_ascii_of_string s.

(** The exceptions the modelled code can raise. *)
Inductive exn : Type :=
| RuntimeError (msg : str)
| ValueError (msg : str)
| TypeError (msg : str)
| BinasciiError (msg : str)
| StructError (msg : str)
| InvalidTag
| ConnectionClosed
| InvalidStatusCode
| KeyboardInterrupt.

Inductive outcome (A : Type) : Type :=
| Ok (a : A)
| Raise (e : exn).

Arguments Ok {A} a.
Arguments Raise {A} e.

Definition bind {A B : Type} (m : outcome A) (k : A -> outcome B) : outcome B :=
  match m with
  | Ok a => k a
  | Raise e => Raise e
  end.

Notation "x <- m ;; k" := (bind m (fun x => k))
  (at level 61, m at next level, right associativity).

(** Python's slice [b[:n]] for an arbitrary integer [n]: a negative [n]
    counts from the end. *)
Definition slice_to {A : Type} (l : list A) (n : Z) : list A :=
  if (n <? 0)%Z
  then firstn (length l - Z.to_nat (- n)) l
  else firstn (Z.to_nat n) l.

(** [b[i:j]] for non-negative constants [i <= j], and [b[i:]]. *)
Definition slice {A : Type} (l : list A) (i j : nat) : list A :=
  firstn (j - i) (skipn i l).

Definition slice_from {A : Type} (l : list A) (i : nat) : list A := skipn i l.

Definition byte_eqb (a b : byte) : bool := Byte.eqb a b.

Fixpoint bytes_eqb (a b : bytes) : bool :=
  match a, b with
  | [], [] => true
  | x :: a', y :: b' => byte_eqb x y && bytes_eqb a' b'
  | _, _ => false
  end.

(** ** [hkdf_sha256] *)

Section KeyDerivation.

(** [hmac_sha256 key msg] stands for
    [hmac.new(key, msg, hashlib.sha256).digest()]. *)
Variable hmac_sha256 : bytes -> bytes -> bytes.

(** [bytes([block_index])]: one byte, [ValueError] outside [0, 256). *)
Definition bytes_of_int (i : Z) : outcome bytes :=
  if ((0 <=? i) && (i <? 256))%Z
  then match Byte.of_N (Z.to_N i) with
       | Some b => Ok [b]
       | None => Raise (ValueError (lit "bytes must be in range(0, 256)"))
       end
  else Raise (ValueError (lit "bytes must be in range(0, 256)")).

(** The [while len(okm) < length] loop.  The loop state is
    [(okm, t, block_index)].  [fuel] bounds the number of iterations
    of the model; [None] means the fuel ran out. *)
Fixpoint hkdf_loop (fuel : nat) (prk info : bytes) (length : Z)
         (okm t : bytes) (block_index : Z) : option (outcome bytes) :=
  match fuel with
  | O => None
  | S fuel' =>
      if (Z.of_nat (List.length okm) <? length)%Z then
        match bytes_of_int block_index with
        | Raise e => Some (Raise e)
        | Ok ctr =>
            let t' := hmac_sha256 prk (t ++ info ++ ctr) in
            hkdf_loop fuel' prk info length (okm ++ t') t' (block_index + 1)
        end
      else Some (Ok okm)
  end.

(** Block indices run from 1 and the 256th raises, so 257 iterations
    always suffice (see [hkdf_sha256_total]). *)
Definition hkdf_fuel : nat := 257.

Definition hkdf_sha256 (ikm salt info : bytes) (length : Z)
  : option (outcome bytes) :=
  let prk := hmac_sha256 salt ikm in
  match hkdf_loop hkdf_fuel prk info length [] [] 1 with
  | Some (Ok okm) => Some (Ok (slice_to okm length))
  | Some (Raise e) => Some (Raise e)
  | None => None
  end.

(** *** The construction as the specification words it

    [T(0)] is empty and [T(i) = HMAC(prk, T(i-1) || info || byte(i))];
    the output is the first [length] bytes of [T(1) || T(2) || ...]. *)
Fixpoint hkdf_T (prk info : bytes) (i : nat) : bytes :=
  match i with
  | O => []
  | S j =>
      match Byte.of_N (N.of_nat i) with
      | Some b => hmac_sha256 prk (hkdf_T prk info j ++ info ++ [b])
      | None => []
      end
  end.

(** [T(1) || ... || T(n)]. *)
Fixpoint hkdf_blocks (prk info : bytes) (n : nat) : bytes :=
  match n with
  | O => []
  | S m => hkdf_blocks prk info m ++ hkdf_T prk info n
  end.

(** Number of expansion rounds for a request of [length] bytes with a
    32-byte hash: the least [n] with [32 * n >= length]. *)
Definition hkdf_rounds (length : Z) : nat := Z.to_nat ((length + 31) / 32).

Definition hkdf_spec (ikm salt info : bytes) (length : Z) : bytes :=
  let prk := hmac_sha256 salt ikm in
  firstn (Z.to_nat length) (hkdf_blocks prk info (hkdf_rounds length)).

End KeyDerivation.

(** ** String primitives of the Python runtime used by the source *)

Definition ascii_code (c : ascii) : N := N_of_ascii c.

(** [str.isspace] on one character (code points below 256). *)
Definition isspace (c : ascii) : bool :=
  let n := ascii_code c in
  ((9 <=? n) && (n <=? 13) || (28 <=? n) && (n <=? 32)
   || (n =? 133) || (n =? 160))%N.

Fixpoint lstrip (s : str) : str :=
  match s with
  | [] => []
  | c :: r => if isspace c then lstrip r else s
  end.

Definition rstrip (s : str) : str := rev (lstrip (rev s)).

(** [s.strip()] *)
Definition strip (s : str) : str := rstrip (lstrip s).

Fixpoint prefixb (p s : str) : bool :=
  match p, s with
  | [], _ => true
  | a :: p', b :: s' => Ascii.eqb a b && prefixb p' s'
  | _ :: _, [] => false
  end.

(** Left-to-right scan of [s.replace(old, new)] for a non-empty [old]:
    [skip] counts the characters of a matched occurrence still to be
    passed over. *)
Fixpoint replace_scan (old new s : str) (skip : nat) : str :=
  match s with
  | [] => []
  | c :: r =>
      match skip with
      | S k => replace_scan old new r k
      | O =>
          if prefixb old s
          then new ++ replace_scan old new r (length old - 1)
          else c :: replace_scan old new r 0
      end
  end.

(** [s.replace(old, new)]; with an empty [old] Python inserts [new]
    before every character and at the end. *)
Definition replace (old new s : str) : str :=
  match old with
  | [] => new ++ flat_map (fun c => c :: new) s
  | _ :: _ => replace_scan old new s 0
  end.

(** [str(n)] and the [{n}] of an f-string, for an [int]. *)
Definition str_of_int (n : Z) : str :=
  lit (NilZero.string_of_int (Z.to_int n)).

(** [s.encode("utf-8")] for characters below 256: one byte below 128,
    two bytes otherwise. *)
Definition utf8_char (c : ascii) : bytes :=
  let n := ascii_code c in
  if (n <? 128)%N then [byte_of_ascii c]
  else match Byte.of_N (192 + n / 64), Byte.of_N (128 + n mod 64) with
       | Some hi, Some lo => [hi; lo]
       | _, _ => []
       end.

Definition encode_utf8 (s : str) : bytes := flat_map utf8_char s.

(** ** Base64 of the standard library *)

Definition b64_alphabet : str :=
  lit "ABCDEFGHIJKLMNOPQRSTUVWXYZabcdefghijklmnopqrstuvwxyz0123456789+/".

Definition pad_char : ascii := "="%char.

Definition b64_char (n : N) : ascii := nth (N.to_nat n) b64_alphabet pad_char.

(** [base64.b64encode]: three bytes give four characters; one or two
    trailing bytes give two or three characters and [=] padding. *)
Fixpoint b64encode (b : bytes) : str :=
  match b with
  | [] => []
  | [x] =>
      let n := Byte.to_N x in
      [b64_char (n / 4); b64_char ((n mod 4) * 16); pad_char; pad_char]
  | [x; y] =>
      let n := Byte.to_N x in
      let m := Byte.to_N y in
      [b64_char (n / 4); b64_char ((n mod 4) * 16 + m / 16);
       b64_char ((m mod 16) * 4); pad_char]
  | x :: y :: z :: r =>
      let n := Byte.to_N x in
      let m := Byte.to_N y in
      let k := Byte.to_N z in
      b64_char (n / 4) :: b64_char ((n mod 4) * 16 + m / 16)
        :: b64_char ((m mod 16) * 4 + k / 64) :: b64_char (k mod 64)
        :: b64encode r
  end.

(** [b64e]: [base64.b64encode(b).decode("ascii")]. *)
Definition b64e (b : bytes) : str := b64encode b.

(** Position of a character in the standard alphabet. *)
Fixpoint index_of (c : ascii) (l : str) (i : N) : option N :=
  match l with
  | [] => None
  | d :: r => if Ascii.eqb c d then Some i else index_of c r (i + 1)%N
  end.

Definition b64_index (c : ascii) : option N := index_of c b64_alphabet 0.

Definition byte_of_N (n : N) : byte :=
  match Byte.of_N (n mod 256) with
  | Some b => b
  | None => x00
  end.

(** [binascii.a2b_base64] in its default, non-strict mode: characters
    outside the alphabet are skipped; a [=] ends the input once the
    current quad holds at least two characters and enough padding has
    been seen; leftover characters at the end are an error.  [out] is
    the output so far. *)
Fixpoint a2b_base64_loop (s : str) (quad_pos : nat) (leftchar : N)
         (pads : nat) (out : bytes) : outcome bytes :=
  match s with
  | [] =>
      match quad_pos with
      | 0 => Ok out
      | 1 =>
          Raise (BinasciiError
            (lit "Invalid base64-encoded string: number of data characters ("
             ++ str_of_int (Z.of_nat (length out / 3 * 4 + 1))
             ++ lit ") cannot be 1 more than a multiple of 4"))
      | _ => Raise (BinasciiError (lit "Incorrect padding"))
      end
  | c :: r =>
      if Ascii.eqb c pad_char then
        if 2 <=? quad_pos then
          if 4 <=? quad_pos + S pads then Ok out
          else a2b_base64_loop r quad_pos leftchar (S pads) out
        else a2b_base64_loop r quad_pos leftchar pads out
      else
        match b64_index c with
        | None => a2b_base64_loop r quad_pos leftchar pads out
        | Some v =>
            match quad_pos with
            | 0 => a2b_base64_loop r 1 v 0 out
            | 1 => a2b_base64_loop r 2 (v mod 16) 0
                     (out ++ [byte_of_N (leftchar * 4 + v / 16)])
            | 2 => a2b_base64_loop r 3 (v mod 4) 0
                     (out ++ [byte_of_N (leftchar * 16 + v / 4)])
            | _ => a2b_base64_loop r 0 0 0
                     (out ++ [byte_of_N (leftchar * 64 + v)])
            end
        end
  end.

Definition a2b_base64 (s : str) : outcome bytes := a2b_base64_loop s 0 0 0 [].

(** [base64.b64decode(s)] for a [str] argument: the string must be
    ASCII, then it is handed to [binascii.a2b_base64]. *)
Definition b64decode (s : str) : outcome bytes :=
  if forallb (fun c => (ascii_code c <? 128)%N) s
  then a2b_base64 s
  else Raise (ValueError (lit "string argument should contain only ASCII characters")).

(** ** [safe_b64decode]

    The source writes the JSON escapes as a backslash followed by
    [u002B], [u003d], [u003D], [u002f] and [u002F]; the line feed and
    the carriage return are the characters 10 and 13. *)
Definition backslash : ascii := ascii_of_nat 92.
Definition char_LF : ascii := ascii_of_nat 10.
Definition char_CR : ascii := ascii_of_nat 13.
Definition char_TAB : ascii := ascii_of_nat 9.

Definition json_escape (hex : string) : str := backslash :: lit hex.

(** The normalisation [safe_b64decode] performs before decoding (the
    [isinstance(s, str)] test holds by typing). *)
Definition normalize_b64 (s : str) : str :=
  let t := strip s in
  let t := replace (json_escape "u002B") (lit "+") t in
  let t := replace (json_escape "u003d") (lit "=") t in
  let t := replace (json_escape "u003D") (lit "=") t in
  let t := replace (json_escape "u002f") (lit "/") t in
  let t := replace (json_escape "u002F") (lit "/") t in
  let t := replace (lit " ") [] t in
  let t := replace [char_LF] [] t in
  let t := replace [char_CR] [] t in
  let t := replace (lit "-") (lit "+") t in
  let t := replace (lit "_") (lit "/") t in
  let m := length t mod 4 in
  if m =? 0 then t else t ++ repeat pad_char (4 - m).

Definition safe_b64decode (s : str) : outcome bytes :=
  b64decode (normalize_b64 s).

(** *** The spellings of an encoding that [safe_b64decode] is meant for

    A written encoding is a sequence of pieces: single characters, and
    the five JSON escapes the source lists.  Each piece stands for at
    most one character of the standard alphabet: [-] and [_] stand for
    [+] and [/], an escape for the character it escapes, and a space, a
    line feed or a carriage return for nothing. *)

Inductive escape : Type :=
| EscPlus | EscEqLower | EscEqUpper | EscSlashLower | EscSlashUpper.

Definition escape_hex (e : escape) : string :=
  match e with
  | EscPlus => "u002B"
  | EscEqLower => "u003d"
  | EscEqUpper => "u003D"
  | EscSlashLower => "u002f"
  | EscSlashUpper => "u002F"
  end.

Definition escape_text (e : escape) : str := json_escape (escape_hex e).

Definition escape_char (e : escape) : ascii :=
  match e with
  | EscPlus => "+"%char
  | EscEqLower | EscEqUpper => "="%char
  | EscSlashLower | EscSlashUpper => "/"%char
  end.

Inductive piece : Type :=
| Chr (c : ascii)
| Esc (e : escape).

Definition render (p : piece) : str :=
  match p with
  | Chr c => [c]
  | Esc e => escape_text e
  end.

(** The string as it is written. *)
Definition spelling (ps : list piece) : str := flat_map render ps.

(** The whitespace the source removes inside the string. *)
Definition embedded_space (c : ascii) : bool :=
  Ascii.eqb c " "%char || Ascii.eqb c char_LF || Ascii.eqb c char_CR.

Definition standard_char (c : ascii) : str :=
  if embedded_space c then []
  else if Ascii.eqb c "-"%char then ["+"%char]
  else if Ascii.eqb c "_"%char then ["/"%char]
  else [c].

Definition reading (p : piece) : str :=
  match p with
  | Chr c => standard_char c
  | Esc e => [escape_char e]
  end.

(** The standard-alphabet string a written encoding stands for. *)
Definition canonical (ps : list piece) : str := flat_map reading ps.

(** What one [replace] of an escape, and all five, do to a piece. *)
Definition escape_eqb (a b : escape) : bool :=
  match a, b with
  | EscPlus, EscPlus | EscEqLower, EscEqLower | EscEqUpper, EscEqUpper
  | EscSlashLower, EscSlashLower | EscSlashUpper, EscSlashUpper => true
  | _, _ => false
  end.

Definition unescape_one (e : escape) (p : piece) : piece :=
  match p with
  | Esc e' => if escape_eqb e e' then Chr (escape_char e) else p
  | Chr _ => p
  end.

Definition piece_char (p : piece) : ascii :=
  match p with
  | Chr c => c
  | Esc e => escape_char e
  end.

Definition is_space_piece (p : piece) : bool :=
  match p with
  | Chr c => embedded_space c
  | Esc _ => false
  end.

(** A piece that is not a lone backslash. *)
Definition plain_piece (p : piece) : bool :=
  match p with
  | Chr c => negb (Ascii.eqb backslash c)
  | Esc _ => true
  end.

(** Characters of the standard alphabet, and the padding character. *)
Definition alphabet_char (c : ascii) : bool :=
  existsb (Ascii.eqb c) b64_alphabet.

Definition encoding_char (c : ascii) : bool :=
  alphabet_char c || Ascii.eqb c pad_char.

(** A piece that stands for characters of an encoding only. *)
Definition piece_ok (p : piece) : bool := forallb encoding_char (reading p).

(** ** [be_u64]: [struct.unpack(">Q", b)[0]] *)

Definition be_value (b : bytes) : Z :=
  fold_left (fun acc x => (acc * 256 + Z.of_N (Byte.to_N x))%Z) b 0%Z.

Definition be_u64 (b : bytes) : outcome Z :=
  if length b =? 8 then Ok (be_value b)
  else Raise (StructError (lit "unpack requires a buffer of 8 bytes")).

(** [join_ct_tag] *)
Definition join_ct_tag (ct tag : bytes) : bytes := ct ++ tag.


(** ** Logging, transport messages and observable events *)

Inductive level : Type := DEBUG | INFO | WARNING | ERROR.

Inductive log_arg : Type :=
| ArgInt (n : Z)
| ArgStr (s : str)
| ArgExn (e : exn).

(** A call [self.log.<level>(format, *args)]. *)
Record log_record : Type := Log {
  log_level : level;
  log_format : str;
  log_args : list log_arg
}.

(** What [ws.recv()] returns: a text or a binary message. *)
Inductive ws_message : Type :=
| TextMsg (s : str)
| BinaryMsg (b : bytes).

(** What a session does, in program order: log calls, the [start]
    message sent to the server, calls of [aesgcm.decrypt] and the
    chunks handed to the consumer by [yield]. *)
Inductive event : Type :=
| EvLog (r : log_record)
| EvSendStart (conn : str) (exp : Z)
| EvDecrypt (nonce data aad : bytes)
| EvYield (plain : bytes).

Definition is_decrypt (e : event) : bool :=
  match e with EvDecrypt _ _ _ => true | _ => false end.

(** An event that, if it is a decryption call, passes [a] as associated
    data. *)
Definition decrypts_with (a : bytes) (e : event) : Prop :=
  match e with
  | EvDecrypt _ _ a' => a' = a
  | _ => True
  end.

(** The chunks a consumer of the generator receives. *)
Fixpoint yielded (evs : list event) : list bytes :=
  match evs with
  | [] => []
  | EvYield p :: r => p :: yielded r
  | _ :: r => yielded r
  end.

(** One turn of a [while True] receive loop either goes on with a new
    loop state or leaves the loop with an exception. *)
Inductive step_result (St : Type) : Type :=
| Next (st : St)
| Stop (e : exn).

Arguments Next {St} st.
Arguments Stop {St} e.

Section ReceiveLoop.

Variables (St Msg : Type).
Variable step : St -> Msg -> list event * step_result St.

(** The loop over the messages the transport delivers before it is
    closed; [ws.recv()] raises [ConnectionClosed] after the last one.
    The result is the events and the exception that ends the loop. *)
Fixpoint run_loop (st : St) (msgs : list Msg) : list event * exn :=
  match msgs with
  | [] => ([], ConnectionClosed)
  | m :: rest =>
      match step st m with
      | (evs, Next st') =>
          match run_loop st' rest with
          | (evs', e) => (evs ++ evs', e)
          end
      | (evs, Stop e) => (evs, e)
      end
  end.

(** The loop states met while the messages are processed. *)
Fixpoint loop_states (st : St) (msgs : list Msg) : list St :=
  st ::
  match msgs with
  | [] => []
  | m :: rest =>
      match step st m with
      | (_, Next st') => loop_states st' rest
      | (_, Stop _) => []
      end
  end.

End ReceiveLoop.

Arguments run_loop {St Msg} step st msgs.
Arguments loop_states {St Msg} step st msgs.

(** ** The session: handshake tail and receive loops *)

(** The local variables of the handshake once the hello message has
    been decoded. *)
Record hello_info : Type := Hello {
  server_nonce : bytes;
  conn_b64 : str;
  conn_id : bytes;
  codec : str;
  w : Z;
  h : Z;
  fps : Z;
  exp_srv : Z
}.

(** What the receive loop keeps from the handshake. *)
Record session : Type := Session {
  session_key : bytes;
  aad : bytes;
  session_conn_id : bytes
}.

(** The f-string [f"{conn_b64}|{exp}|{codec}|{w}x{h}|{fps}"], encoded. *)
Definition build_aad (conn : str) (exp : Z) (cdc : str) (w h fps : Z) : bytes :=
  encode_utf8
    (conn ++ lit "|" ++ str_of_int exp ++ lit "|" ++ cdc ++ lit "|"
     ++ str_of_int w ++ lit "x" ++ str_of_int h ++ lit "|" ++ str_of_int fps).

Definition exp_mismatch_log (exp_srv exp : Z) : log_record :=
  Log WARNING (lit "server exp mismatch: %s != %s") [ArgInt exp_srv; ArgInt exp].

(** [if exp_srv != exp: self.log.warning(...)] *)
Definition check_exp (exp_srv exp : Z) : list event :=
  if (exp_srv =? exp)%Z then [] else [EvLog (exp_mismatch_log exp_srv exp)].

(** [AESGCM(session_key)] accepts keys of 128, 192 or 256 bits. *)
Definition aesgcm_new (key : bytes) : outcome bytes :=
  if (length key =? 16) || (length key =? 24) || (length key =? 32)
  then Ok key
  else Raise (ValueError (lit "AESGCM key must be 128, 192, or 256 bits.")).

Definition hkdf_info : bytes := map byte_of_ascii (lit "tinycam hkdf v1").

Section Session.

Variable hmac_sha256 : bytes -> bytes -> bytes.

(** [aesgcm_decrypt key nonce data aad] stands for
    [AESGCM(key).decrypt(nonce, data, aad)] with a 12-byte nonce;
    [None] is the [InvalidTag] exception. *)
Variable aesgcm_decrypt : bytes -> bytes -> bytes -> bytes -> option bytes.

(** Session key and associated data, steps shared by both variants:
    [salt], [info], [hkdf_sha256], [AESGCM(session_key)], [aad].
    [exp] is the client's own value, computed before connecting. *)
Definition derive_session (access_key client_nonce : bytes) (exp : Z)
           (hl : hello_info) : option (outcome session) :=
  let salt := client_nonce ++ server_nonce hl in
  match hkdf_sha256 hmac_sha256 access_key salt hkdf_info 32 with
  | None => None
  | Some r =>
      Some (key <- r ;;
            gcm <- aesgcm_new key ;;
            Ok (Session gcm
                  (build_aad (conn_b64 hl) exp (codec hl) (w hl) (h hl) (fps hl))
                  (conn_id hl)))
  end.

(** [stream_downloader.py]: from [exp_srv = int(hello["exp"])] to the
    receive loop. *)
Definition iter_plain_chunks_setup (access_key client_nonce : bytes) (exp : Z)
           (hl : hello_info) : list event * option (outcome session) :=
  (check_exp (exp_srv hl) exp, derive_session access_key client_nonce exp hl).

(** [tinycam.py]: the same, with the [start] message echoing the
    server's [conn] and [exp]. *)
Definition get_chunks_setup (access_key client_nonce : bytes) (exp : Z)
           (hl : hello_info) : list event * option (outcome session) :=
  (check_exp (exp_srv hl) exp
     ++ [EvSendStart (conn_b64 hl) (exp_srv hl);
         EvLog (Log INFO (lit "[start] sent") [])],
   derive_session access_key client_nonce exp hl).

(** The decryption block common to both loops: [try: plain =
    aesgcm.decrypt(...) except Exception as e: log; raise]. *)
Definition decrypt_frame (s : session) (nonce tag ct : bytes)
  : list event * outcome bytes :=
  let data := join_ct_tag ct tag in
  match aesgcm_decrypt (session_key s) nonce data (aad s) with
  | Some plain => ([EvDecrypt nonce data (aad s)], Ok plain)
  | None =>
      ([EvDecrypt nonce data (aad s);
        EvLog (Log ERROR (lit "decrypt error: %s") [ArgExn InvalidTag])],
       Raise InvalidTag)
  end.

Definition counter_error (counter last_counter : Z) : exn :=
  RuntimeError (lit "counter not increasing (" ++ str_of_int counter
                ++ lit " <= " ++ str_of_int last_counter ++ lit ")").

(** *** [iter_plain_chunks] of [stream_downloader.py]

    The loop state is [last_counter]. *)
Definition iter_plain_chunks_step (s : session) (last_counter : Z)
           (msg : ws_message) : list event * step_result Z :=
  match msg with
  | TextMsg txt =>
      ([EvLog (Log DEBUG (lit "[text] %s") [ArgStr txt])], Next last_counter)
  | BinaryMsg buf =>
      if length buf <? 28 then
        ([EvLog (Log WARNING (lit "short frame: len=%d")
                   [ArgInt (Z.of_nat (length buf))])],
         Next last_counter)
      else
        let nonce := slice buf 0 12 in
        let tag := slice buf 12 28 in
        let ct := slice_from buf 28 in
        if negb (bytes_eqb (slice nonce 0 4) (session_conn_id s)) then
          ([], Stop (RuntimeError (lit "nonce connId mismatch")))
        else
          match be_u64 (slice nonce 4 12) with
          | Raise e => ([], Stop e)
          | Ok counter =>
              if (counter <=? last_counter)%Z then
                ([], Stop (counter_error counter last_counter))
              else
                match decrypt_frame s nonce tag ct with
                | (evs, Raise e) => (evs, Stop e)
                | (evs, Ok plain) => (evs ++ [EvYield plain], Next counter)
                end
          end
  end.

(** [last_counter = 0] before the loop. *)
Definition iter_plain_chunks (s : session) (msgs : list ws_message)
  : list event * exn :=
  run_loop (iter_plain_chunks_step s) 0%Z msgs.

(** *** [get_chunks] of [tinycam.py]

    [Time] is the type of [time.monotonic()] readings; every received
    message comes with the reading taken right after it.  The heartbeat
    and watchdog tasks that the source starts beside the loop act on
    the connection, not on the loop: the model takes the sequence of
    messages received as given and says what the loop does with it.
    [last_rx_ts], which the watchdog alone reads, is kept in the loop
    state. *)
Variable Time : Type.
Variable time_add : Time -> Time -> Time.
Variable time_gtb : Time -> Time -> bool.

Record rx_state : Type := RxState {
  last_rx_ts : Time;
  first_bin_seen : bool
}.

Definition first_frame_error : exn :=
  RuntimeError (lit "first binary frame timeout").

Definition get_chunks_step (s : session) (first_bin_deadline : Time)
           (st : rx_state) (m : ws_message * Time)
  : list event * step_result rx_state :=
  let (msg, now) := m in
  let st := RxState now (first_bin_seen st) in
  match msg with
  | TextMsg txt =>
      ([EvLog (Log DEBUG (lit "[text] %s") [ArgStr txt])], Next st)
  | BinaryMsg buf =>
      if length buf <? 28 then
        ([EvLog (Log WARNING (lit "short frame: len=%d")
                   [ArgInt (Z.of_nat (length buf))])],
         Next st)
      else
        let nonce := slice buf 0 12 in
        let tag := slice buf 12 28 in
        let ct := slice_from buf 28 in
        if negb (bytes_eqb (slice nonce 0 4) (session_conn_id s)) then
          ([], Stop (RuntimeError (lit "nonce connId mismatch")))
        else
          match be_u64 (slice nonce 4 12) with
          | Raise e => ([], Stop e)
          | Ok counter =>
              (* [if first_bin_seen: pass]: the counter is not used *)
              match decrypt_frame s nonce tag ct with
              | (evs, Raise e) => (evs, Stop e)
              | (evs, Ok plain) =>
                  let seen := if negb (first_bin_seen st) then true
                              else first_bin_seen st in
                  let st := RxState (last_rx_ts st) seen in
                  if negb (first_bin_seen st) && time_gtb now first_bin_deadline
                  then (evs ++ [EvYield plain], Stop first_frame_error)
                  else (evs ++ [EvYield plain], Next st)
              end
          end
  end.

(** [last_rx_ts = time.monotonic()], the deadline and the flag are set
    before the loop; [t0] is that first clock reading. *)
Definition get_chunks (s : session) (first_frame_timeout t0 : Time)
           (msgs : list (ws_message * Time)) : list event * exn :=
  run_loop (get_chunks_step s (time_add t0 first_frame_timeout))
           (RxState t0 false) msgs.

End Session.

Arguments RxState {Time} last_rx_ts first_bin_seen.
Arguments last_rx_ts {Time} r.
Arguments first_bin_seen {Time} r.
Arguments get_chunks_step aesgcm_decrypt {Time} time_gtb s first_bin_deadline st m.
Arguments get_chunks aesgcm_decrypt {Time} time_add time_gtb s first_frame_timeout t0 msgs.

(** ** [stream_to_file] and the reconnect loop of [main_async] *)

(** How one call of [client.stream_to_file] ends. *)
Inductive attempt_end : Type :=
| Returned
| Raised (e : exn).

(** One attempt: the chunks written to the file and the way it ended. *)
Record attempt : Type := Attempt {
  written : list bytes;
  ending : attempt_end
}.

(** [stream_to_file] consumes the generator: every yielded chunk is
    written, and the exception that ends the generator leaves the
    [async for] and the function. *)
Definition stream_to_file (gen : list event * exn) : attempt :=
  match gen with
  | (evs, e) => Attempt (yielded evs) (Raised e)
  end.

(** [except Exception] does not catch [KeyboardInterrupt]. *)
Definition is_Exception (e : exn) : bool :=
  match e with
  | KeyboardInterrupt => false
  | _ => true
  end.

Definition is_ws_closed (e : exn) : bool :=
  match e with
  | ConnectionClosed | InvalidStatusCode => true
  | _ => false
  end.

Inductive main_event : Type :=
| MainLog (r : log_record)
| Sleep (seconds : Z).

(** The tail of one turn: [await asyncio.sleep(min(backoff, 10.0))] and
    [backoff = min(backoff * 2.0, 10.0)].  The values 1, 2, 4, 8 and 10
    the variable takes are exact as floating-point numbers, so [Z]
    holds them. *)
Definition sleep_and_double (backoff : Z) : list main_event * Z :=
  ([Sleep (Z.min backoff 10)], Z.min (backoff * 2) 10).

(** One turn of the [while True] of [main_async]. *)
Definition main_async_turn (backoff : Z) (a : attempt)
  : list main_event * step_result Z :=
  match ending a with
  | Returned =>
      let backoff := 1%Z in
      let (evs, b) := sleep_and_double backoff in (evs, Next b)
  | Raised e =>
      if is_ws_closed e then
        let (evs, b) := sleep_and_double backoff in
        (MainLog (Log WARNING (lit "[stream] websocket closed: %s") [ArgExn e])
           :: evs, Next b)
      else if is_Exception e then
        let (evs, b) := sleep_and_double backoff in
        (MainLog (Log ERROR (lit "[stream] error: %s") [ArgExn e]) :: evs, Next b)
      else ([], Stop e)
  end.

(** The loop over the attempts that take place; the result is the
    events and the value of [backoff] reached, or the exception that
    leaves [main_async]. *)
Fixpoint main_async_loop (backoff : Z) (attempts : list attempt)
  : list main_event * step_result Z :=
  match attempts with
  | [] => ([], Next backoff)
  | a :: rest =>
      match main_async_turn backoff a with
      | (evs, Next b) =>
          let (evs', r) := main_async_loop b rest in (evs ++ evs', r)
      | (evs, Stop e) => (evs, Stop e)
      end
  end.

(** [backoff = 1.0] before the loop. *)
Definition main_async (attempts : list attempt) : list main_event * step_result Z :=
  main_async_loop 1 attempts.

Fixpoint waits (evs : list main_event) : list Z :=
  match evs with
  | [] => []
  | Sleep n :: r => n :: waits r
  | MainLog _ :: r => waits r
  end.

(** *** The reconnect policy as the specification words it

    Wait [backoff] after a failed attempt, doubling from 1 up to 10,
    with [backoff] reset to 1 after an attempt that decrypted at least
    one frame before failing.  The sentence does not say whether the
    reset takes effect before or after the wait of the same attempt;
    [reset_first] selects the reading. *)
Fixpoint policy_waits (reset_first : bool) (backoff : Z) (attempts : list attempt)
  : list Z :=
  match attempts with
  | [] => []
  | a :: rest =>
      let progress := negb (length (written a) =? 0) in
      if progress then
        if reset_first
        then 1%Z :: policy_waits reset_first 2 rest
        else Z.min backoff 10 :: policy_waits reset_first 1 rest
      else Z.min backoff 10 :: policy_waits reset_first (Z.min (backoff * 2) 10) rest
  end.

(** Hexadecimal notation for test vectors. *)
Definition hex_digit (c : ascii) : N :=
  let n := ascii_code c in
  if (97 <=? n)%N then (n - 87)%N else (n - 48)%N.

Fixpoint unhex (s : str) : bytes :=
  match s with
  | a :: b :: r => byte_of_N (hex_digit a * 16 + hex_digit b) :: unhex r
  | _ => []
  end.

(** ** The library primitives, for concrete runs

    [hashlib.sha256] (FIPS 180-4) and [hmac.new(...).digest()]
    (RFC 2104), so that the generic definitions above can be evaluated
    on the reference vectors of RFC 5869. *)

Module Hashlib.

Local Open Scope Z_scope.

Definition word := Z.

Definition wrap32 (x : Z) : word := x mod 4294967296.
Definition add32 (x y : word) : word := wrap32 (x + y).
Definition rotr (n : Z) (x : word) : word :=
  Z.lor (Z.shiftr x n) (wrap32 (Z.shiftl x (32 - n))).
Definition not32 (x : word) : word := 4294967295 - x.

Definition Ch (x y z : word) : word :=
  Z.lxor (Z.land x y) (Z.land (not32 x) z).
Definition Maj (x y z : word) : word :=
  Z.lxor (Z.lxor (Z.land x y) (Z.land x z)) (Z.land y z).
Definition bsig0 (x : word) : word :=
  Z.lxor (Z.lxor (rotr 2 x) (rotr 13 x)) (rotr 22 x).
Definition bsig1 (x : word) : word :=
  Z.lxor (Z.lxor (rotr 6 x) (rotr 11 x)) (rotr 25 x).
Definition ssig0 (x : word) : word :=
  Z.lxor (Z.lxor (rotr 7 x) (rotr 18 x)) (Z.shiftr x 3).
Definition ssig1 (x : word) : word :=
  Z.lxor (Z.lxor (rotr 17 x) (rotr 19 x)) (Z.shiftr x 10).

(** The eight working variables and the hash value. *)
Record state : Type := State {
  ha : word; hb : word; hc : word; hd : word;
  he : word; hf : word; hg : word; hh : word
}.

Definition initial_state : state :=
  State 0x6a09e667 0xbb67ae85 0x3c6ef372 0xa54ff53a
        0x510e527f 0x9b05688c 0x1f83d9ab 0x5be0cd19.

Definition byte_val (b : byte) : Z := Z.of_N (Byte.to_N b).

Definition byte_of_Z (z : Z) : byte := byte_of_N (Z.to_N (z mod 256)).

(** Big-endian words of a block. *)
Fixpoint words_of (b : bytes) : list word :=
  match b with
  | b0 :: b1 :: b2 :: b3 :: r =>
      (((byte_val b0 * 256 + byte_val b1) * 256 + byte_val b2) * 256
       + byte_val b3) :: words_of r
  | _ => []
  end.

Definition bytes_of_word (x : word) : bytes :=
  [byte_of_Z (Z.shiftr x 24); byte_of_Z (Z.shiftr x 16);
   byte_of_Z (Z.shiftr x 8); byte_of_Z x].

(** The sixty-four round constants (FIPS 180-4, section 4.2.2), read
    from their hexadecimal digits. *)
Definition round_constants : list word :=
  Eval vm_compute in
    words_of (unhex (lit
      ("428a2f9871374491b5c0fbcfe9b5dba53956c25b59f111f1923f82a4ab1c5ed5"
       ++ "d807aa9812835b01243185be550c7dc372be5d7480deb1fe9bdc06a7c19bf174"
       ++ "e49b69c1efbe47860fc19dc6240ca1cc2de92c6f4a7484aa5cb0a9dc76f988da"
       ++ "983e5152a831c66db00327c8bf597fc7c6e00bf3d5a7914706ca635114292967"
       ++ "27b70a852e1b21384d2c6dfc53380d13650a7354766a0abb81c2c92e92722c85"
       ++ "a2bfe8a1a81a664bc24b8b70c76c51a3d192e819d6990624f40e3585106aa070"
       ++ "19a4c1161e376c082748774c34b0bcb5391c0cb34ed8aa4a5b9cca4f682e6ff3"
       ++ "748f82ee78a5636f84c878148cc7020890befffaa4506cebbef9a3f7c67178f2")%string)).

(** The message schedule, newest word first: [sched] holds
    [W(t-1), W(t-2), ...]. *)
Fixpoint extend_schedule (n : nat) (sched : list word) : list word :=
  match n with
  | O => sched
  | S m =>
      let wt := add32 (add32 (ssig1 (nth 1 sched 0)) (nth 6 sched 0))
                      (add32 (ssig0 (nth 14 sched 0)) (nth 15 sched 0)) in
      extend_schedule m (wt :: sched)
  end.

Definition schedule (block : bytes) : list word :=
  rev (extend_schedule 48 (rev (words_of block))).

Definition round (s : state) (kw : word * word) : state :=
  let (k, wt) := kw in
  let t1 := add32 (add32 (add32 (hh s) (bsig1 (he s)))
                         (add32 (Ch (he s) (hf s) (hg s)) k)) wt in
  let t2 := add32 (bsig0 (ha s)) (Maj (ha s) (hb s) (hc s)) in
  State (add32 t1 t2) (ha s) (hb s) (hc s)
        (add32 (hd s) t1) (he s) (hf s) (hg s).

Definition compress (s : state) (block : bytes) : state :=
  let r := fold_left round (combine round_constants (schedule block)) s in
  State (add32 (ha s) (ha r)) (add32 (hb s) (hb r))
        (add32 (hc s) (hc r)) (add32 (hd s) (hd r))
        (add32 (he s) (he r)) (add32 (hf s) (hf r))
        (add32 (hg s) (hg r)) (add32 (hh s) (hh r)).

(** Padding: a one bit, zeros, and the bit length on 64 bits. *)
Definition pad (msg : bytes) : bytes :=
  let len := Z.of_nat (length msg) in
  let zeros := Z.to_nat ((55 - len) mod 64) in
  let bits := len * 8 in
  msg ++ [x80] ++ repeat x00 zeros
      ++ bytes_of_word (Z.shiftr bits 32) ++ bytes_of_word (wrap32 bits).

(** Absorb [n] blocks of 64 bytes. *)
Fixpoint absorb (n : nat) (s : state) (data : bytes) : state :=
  match n with
  | O => s
  | S m => absorb m (compress s (firstn 64 data)) (skipn 64 data)
  end.

Definition digest_of (s : state) : bytes :=
  bytes_of_word (ha s) ++ bytes_of_word (hb s) ++ bytes_of_word (hc s)
    ++ bytes_of_word (hd s) ++ bytes_of_word (he s) ++ bytes_of_word (hf s)
    ++ bytes_of_word (hg s) ++ bytes_of_word (hh s).

Definition sha256 (msg : bytes) : bytes :=
  let p := pad msg in
  digest_of (absorb (length p / 64) initial_state p).

Definition xor_byte (c : Z) (b : byte) : byte :=
  byte_of_Z (Z.lxor (byte_val b) c).

(** [hmac.new(key, msg, hashlib.sha256).digest()] *)
Definition hmac_sha256 (key msg : bytes) : bytes :=
  let k := if (64 <? length key)%nat then sha256 key else key in
  let k := k ++ repeat x00 (64 - length k) in
  sha256 (map (xor_byte 0x5c) k ++ sha256 (map (xor_byte 0x36) k ++ msg)).

End Hashlib.

(** A stand-in for [AESGCM.decrypt] in concrete runs: the tag of a
    frame is the first 16 bytes of the key, each xor-ed with the sum
    (modulo 256) of the bytes of [nonce || aad || ct]; the plaintext is
    the ciphertext itself.  The theorems hold for every decryption
    function; this one only serves to run the loops on explicit
    frames. *)
Definition demo_tag (key nonce aad ct : bytes) : bytes :=
  let sum := fold_left (fun a x => (a + Hashlib.byte_val x)%Z)
                       (nonce ++ aad ++ ct) 0%Z in
  map (Hashlib.xor_byte (sum mod 256)) (firstn 16 key).

Definition demo_decrypt (key nonce data aad : bytes) : option bytes :=
  let n := length data - 16 in
  let ct := firstn n data in
  let tag := skipn n data in
  if bytes_eqb tag (demo_tag key nonce aad ct) then Some ct else None.

(** ** Data for concrete runs

    The scenario of the specification: a client nonce of 16 zero bytes,
    a server nonce of 16 bytes [0x01], the connection id [AAAAAA==]
    (four zero bytes), codec [vp9], 1280x720 at 30 frames per second. *)

Definition demo_access_key : bytes := repeat x0b 32.
Definition demo_client_nonce : bytes := repeat x00 16.

Definition demo_hello (exp_srv : Z) : hello_info :=
  Hello (repeat x01 16) (lit "AAAAAA==") [x00; x00; x00; x00] (lit "vp9")
        1280 720 30 exp_srv.

(** The session the client derives when it asked for [exp = 100]
    (see [derive_demo_session]). *)
Definition demo_session : session :=
  Session (unhex (lit "2d3592d61cdda9d0086058c17b750c3faf20306edff559017a8e2d3b01b23161"))
          (map byte_of_ascii (lit "AAAAAA==|100|vp9|1280x720|30"))
          [x00; x00; x00; x00].

(** [struct.pack(">Q", n)] *)
Definition u64_be (n : Z) : bytes :=
  Hashlib.bytes_of_word (Hashlib.wrap32 (Z.shiftr n 32))
    ++ Hashlib.bytes_of_word (Hashlib.wrap32 n).

(** A frame [conn || counter || tag || ct] that [demo_decrypt] accepts
    under the key and associated data of [s]. *)
Definition demo_frame (s : session) (conn : bytes) (counter : Z) (ct : bytes)
  : bytes :=
  let nonce := conn ++ u64_be counter in
  nonce ++ demo_tag (session_key s) nonce (aad s) ct ++ ct.

Definition demo_conn : bytes := [x00; x00; x00; x00].
Definition demo_chunk (n : Z) : bytes := map byte_of_ascii (lit "chunk") ++ u64_be n.

(** An attempt that fails before any frame, and one that decrypts a
    frame and then loses the connection. *)
Definition attempt_without_frames : attempt :=
  stream_to_file (get_chunks demo_decrypt Z.add Z.gtb demo_session 60%Z 0%Z []).

Definition attempt_with_one_frame : attempt :=
  stream_to_file
    (get_chunks demo_decrypt Z.add Z.gtb demo_session 60%Z 0%Z
       [(BinaryMsg (demo_frame demo_session demo_conn 1 (demo_chunk 1)), 1%Z)]).

(** An attempt that ends with an exception the loop catches. *)
Definition failed (a : attempt) : bool :=
  match ending a with
  | Raised e => is_Exception e
  | Returned => false
  end.

(** Test case 1 of RFC 5869 (42 bytes of output, two rounds). *)
Definition rfc5869_ikm : bytes := repeat x0b 22.
Definition rfc5869_salt : bytes := unhex (lit "000102030405060708090a0b0c").
Definition rfc5869_info : bytes := unhex (lit "f0f1f2f3f4f5f6f7f8f9").
Definition rfc5869_okm : bytes :=
  unhex (lit "3cb25f25faacd57a90434f64d0362f2a2d2d0a90cf1a5a4c5db02d56ecc4c5bf34007208d5b887185865").

(** A frame for another connection id that the decryption function
    would accept is rejected all the same. *)
Definition stale_conn : bytes := [x01; x02; x03; x04].
Definition stale_frame : bytes :=
  demo_frame demo_session stale_conn 1 (demo_chunk 1).

(** A 27-byte message between two good frames: the counter stays at 5
    and frame 6 is still accepted. *)
Definition short_msg : bytes := repeat xff 27.

(** A good frame with one byte added to the ciphertext after the tag
    was computed: the decryption function rejects it. *)
Definition tampered_frame : bytes :=
  demo_frame demo_session demo_conn 1 (demo_chunk 1) ++ [x01].

(** Characters that [encode("utf-8")] maps to one byte. *)
Definition is_ascii (c : ascii) : Prop := (ascii_code c < 128)%N.

(** A byte string whose encoding [+//+QQ==] uses [+], [/] and [=], and
    one way of writing it: surrounded by whitespace, with URL-safe
    characters, escapes, embedded whitespace and one [=] left out. *)
Definition demo_data : bytes := [xfb; xff; xfe; x41].

Definition demo_pieces : list piece :=
  [Chr "-"; Chr "_"; Esc EscSlashUpper; Esc EscPlus; Chr " "; Chr "Q";
   Chr char_LF; Chr "Q"; Esc EscEqLower]%char.

Definition demo_pre : str := [char_TAB; " "%char].
Definition demo_post : str := [" "%char; char_CR; char_LF].

(** ** [hmac_b64] *)

Section Signature.

Variable hmac_sha256 : bytes -> bytes -> bytes.

(** The key is decoded first, then the UTF-8 bytes of the message are
    signed and the signature is encoded. *)
Definition hmac_b64 (message key_b64 : str) : outcome str :=
  key <- safe_b64decode key_b64 ;;
  Ok (b64e (hmac_sha256 key (encode_utf8 message))).

End Signature.

(** ** Observations on the events of a session *)

(** The nonces handed to [aesgcm.decrypt], in order. *)
Fixpoint decrypt_nonces (evs : list event) : list bytes :=
  match evs with
  | [] => []
  | EvDecrypt nonce _ _ :: r => nonce :: decrypt_nonces r
  | _ :: r => decrypt_nonces r
  end.

(** The counter field of a nonce, [nonce[4:12]] read big-endian. *)
Definition nonce_counter (nonce : bytes) : Z := be_value (slice nonce 4 12).

(** A binary message long enough to be split into nonce, tag and
    ciphertext. *)
Definition is_frame (m : ws_message) : bool :=
  match m with
  | BinaryMsg buf => 28 <=? length buf
  | TextMsg _ => false
  end.

(** The exception is one of those raised by the counter check. *)
Definition is_counter_error (e : exn) : Prop :=
  exists counter last_counter, e = counter_error counter last_counter.

(** ** The output file across reconnects

    Each turn of [main_async] calls [stream_to_file(args.out)], which
    opens the same path and writes the chunks of the attempt one after
    the other.  [file] is the content of that path ([None] when it does
    not exist); the path is taken to be writable. *)
Inductive open_mode : Type :=
| WB
| AB.

(** [open(target, mode)] on a path whose content is [file]: the content
    of the file once it is open.  Mode [wb] creates the file or cuts it
    to length 0, mode [ab] creates it or keeps what it holds. *)
Definition open_file (mode : open_mode) (file : option bytes) : bytes :=
  match mode, file with
  | AB, Some old => old
  | _, _ => []
  end.

(** [f.write(chunk)] on an open file adds the chunk at the end. *)
Definition write_file (f : bytes) (chunk : bytes) : bytes := f ++ chunk.

(** [stream_to_file] on the file system: [with open(target, "wb") as f]
    and then, for every chunk the generator yields, [f.write(chunk)];
    the [with] block closes the file when the exception of the
    generator leaves it.  The result is the attempt and the content of
    the path afterwards. *)
Definition stream_to_file_on (file : option bytes) (gen : list event * exn)
  : attempt * option bytes :=
  let f := open_file WB file in
  let f := fold_left write_file (yielded (fst gen)) f in
  (stream_to_file gen, Some f).

(** [main_async] on the file system: every turn calls
    [stream_to_file(args.out)] on the same path; [gens] are the runs of
    the generator, one per attempt. *)
Fixpoint main_async_file (backoff : Z) (gens : list (list event * exn))
         (file : option bytes) : option bytes :=
  match gens with
  | [] => file
  | gen :: rest =>
      let (a, file') := stream_to_file_on file gen in
      match main_async_turn backoff a with
      | (_, Next b) => main_async_file b rest file'
      | (_, Stop _) => file'
      end
  end.

(** ** The management calls of [tinycam.py] *)

Record http_request : Type := Request {
  req_url : str;
  req_headers : list (str * str);
  req_content : str
}.

(** A response: [r.status_code], [r.text], the chunks of
    [r.aiter_bytes(chunk_size)] and [r.headers.get("content-range")]. *)
Record http_response : Type := Response {
  status_code : Z;
  text : str;
  body_chunks : list bytes;
  content_range : option str
}.

(** What a management call does: log calls and requests sent. *)
Inductive api_event : Type :=
| ApiLog (r : log_record)
| ApiPost (req : http_request).

Fixpoint requests (evs : list api_event) : list http_request :=
  match evs with
  | [] => []
  | ApiPost r :: rest => r :: requests rest
  | ApiLog _ :: rest => requests rest
  end.

Definition dquote : ascii := ascii_of_nat 34.

(** A key of a JSON object as [json.dumps] writes it. *)
Definition json_key (k : string) : str := dquote :: lit k ++ [dquote].

(** [json.dumps({"ts": ts})] for an integer [ts]. *)
Definition json_ts (ts : Z) : str :=
  lit "{" ++ json_key "ts" ++ lit ": " ++ str_of_int ts ++ lit "}".

(** [json.dumps({"force": True})] *)
Definition json_force : str := lit "{" ++ json_key "force" ++ lit ": true}".

(** [if not self.keys.management_key_b64]: the key is missing when it
    is [None] or the empty string. *)
Definition key_set (k : option str) : option str :=
  match k with
  | Some (c :: r) => Some (c :: r)
  | _ => None
  end.

Definition skip_log (path : string) : api_event :=
  ApiLog (Log WARNING (lit "managementKey not set; skip " ++ lit path) []).

Definition auth_headers (sig : str) : list (str * str) :=
  [(lit "Authorization", sig); (lit "Content-Type", lit "application/json")].

Section ManagementApi.

Variable hmac_sha256 : bytes -> bytes -> bytes.

(** [self.http_base], and the transport: [post req] is what
    [await client.post(...)] returns or raises. *)
Variable http_base : str.
Variable post : http_request -> outcome http_response.

(** [str(e)] for an exception. *)
Variable str_of_exn : exn -> str.

(** [ts] is the value of [gen_ts()] at the call. *)
Definition start_server (mgmt : option str) (ts : Z)
  : list api_event * outcome (Z * str) :=
  match key_set mgmt with
  | None => ([skip_log "/start"], Ok (0%Z, lit "skip"))
  | Some key =>
      let body := json_ts ts in
      match hmac_b64 hmac_sha256 body key with
      | Raise e => ([], Raise e)
      | Ok sig =>
          let req := Request (http_base ++ lit "/start") (auth_headers sig) body in
          match post req with
          | Raise e => ([ApiPost req], Raise e)
          | Ok r =>
              ([ApiPost req;
                ApiLog (Log INFO (lit "[/start] %s %s")
                            [ArgInt (status_code r); ArgStr (text r)])],
               Ok (status_code r, text r))
          end
      end
  end.

Definition stop_server (mgmt : option str) (ts : Z)
  : list api_event * outcome (Z * str) :=
  match key_set mgmt with
  | None => ([skip_log "/stop"], Ok (0%Z, lit "skip"))
  | Some key =>
      let body := json_ts ts in
      match hmac_b64 hmac_sha256 body key with
      | Raise e => ([], Raise e)
      | Ok sig =>
          let req := Request (http_base ++ lit "/stop") (auth_headers sig) body in
          match post req with
          | Raise e => ([ApiPost req], Raise e)
          | Ok r =>
              ([ApiPost req;
                ApiLog (Log INFO (lit "[/stop] %s %s")
                            [ArgInt (status_code r); ArgStr (text r)])],
               Ok (status_code r, text r))
          end
      end
  end.

(** The signature is computed over [{"ts": ...}], the content sent is
    [{"force": true}]; the request stands in a [try] whose handler
    returns [(0, str(e))]. *)
Definition apply_config (mgmt : option str) (ts : Z)
  : list api_event * outcome (Z * str) :=
  match key_set mgmt with
  | None => ([skip_log "/apply-config"], Ok (0%Z, lit "skip"))
  | Some key =>
      match hmac_b64 hmac_sha256 (json_ts ts) key with
      | Raise e => ([], Raise e)
      | Ok sig =>
          let req := Request (http_base ++ lit "/apply") (auth_headers sig)
                             json_force in
          match post req with
          | Raise e =>
              if is_Exception e then
                ([ApiPost req;
                  ApiLog (Log ERROR (lit "POST /apply-config error: %s") [ArgExn e])],
                 Ok (0%Z, str_of_exn e))
              else ([ApiPost req], Raise e)
          | Ok r =>
              ([ApiPost req;
                ApiLog (Log INFO (lit "[/apply-config POST] %s %s")
                            [ArgInt (status_code r); ArgStr (text r)])],
               Ok (status_code r, text r))
          end
      end
  end.

Definition get_devices (mgmt : option str) (ts : Z)
  : list api_event * outcome (Z * str) :=
  match key_set mgmt with
  | None => ([skip_log "/device"], Ok (0%Z, lit "skip"))
  | Some key =>
      let body := json_ts ts in
      match hmac_b64 hmac_sha256 body key with
      | Raise e => ([], Raise e)
      | Ok sig =>
          let req := Request (http_base ++ lit "/device")
                             [(lit "Authorization", sig)] body in
          match post req with
          | Raise e => ([ApiPost req], Raise e)
          | Ok r => ([ApiPost req], Ok (status_code r, text r))
          end
      end
  end.

(** The two log lines of [get_file_entry] say [/start] in the source. *)
Definition get_file_entry (mgmt : option str) (ts : Z)
  : list api_event * outcome (Z * str) :=
  match key_set mgmt with
  | None => ([skip_log "/start"], Ok (0%Z, lit "skip"))
  | Some key =>
      let body := json_ts ts in
      match hmac_b64 hmac_sha256 body key with
      | Raise e => ([], Raise e)
      | Ok sig =>
          let req := Request (http_base ++ lit "/file/list") (auth_headers sig)
                             body in
          match post req with
          | Raise e => ([ApiPost req], Raise e)
          | Ok r =>
              ([ApiPost req;
                ApiLog (Log INFO (lit "[/start] %s %s")
                            [ArgInt (status_code r); ArgStr (text r)])],
               Ok (status_code r, text r))
          end
      end
  end.

(** *** [get_file]: the resumable download *)

(** [json.dumps] of a string, [int] of a string, [os.path.abspath] and
    [os.sep] are taken from the runtime. *)
Variable json_string : str -> str.
Variable int_of_str : str -> outcome Z.
Variable abspath : str -> str.
Variable os_sep : str.

(** [json.dumps({"name": remote, "attachment": bool(attachment),
    "ts": gen_ts()})] *)
Definition json_file_body (remote : str) (attachment : bool) (ts : Z) : str :=
  lit "{" ++ json_key "name" ++ lit ": " ++ json_string remote
    ++ lit ", " ++ json_key "attachment" ++ lit ": "
    ++ (if attachment then lit "true" else lit "false")
    ++ lit ", " ++ json_key "ts" ++ lit ": " ++ str_of_int ts ++ lit "}".

(** [cr.split("/")[-1]] *)
Definition last_segment (s : str) : str :=
  fold_left (fun acc c => if Ascii.eqb c "/" then [] else acc ++ [c]) s [].

Definition in_statuses (status : Z) (l : list Z) : bool :=
  existsb (Z.eqb status) l.

(** [start]: the size of the file at [target] when resuming, else 0. *)
Definition resume_offset (resume : bool) (file : option bytes) : Z :=
  match file with
  | Some old => if resume then Z.of_nat (length old) else 0%Z
  | None => 0%Z
  end.

Definition download_headers (sig : str) (start : Z) : list (str * str) :=
  [(lit "Authorization", sig);
   (lit "Content-Type", lit "application/json");
   (lit "Accept", lit "application/octet-stream")]
    ++ (if (0 <? start)%Z
        then [(lit "Range", lit "bytes=" ++ str_of_int start ++ lit "-")]
        else []).

(** The final [try] block: compare the size of the file with the total
    of the [content-range] header; any exception is swallowed. *)
Definition size_check (r : http_response) (size : nat) : list api_event :=
  match content_range r with
  | Some (c :: cr) =>
      if existsb (Ascii.eqb "/") (c :: cr) then
        match int_of_str (last_segment (c :: cr)) with
        | Ok total =>
            if (Z.of_nat size =? total)%Z then []
            else [ApiLog (Log WARNING (lit "download size mismatch: %s != %s")
                              [ArgInt (Z.of_nat size); ArgInt total])]
        | Raise _ => []
        end
      else []
  | _ => []
  end.

Record download : Type := Download {
  dl_value : outcome (Z * str);
  dl_file : option bytes;
  dl_events : list api_event
}.

(** [file] is the content of [target] before the call ([None] when the
    path does not exist); the directory is taken to be writable and
    the body to arrive whole, as the chunks [body_chunks]. *)
Definition get_file (mgmt : option str) (remote local_prefix : str)
           (attachment resume : bool) (ts : Z) (file : option bytes)
  : download :=
  match key_set mgmt with
  | None => Download (Ok (0%Z, lit "skip")) file [skip_log "/start"]
  | Some key =>
      let target := local_prefix ++ os_sep ++ remote in
      let start := resume_offset resume file in
      let body := json_file_body remote attachment ts in
      match hmac_b64 hmac_sha256 body key with
      | Raise e => Download (Raise e) file []
      | Ok sig =>
          let req := Request (http_base ++ lit "/file/download")
                             (download_headers sig start) body in
          match post req with
          | Raise e => Download (Raise e) file [ApiPost req]
          | Ok r =>
              let status := status_code r in
              if in_statuses status [401; 403; 404]%Z then
                Download (Ok (status, text r)) file [ApiPost req]
              else if in_statuses status [304]%Z then
                Download (Ok (status, lit "not modified")) file [ApiPost req]
              else if negb (in_statuses status [200; 206]%Z) then
                Download (Ok (status, text r)) file [ApiPost req]
              else
                let append := resume && (0 <? start)%Z && (status =? 206)%Z in
                let kept := match file with
                            | Some old => if append then old else []
                            | None => []
                            end in
                let written_chunks :=
                  filter (fun chunk => negb (length chunk =? 0)) (body_chunks r) in
                let content := kept ++ concat written_chunks in
                Download (Ok (status, abspath target)) (Some content)
                         (ApiPost req :: size_check r (length content))
          end
      end
  end.

End ManagementApi.

(** ** [watchdog_task] of [tinycam.py] *)

Section Watchdog.

Variable Time : Type.
Variable time_sub : Time -> Time -> Time.
Variable time_gtb : Time -> Time -> bool.

(** What one turn of the loop finds after [await asyncio.sleep(1.0)]:
    the readings of [time.monotonic()] and of [last_rx_ts_getter()], or
    an exception raised inside the [try]. *)
Inductive tick : Type :=
| Woke (now last_rx : Time)
| Failed (e : exn).

Inductive watchdog_event : Type :=
| InactivityWarning (timeout : Time)
| CloseCall (code : Z) (reason : str)
| WatchdogEnd (e : exn).

(** How the task ends: its loop is left by [break], it is cancelled
    while it sleeps (there is no further tick), or an exception that is
    not an [Exception] leaves it. *)
Inductive task_end : Type :=
| LoopLeft
| Cancelled
| Escaped (e : exn).

(** The [finally: break] leaves the loop whether [ws.close] returns or
    raises. *)
Fixpoint watchdog_task (inactivity_timeout : Time) (ticks : list tick)
  : list watchdog_event * task_end :=
  match ticks with
  | [] => ([], Cancelled)
  | Woke now last_rx :: rest =>
      if time_gtb (time_sub now last_rx) inactivity_timeout then
        ([InactivityWarning inactivity_timeout;
          CloseCall 1001 (lit "client watchdog inactivity")], LoopLeft)
      else watchdog_task inactivity_timeout rest
  | Failed e :: rest =>
      if is_Exception e then ([WatchdogEnd e], LoopLeft)
      else ([], Escaped e)
  end.

Definition stale (inactivity_timeout : Time) (t : tick) : bool :=
  match t with
  | Woke now last_rx => time_gtb (time_sub now last_rx) inactivity_timeout
  | Failed _ => false
  end.

Definition failed_tick (t : tick) : bool :=
  match t with
  | Failed _ => true
  | Woke _ _ => false
  end.

End Watchdog.

Arguments Woke {Time} now last_rx.
Arguments Failed {Time} e.
Arguments InactivityWarning {Time} timeout.
Arguments CloseCall {Time} code reason.
Arguments WatchdogEnd {Time} e.
Arguments watchdog_task {Time} time_sub time_gtb inactivity_timeout ticks.
Arguments stale {Time} time_sub time_gtb inactivity_timeout t.
Arguments failed_tick {Time} t.

(** The characters [normalize_b64] removes or replaces one by one. *)
Definition removed_char (c : ascii) : bool :=
  embedded_space c || Ascii.eqb c "-"%char || Ascii.eqb c "_"%char.

(** ** Observations on the management calls *)

(** The request carries, as its [Authorization] header, the signature
    of the content it sends under the management key. *)
Definition signed_with (hmac_sha256 : bytes -> bytes -> bytes)
           (mgmt : option str) (req : http_request) : Prop :=
  exists key sig,
    key_set mgmt = Some key
    /\ hmac_b64 hmac_sha256 (req_content req) key = Ok sig
    /\ In (lit "Authorization", sig) (req_headers req).

Definition is_close_call {Time} (ev : watchdog_event Time) : bool :=
  match ev with
  | CloseCall _ _ => true
  | _ => false
  end.

(** Stand-ins for concrete runs of the management calls: a signature
    function, a transport that fails, and the runtime's [json.dumps]
    and [int] on strings. *)
Definition demo_sign (key msg : bytes) : bytes := demo_tag key [] [] msg.

Definition unreachable_server (req : http_request) : outcome http_response :=
  Raise (RuntimeError (lit "All connection attempts failed")).

Definition demo_json_string (s : str) : str := dquote :: s ++ [dquote].

Definition demo_int_of_str (s : str) : outcome Z :=
  Raise (ValueError (lit "invalid literal for int() with base 10")).

(* ================================================================== *)
(** * Part II: properties                                              *)
(* ================================================================== *)

(** ** Key derivation *)

Lemma bytes_of_int_small (n : nat) :
  n < 255 ->
  exists b, Byte.of_N (N.of_nat (S n)) = Some b
            /\ bytes_of_int (Z.of_nat n + 1) = Ok [b].
Proof.
  intros Hn. unfold bytes_of_int.
  replace (Z.to_N (Z.of_nat n + 1)) with (N.of_nat (S n)) by lia.
  destruct (Byte.of_N (N.of_nat (S n))) as [b|] eqn:E.
  - exists b. split; [reflexivity|].
    destruct (0 <=? Z.of_nat n + 1)%Z eqn:E1; [|lia].
    destruct (Z.of_nat n + 1 <? 256)%Z eqn:E2; [reflexivity|lia].
  - apply Byte.of_N_None_iff in E. lia.
Qed.

Lemma bytes_of_int_large (i : Z) :
  (256 <= i)%Z ->
  bytes_of_int i = Raise (ValueError (lit "bytes must be in range(0, 256)")).
Proof.
  intros Hi. unfold bytes_of_int.
  destruct (i <? 256)%Z eqn:E; [lia|]. now rewrite andb_false_r.
Qed.

Lemma hkdf_rounds_gt (length : Z) (n : nat) :
  (Z.of_nat (32 * n) < length)%Z <-> n < hkdf_rounds length.
Proof.
  unfold hkdf_rounds.
  pose proof (Z.div_mod (length + 31) 32 ltac:(lia)) as Hd.
  pose proof (Z.mod_pos_bound (length + 31) 32 ltac:(lia)) as Hm.
  split; intros H; lia.
Qed.

Lemma hkdf_rounds_least (length : Z) (n : nat) :
  (length <= 32 * Z.of_nat n)%Z <-> hkdf_rounds length <= n.
Proof.
  pose proof (hkdf_rounds_gt length n). lia.
Qed.

Lemma hkdf_rounds_bound (length : Z) :
  (length <= 8160)%Z -> hkdf_rounds length <= 255.
Proof. intros H. apply hkdf_rounds_least. lia. Qed.

Lemma hkdf_rounds_mono (l1 l2 : Z) :
  (l1 <= l2)%Z -> hkdf_rounds l1 <= hkdf_rounds l2.
Proof.
  intros H. apply hkdf_rounds_least.
  pose proof (proj2 (hkdf_rounds_least l2 (hkdf_rounds l2)) (le_n _)). lia.
Qed.

Section KeyDerivationFacts.

Variable hmac_sha256 : bytes -> bytes -> bytes.

(** The loop never exhausts its fuel, whatever the hash is: the block
    index only grows and index 256 raises. *)
Lemma hkdf_loop_total (prk info : bytes) (length : Z) :
  forall fuel okm t block_index,
    (1 <= block_index)%Z ->
    (Z.max 1 (257 - block_index) <= Z.of_nat fuel)%Z ->
    hkdf_loop hmac_sha256 fuel prk info length okm t block_index <> None.
Proof.
  induction fuel as [|fuel IH]; intros okm t bi H1 H2; [lia|].
  simpl. destruct (Z.of_nat (List.length okm) <? length)%Z; [|discriminate].
  destruct (bytes_of_int bi) as [ctr|e] eqn:E; [|discriminate].
  destruct (Z_lt_le_dec bi 256) as [Hlt|Hge].
  - apply IH; lia.
  - rewrite (bytes_of_int_large bi Hge) in E. discriminate.
Qed.

Lemma hkdf_sha256_total (ikm salt info : bytes) (length : Z) :
  hkdf_sha256 hmac_sha256 ikm salt info length <> None.
Proof.
  unfold hkdf_sha256.
  pose proof (hkdf_loop_total (hmac_sha256 salt ikm) info length
                hkdf_fuel [] [] 1%Z) as H.
  destruct (hkdf_loop hmac_sha256 hkdf_fuel (hmac_sha256 salt ikm) info length [] [] 1)
    as [[okm|e]|]; try discriminate.
  exfalso. apply H; [lia | unfold hkdf_fuel; lia | reflexivity].
Qed.

Hypothesis digest_size : forall key msg, length (hmac_sha256 key msg) = 32.

Lemma hkdf_T_length (prk info : bytes) (n : nat) :
  n < 255 -> length (hkdf_T hmac_sha256 prk info (S n)) = 32.
Proof.
  intros Hn. destruct (bytes_of_int_small n Hn) as (b & Hb & _).
  cbn [hkdf_T]. rewrite Hb. apply digest_size.
Qed.

Lemma hkdf_blocks_length (prk info : bytes) (n : nat) :
  n <= 255 -> length (hkdf_blocks hmac_sha256 prk info n) = 32 * n.
Proof.
  induction n as [|n IH]; intros Hn; [reflexivity|].
  cbn [hkdf_blocks]. rewrite length_app, IH, hkdf_T_length by lia. lia.
Qed.

Lemma hkdf_blocks_prefix (prk info : bytes) (n m : nat) :
  n <= m ->
  exists rest, hkdf_blocks hmac_sha256 prk info m
               = hkdf_blocks hmac_sha256 prk info n ++ rest.
Proof.
  induction 1 as [|m Hle [rest IH]].
  - exists []. now rewrite app_nil_r.
  - exists (rest ++ hkdf_T hmac_sha256 prk info (S m)).
    cbn [hkdf_blocks]. rewrite IH. now rewrite app_assoc.
Qed.

(** Loop invariant: after [n] rounds the state is
    [(T(1) || ... || T(n), T(n), n + 1)]; from there the loop stops
    after round [hkdf_rounds length]. *)
Lemma hkdf_loop_from (prk info : bytes) (length : Z) :
  (length <= 8160)%Z ->
  forall fuel n,
    n <= hkdf_rounds length ->
    hkdf_rounds length - n < fuel ->
    hkdf_loop hmac_sha256 fuel prk info length
              (hkdf_blocks hmac_sha256 prk info n)
              (hkdf_T hmac_sha256 prk info n) (Z.of_nat n + 1)
    = Some (Ok (hkdf_blocks hmac_sha256 prk info (hkdf_rounds length))).
Proof.
  intros Hlen. pose proof (hkdf_rounds_bound length Hlen) as HN.
  induction fuel as [|fuel IH]; intros n Hn Hfuel; [lia|].
  cbn [hkdf_loop]. rewrite hkdf_blocks_length by lia.
  destruct (Z.of_nat (32 * n) <? length)%Z eqn:E.
  - apply Z.ltb_lt, hkdf_rounds_gt in E.
    destruct (bytes_of_int_small n ltac:(lia)) as (b & Hb & Hctr).
    rewrite Hctr.
    specialize (IH (S n) ltac:(lia) ltac:(lia)).
    cbn [hkdf_blocks hkdf_T] in IH. rewrite Hb in IH.
    replace (Z.of_nat (S n) + 1)%Z with (Z.of_nat n + 1 + 1)%Z in IH by lia.
    exact IH.
  - apply Z.ltb_ge in E.
    assert (n = hkdf_rounds length) as ->; [|reflexivity].
    apply Nat.le_antisymm; [exact Hn|]. apply hkdf_rounds_least. lia.
Qed.

(** Beyond 255 blocks the 256th block index does not fit a byte. *)
Lemma hkdf_loop_overflow (prk info : bytes) (length : Z) :
  (8160 < length)%Z ->
  forall fuel n,
    n <= 255 ->
    255 - n < fuel ->
    hkdf_loop hmac_sha256 fuel prk info length
              (hkdf_blocks hmac_sha256 prk info n)
              (hkdf_T hmac_sha256 prk info n) (Z.of_nat n + 1)
    = Some (Raise (ValueError (lit "bytes must be in range(0, 256)"))).
Proof.
  intros Hlen.
  induction fuel as [|fuel IH]; intros n Hn Hfuel; [lia|].
  cbn [hkdf_loop]. rewrite hkdf_blocks_length by lia.
  destruct (Z.of_nat (32 * n) <? length)%Z eqn:E; [|apply Z.ltb_ge in E; lia].
  destruct (Nat.eq_dec n 255) as [->|Hne].
  - reflexivity.
  - destruct (bytes_of_int_small n ltac:(lia)) as (b & Hb & Hctr).
    rewrite Hctr.
    specialize (IH (S n) ltac:(lia) ltac:(lia)).
    cbn [hkdf_blocks hkdf_T] in IH. rewrite Hb in IH.
    replace (Z.of_nat (S n) + 1)%Z with (Z.of_nat n + 1 + 1)%Z in IH by lia.
    exact IH.
Qed.

Lemma slice_to_blocks (prk info : bytes) (length : Z) :
  (length <= 8160)%Z ->
  slice_to (hkdf_blocks hmac_sha256 prk info (hkdf_rounds length)) length
  = firstn (Z.to_nat length)
           (hkdf_blocks hmac_sha256 prk info (hkdf_rounds length)).
Proof.
  intros Hlen. unfold slice_to.
  destruct (length <? 0)%Z eqn:E; [|reflexivity].
  apply Z.ltb_lt in E.
  assert (hkdf_rounds length = 0) as ->.
  { pose proof (proj1 (hkdf_rounds_least length 0)). lia. }
  now rewrite !firstn_nil.
Qed.

Lemma hkdf_sha256_in_range (ikm salt info : bytes) (length : Z) :
  (length <= 8160)%Z ->
  hkdf_sha256 hmac_sha256 ikm salt info length
  = Some (Ok (hkdf_spec hmac_sha256 ikm salt info length)).
Proof.
  intros Hlen. unfold hkdf_sha256, hkdf_spec.
  pose proof (hkdf_rounds_bound length Hlen) as HN.
  pose proof (hkdf_loop_from (hmac_sha256 salt ikm) info length Hlen
                hkdf_fuel 0 ltac:(lia) ltac:(unfold hkdf_fuel; lia)) as H.
  cbn [hkdf_blocks hkdf_T Z.of_nat Z.add] in H. rewrite H.
  now rewrite slice_to_blocks.
Qed.

Lemma hkdf_sha256_too_long (ikm salt info : bytes) (length : Z) :
  (8160 < length)%Z ->
  hkdf_sha256 hmac_sha256 ikm salt info length
  = Some (Raise (ValueError (lit "bytes must be in range(0, 256)"))).
Proof.
  intros Hlen. unfold hkdf_sha256.
  pose proof (hkdf_loop_overflow (hmac_sha256 salt ikm) info length Hlen
                hkdf_fuel 0 ltac:(lia) ltac:(unfold hkdf_fuel; lia)) as H.
  cbn [hkdf_blocks hkdf_T Z.of_nat Z.add] in H. now rewrite H.
Qed.

Lemma hkdf_spec_length (ikm salt info : bytes) (length : Z) :
  (0 <= length <= 8160)%Z ->
  List.length (hkdf_spec hmac_sha256 ikm salt info length) = Z.to_nat length.
Proof.
  intros Hlen. unfold hkdf_spec.
  pose proof (hkdf_rounds_bound length ltac:(lia)) as HN.
  rewrite length_firstn, hkdf_blocks_length by lia.
  pose proof (proj2 (hkdf_rounds_least length (hkdf_rounds length)) (le_n _)).
  lia.
Qed.

Lemma hkdf_spec_prefix (ikm salt info : bytes) (l1 l2 : Z) :
  (0 <= l1 <= l2)%Z -> (l2 <= 8160)%Z ->
  hkdf_spec hmac_sha256 ikm salt info l1
  = firstn (Z.to_nat l1) (hkdf_spec hmac_sha256 ikm salt info l2).
Proof.
  intros H12 H2. unfold hkdf_spec.
  set (prk := hmac_sha256 salt ikm).
  rewrite firstn_firstn.
  replace (Nat.min (Z.to_nat l1) (Z.to_nat l2)) with (Z.to_nat l1) by lia.
  destruct (hkdf_blocks_prefix prk info _ _
              (hkdf_rounds_mono l1 l2 ltac:(lia))) as [rest ->].
  rewrite firstn_app.
  pose proof (hkdf_rounds_bound l1 ltac:(lia)) as HN.
  rewrite hkdf_blocks_length by lia.
  pose proof (proj2 (hkdf_rounds_least l1 (hkdf_rounds l1)) (le_n _)).
  replace (Z.to_nat l1 - 32 * hkdf_rounds l1) with 0 by lia.
  now rewrite firstn_O, app_nil_r.
Qed.

End KeyDerivationFacts.

(** The library hash produces 32 bytes. *)
Lemma sha256_length (msg : bytes) : length (Hashlib.sha256 msg) = 32.
Proof. reflexivity. Qed.

Lemma hmac_sha256_digest_size (key msg : bytes) :
  length (Hashlib.hmac_sha256 key msg) = 32.
Proof. unfold Hashlib.hmac_sha256. apply sha256_length. Qed.

Example hkdf_sha256_rfc5869 :
  hkdf_sha256 Hashlib.hmac_sha256 rfc5869_ikm rfc5869_salt rfc5869_info 42
  = Some (Ok rfc5869_okm).
Proof. vm_compute. reflexivity. Qed.

(** C3 (as amended).  For every [ikm], [salt], [info] and every length
    from 1 to 8160 (255 blocks of 32 bytes), [hkdf_sha256] returns the
    first [length] bytes of [T(1) || T(2) || ... || T(N)], where
    [prk = HMAC(salt, ikm)], [T(0)] is empty,
    [T(i) = HMAC(prk, T(i-1) || info || byte(i))] and [N] is the least
    number of 32-byte blocks that covers [length]; the result has
    exactly [length] bytes, and a length above 32 takes at least two
    rounds.  The result is a function of the four arguments alone. *)
Theorem hkdf_sha256_expands
        (hmac_sha256 : bytes -> bytes -> bytes)
        (digest_size : forall key msg, length (hmac_sha256 key msg) = 32)
        (ikm salt info : bytes) (length : Z) :
  (0 < length <= 8160)%Z ->
  let prk := hmac_sha256 salt ikm in
  let n := hkdf_rounds length in
  hkdf_sha256 hmac_sha256 ikm salt info length
  = Some (Ok (firstn (Z.to_nat length) (hkdf_blocks hmac_sha256 prk info n)))
  /\ List.length (firstn (Z.to_nat length) (hkdf_blocks hmac_sha256 prk info n))
     = Z.to_nat length
  /\ (forall m : nat, (length <= 32 * Z.of_nat m)%Z <-> n <= m)
  /\ ((32 < length)%Z -> 2 <= n)
  /\ (forall i b, Byte.of_N (N.of_nat (S i)) = Some b ->
        hkdf_T hmac_sha256 prk info (S i)
        = hmac_sha256 prk (hkdf_T hmac_sha256 prk info i ++ info ++ [b])).
Proof.
  intros Hlen prk n. repeat split.
  - apply (hkdf_sha256_in_range _ digest_size). lia.
  - apply (hkdf_spec_length _ digest_size ikm salt info). lia.
  - apply hkdf_rounds_least.
  - apply hkdf_rounds_least.
  - intros H. apply hkdf_rounds_gt. lia.
  - intros i b Hb. cbn [hkdf_T]. now rewrite Hb.
Qed.

Lemma hkdf_sha256_expands_witness :
  (0 < 42 <= 8160)%Z
  /\ hkdf_sha256 Hashlib.hmac_sha256 rfc5869_ikm rfc5869_salt rfc5869_info 42
     = Some (Ok (firstn 42
          (hkdf_blocks Hashlib.hmac_sha256
             (Hashlib.hmac_sha256 rfc5869_salt rfc5869_ikm) rfc5869_info 2))).
Proof.
  split; [lia|].
  exact (proj1 (hkdf_sha256_expands Hashlib.hmac_sha256 hmac_sha256_digest_size
                  rfc5869_ikm rfc5869_salt rfc5869_info 42 ltac:(lia))).
Defined.

(** C3, the claim as stated fails: a request of 8161 bytes needs a
    256th block, and [bytes([256])] raises [ValueError]. *)
Lemma hkdf_sha256_8161_raises :
  (0 < 8161)%Z
  /\ hkdf_sha256 Hashlib.hmac_sha256 rfc5869_ikm rfc5869_salt rfc5869_info 8161
     = Some (Raise (ValueError (lit "bytes must be in range(0, 256)"))).
Proof.
  split; [lia|].
  apply (hkdf_sha256_too_long _ hmac_sha256_digest_size). lia.
Qed.

(** C10 (as amended).  For all lengths [0 <= l1 <= l2 <= 8160] both
    calls return, and the [l1]-byte output is the first [l1] bytes of
    the [l2]-byte output; the output for length 0 is empty. *)
Theorem hkdf_sha256_prefix
        (hmac_sha256 : bytes -> bytes -> bytes)
        (digest_size : forall key msg, length (hmac_sha256 key msg) = 32)
        (ikm salt info : bytes) (l1 l2 : Z) :
  (0 <= l1 <= l2)%Z -> (l2 <= 8160)%Z ->
  (exists out2,
      hkdf_sha256 hmac_sha256 ikm salt info l2 = Some (Ok out2)
      /\ hkdf_sha256 hmac_sha256 ikm salt info l1
         = Some (Ok (firstn (Z.to_nat l1) out2)))
  /\ hkdf_sha256 hmac_sha256 ikm salt info 0 = Some (Ok []).
Proof.
  intros H12 H2. split.
  - exists (hkdf_spec hmac_sha256 ikm salt info l2). split.
    + apply (hkdf_sha256_in_range _ digest_size). lia.
    + rewrite (hkdf_sha256_in_range _ digest_size) by lia.
      now rewrite (hkdf_spec_prefix _ digest_size ikm salt info l1 l2 H12 H2).
  - rewrite (hkdf_sha256_in_range _ digest_size) by lia. reflexivity.
Qed.

Lemma hkdf_sha256_prefix_witness :
  (0 <= 16 <= 42)%Z /\ (42 <= 8160)%Z
  /\ exists out2,
      hkdf_sha256 Hashlib.hmac_sha256 rfc5869_ikm rfc5869_salt rfc5869_info 42
      = Some (Ok out2)
      /\ hkdf_sha256 Hashlib.hmac_sha256 rfc5869_ikm rfc5869_salt rfc5869_info 16
         = Some (Ok (firstn 16 out2)).
Proof.
  split; [lia|]. split; [lia|].
  exact (proj1 (hkdf_sha256_prefix Hashlib.hmac_sha256 hmac_sha256_digest_size
                  rfc5869_ikm rfc5869_salt rfc5869_info 16 42
                  ltac:(lia) ltac:(lia))).
Defined.

(** C10, the claim as stated fails for [l1 = 32 <= l2 = 8161]: the
    32-byte output exists, the 8161-byte call raises, so there is no
    longer output whose prefix it could be. *)
Lemma hkdf_sha256_prefix_fails :
  (32 <= 8161)%Z
  /\ (exists out1,
        hkdf_sha256 Hashlib.hmac_sha256 rfc5869_ikm rfc5869_salt rfc5869_info 32
        = Some (Ok out1))
  /\ ~ (exists out2,
          hkdf_sha256 Hashlib.hmac_sha256 rfc5869_ikm rfc5869_salt rfc5869_info 8161
          = Some (Ok out2)
          /\ hkdf_sha256 Hashlib.hmac_sha256 rfc5869_ikm rfc5869_salt rfc5869_info 32
             = Some (Ok (firstn 32 out2))).
Proof.
  split; [lia|]. split.
  - eexists. apply (hkdf_sha256_in_range _ hmac_sha256_digest_size). lia.
  - intros (out2 & H & _).
    rewrite (hkdf_sha256_too_long _ hmac_sha256_digest_size) in H by lia.
    discriminate.
Qed.

(** ** Frames and the receive loops *)

Lemma bytes_eqb_eq (a b : bytes) : bytes_eqb a b = true <-> a = b.
Proof.
  revert b. induction a as [|x a IH]; intros [|y b]; simpl; split;
    try discriminate; try reflexivity.
  - intros H. apply andb_true_iff in H as [Hxy Hab].
    apply Byte.byte_dec_bl in Hxy. apply IH in Hab. now subst.
  - intros H. injection H as -> ->. apply andb_true_iff. split.
    + now apply Byte.byte_dec_lb.
    + now apply IH.
Qed.

Lemma bytes_eqb_neq (a b : bytes) : bytes_eqb a b = false <-> a <> b.
Proof.
  pose proof (bytes_eqb_eq a b) as H.
  destruct (bytes_eqb a b); split; intros H1; try discriminate; try easy.
  - exfalso. apply H1. now apply H.
  - intros ->. assert (false = true) by now apply H. discriminate.
Qed.

(** The counter field of a frame of at least 28 bytes has 8 bytes, so
    [struct.unpack] does not fail on it. *)
Lemma frame_counter_ok (buf : bytes) :
  28 <= length buf ->
  be_u64 (slice (slice buf 0 12) 4 12)
  = Ok (be_value (slice (slice buf 0 12) 4 12)).
Proof.
  intros Hlen. unfold be_u64.
  assert (length (slice (slice buf 0 12) 4 12) = 8) as ->; [|reflexivity].
  unfold slice. rewrite length_firstn, length_skipn, length_firstn, length_skipn.
  lia.
Qed.

Lemma short_test (buf : bytes) : 28 <= length buf -> (length buf <? 28) = false.
Proof. intros H. now apply Nat.ltb_ge. Qed.

Section ReceiveLoopFacts.

Variables (St Msg : Type).
Variable step : St -> Msg -> list event * step_result St.

Lemma run_loop_stop (st : St) (m : Msg) (rest : list Msg) evs e :
  step st m = (evs, Stop e) ->
  run_loop step st (m :: rest) = (evs, e).
Proof. intros H. simpl. now rewrite H. Qed.

Lemma run_loop_next (st st' : St) (m : Msg) (rest : list Msg) evs :
  step st m = (evs, Next st') ->
  run_loop step st (m :: rest)
  = (evs ++ fst (run_loop step st' rest), snd (run_loop step st' rest)).
Proof.
  intros H. simpl. rewrite H.
  now destruct (run_loop step st' rest) as [evs' e'].
Qed.

(** The exception that ends the loop is [ConnectionClosed] or one a
    step stopped with. *)
Lemma run_loop_exn (P : exn -> Prop) :
  P ConnectionClosed ->
  (forall st m evs e, step st m = (evs, Stop e) -> P e) ->
  forall msgs st, P (snd (run_loop step st msgs)).
Proof.
  intros Hc Hs. induction msgs as [|m rest IH]; intros st; simpl; [exact Hc|].
  destruct (step st m) as [evs [st'|e]] eqn:E.
  - specialize (IH st').
    destruct (run_loop step st' rest) as [evs' e']. exact IH.
  - simpl. eapply Hs, E.
Qed.

(** What holds of the events of every step holds of the events of the
    loop. *)
Lemma run_loop_events (P : event -> Prop) :
  (forall st m evs r, step st m = (evs, r) -> Forall P evs) ->
  forall msgs st, Forall P (fst (run_loop step st msgs)).
Proof.
  intros Hs. induction msgs as [|m rest IH]; intros st; simpl; [constructor|].
  destruct (step st m) as [evs [st'|e]] eqn:E.
  - specialize (IH st'). pose proof (Hs _ _ _ _ E) as Hevs.
    destruct (run_loop step st' rest) as [evs' e']. simpl in *.
    apply Forall_app. now split.
  - simpl. exact (Hs _ _ _ _ E).
Qed.

(** An invariant of the steps holds in every loop state. *)
Lemma loop_states_invariant (I : St -> Prop) :
  (forall st m evs st', I st -> step st m = (evs, Next st') -> I st') ->
  forall msgs st0 st, I st0 -> In st (loop_states step st0 msgs) -> I st.
Proof.
  intros Hstep. induction msgs as [|m rest IH]; intros st0 st H0 Hin.
  - simpl in Hin. destruct Hin as [<-|[]]. exact H0.
  - simpl in Hin. destruct Hin as [<-|Hin]; [exact H0|].
    destruct (step st0 m) as [evs [st'|e]] eqn:E; [|destruct Hin].
    eapply IH; [|exact Hin]. eapply Hstep; eauto.
Qed.

End ReceiveLoopFacts.

Section SessionFacts.

Variable aesgcm_decrypt : bytes -> bytes -> bytes -> bytes -> option bytes.

Lemma decrypt_frame_cases (s : session) (nonce tag ct : bytes) :
  (exists plain,
      aesgcm_decrypt (session_key s) nonce (join_ct_tag ct tag) (aad s) = Some plain
      /\ decrypt_frame aesgcm_decrypt s nonce tag ct
         = ([EvDecrypt nonce (join_ct_tag ct tag) (aad s)], Ok plain))
  \/ (aesgcm_decrypt (session_key s) nonce (join_ct_tag ct tag) (aad s) = None
      /\ decrypt_frame aesgcm_decrypt s nonce tag ct
         = ([EvDecrypt nonce (join_ct_tag ct tag) (aad s);
             EvLog (Log ERROR (lit "decrypt error: %s") [ArgExn InvalidTag])],
            Raise InvalidTag)).
Proof.
  unfold decrypt_frame.
  destruct (aesgcm_decrypt (session_key s) nonce (join_ct_tag ct tag) (aad s))
    as [plain|]; [left; eauto | right; eauto].
Qed.

Lemma decrypt_frame_aad (s : session) (nonce tag ct : bytes) :
  Forall (decrypts_with (aad s)) (fst (decrypt_frame aesgcm_decrypt s nonce tag ct)).
Proof.
  destruct (decrypt_frame_cases s nonce tag ct) as [(plain & _ & ->)|(_ & ->)];
    simpl; repeat constructor.
Qed.

(** *** [iter_plain_chunks] *)

(** Every decryption call of the loop passes the session's associated
    data. *)
Lemma iter_step_aad (s : session) (st : Z) (msg : ws_message) evs r :
  iter_plain_chunks_step aesgcm_decrypt s st msg = (evs, r) ->
  Forall (decrypts_with (aad s)) evs.
Proof.
  unfold iter_plain_chunks_step. destruct msg as [txt|buf].
  - intros H. injection H as <- _. repeat constructor.
  - destruct (length buf <? 28).
    + intros H. injection H as <- _. repeat constructor.
    + destruct (negb _).
      * intros H. injection H as <- _. constructor.
      * destruct (be_u64 _) as [counter|e].
        -- destruct (counter <=? st)%Z.
           ++ intros H. injection H as <- _. constructor.
           ++ pose proof (decrypt_frame_aad s (slice buf 0 12) (slice buf 12 28)
                            (slice_from buf 28)) as Hd.
              destruct (decrypt_frame _ _ _ _ _) as [evs' [plain|e]];
                intros H; injection H as <- _; simpl in Hd.
              ** apply Forall_app. split; [exact Hd|repeat constructor].
              ** exact Hd.
        -- intros H. injection H as <- _. constructor.
Qed.

Lemma iter_plain_chunks_aad (s : session) (msgs : list ws_message) :
  Forall (decrypts_with (aad s)) (fst (iter_plain_chunks aesgcm_decrypt s msgs)).
Proof.
  unfold iter_plain_chunks. apply run_loop_events.
  intros st m evs r. apply iter_step_aad.
Qed.

Lemma iter_step_short (s : session) (last_counter : Z) (buf : bytes) :
  length buf < 28 ->
  iter_plain_chunks_step aesgcm_decrypt s last_counter (BinaryMsg buf)
  = ([EvLog (Log WARNING (lit "short frame: len=%d")
               [ArgInt (Z.of_nat (length buf))])],
     Next last_counter).
Proof.
  intros H. unfold iter_plain_chunks_step.
  now rewrite (proj2 (Nat.ltb_lt _ _) H).
Qed.

Lemma iter_step_conn_mismatch (s : session) (last_counter : Z) (buf : bytes) :
  28 <= length buf ->
  slice (slice buf 0 12) 0 4 <> session_conn_id s ->
  iter_plain_chunks_step aesgcm_decrypt s last_counter (BinaryMsg buf)
  = ([], Stop (RuntimeError (lit "nonce connId mismatch"))).
Proof.
  intros Hlen Hne. unfold iter_plain_chunks_step.
  rewrite (short_test buf Hlen).
  now rewrite (proj2 (bytes_eqb_neq _ _) Hne).
Qed.

Lemma iter_step_counter_reject (s : session) (last_counter : Z) (buf : bytes) :
  28 <= length buf ->
  slice (slice buf 0 12) 0 4 = session_conn_id s ->
  (be_value (slice (slice buf 0 12) 4 12) <= last_counter)%Z ->
  iter_plain_chunks_step aesgcm_decrypt s last_counter (BinaryMsg buf)
  = ([], Stop (counter_error (be_value (slice (slice buf 0 12) 4 12))
                             last_counter)).
Proof.
  intros Hlen Hconn Hctr. unfold iter_plain_chunks_step.
  rewrite (short_test buf Hlen).
  rewrite (proj2 (bytes_eqb_eq _ _) Hconn). cbn [negb].
  rewrite (frame_counter_ok buf Hlen).
  now rewrite (proj2 (Z.leb_le _ _) Hctr).
Qed.

(** A step that goes on either leaves the counter as it is and
    yields nothing, or accepts a frame whose counter is above the
    last one. *)
Lemma iter_step_next (s : session) (last_counter st' : Z) (msg : ws_message) evs :
  iter_plain_chunks_step aesgcm_decrypt s last_counter msg = (evs, Next st') ->
  (st' = last_counter /\ yielded evs = [])
  \/ (exists buf plain,
         msg = BinaryMsg buf /\ 28 <= length buf
         /\ slice (slice buf 0 12) 0 4 = session_conn_id s
         /\ be_u64 (slice (slice buf 0 12) 4 12) = Ok st'
         /\ (last_counter < st')%Z
         /\ yielded evs = [plain]).
Proof.
  unfold iter_plain_chunks_step. destruct msg as [txt|buf].
  - intros H. injection H as <- <-. now left.
  - destruct (length buf <? 28) eqn:Elen.
    + intros H. injection H as <- <-. now left.
    + apply Nat.ltb_ge in Elen.
      destruct (bytes_eqb (slice (slice buf 0 12) 0 4) (session_conn_id s)) eqn:Ec;
        cbn [negb]; [|discriminate].
      apply bytes_eqb_eq in Ec.
      rewrite (frame_counter_ok buf Elen).
      destruct (be_value (slice (slice buf 0 12) 4 12) <=? last_counter)%Z eqn:Ek;
        [discriminate|].
      apply Z.leb_gt in Ek.
      destruct (decrypt_frame_cases s (slice buf 0 12) (slice buf 12 28)
                  (slice_from buf 28)) as [(plain & _ & ->)|(_ & ->)];
        [|discriminate].
      intros H. injection H as <- <-. right. exists buf, plain.
      repeat split; auto using frame_counter_ok.
Qed.

Lemma iter_states_nonneg (s : session) (msgs : list ws_message) (st : Z) :
  In st (loop_states (iter_plain_chunks_step aesgcm_decrypt s) 0%Z msgs) ->
  (0 <= st)%Z.
Proof.
  apply (loop_states_invariant _ _ (iter_plain_chunks_step aesgcm_decrypt s)
           (fun st => (0 <= st)%Z)); [|lia].
  intros st0 m evs st' H0 Hstep.
  apply iter_step_next in Hstep as [[-> _]|(buf & plain & _ & _ & _ & _ & Hlt & _)]; lia.
Qed.

(** *** [get_chunks] *)

Variable Time : Type.
Variable time_gtb : Time -> Time -> bool.

Lemma get_step_aad (s : session) (deadline : Time) (st : rx_state Time)
      (m : ws_message * Time) evs r :
  get_chunks_step aesgcm_decrypt time_gtb s deadline st m = (evs, r) ->
  Forall (decrypts_with (aad s)) evs.
Proof.
  unfold get_chunks_step. destruct m as [[txt|buf] now].
  - intros H. injection H as <- _. repeat constructor.
  - destruct (length buf <? 28).
    + intros H. injection H as <- _. repeat constructor.
    + destruct (negb _).
      * intros H. injection H as <- _. constructor.
      * destruct (be_u64 _) as [counter|e].
        -- pose proof (decrypt_frame_aad s (slice buf 0 12) (slice buf 12 28)
                         (slice_from buf 28)) as Hd.
           destruct (decrypt_frame _ _ _ _ _) as [evs' [plain|e]]; simpl in Hd.
           ++ destruct (_ && _); intros H; injection H as <- _;
                (apply Forall_app; split; [exact Hd|repeat constructor]).
           ++ intros H. injection H as <- _. exact Hd.
        -- intros H. injection H as <- _. constructor.
Qed.

Lemma get_chunks_aad (time_add : Time -> Time -> Time) (s : session)
      (first_frame_timeout t0 : Time) (msgs : list (ws_message * Time)) :
  Forall (decrypts_with (aad s))
         (fst (get_chunks aesgcm_decrypt time_add time_gtb s
                          first_frame_timeout t0 msgs)).
Proof.
  unfold get_chunks. apply run_loop_events.
  intros st m evs r. apply get_step_aad.
Qed.

Lemma get_step_short (s : session) (deadline now : Time)
      (st : rx_state Time) (buf : bytes) :
  length buf < 28 ->
  get_chunks_step aesgcm_decrypt time_gtb s deadline st (BinaryMsg buf, now)
  = ([EvLog (Log WARNING (lit "short frame: len=%d")
               [ArgInt (Z.of_nat (length buf))])],
     Next (RxState now (first_bin_seen st))).
Proof.
  intros H. unfold get_chunks_step.
  now rewrite (proj2 (Nat.ltb_lt _ _) H).
Qed.

Lemma get_step_conn_mismatch (s : session) (deadline now : Time)
      (st : rx_state Time) (buf : bytes) :
  28 <= length buf ->
  slice (slice buf 0 12) 0 4 <> session_conn_id s ->
  get_chunks_step aesgcm_decrypt time_gtb s deadline st (BinaryMsg buf, now)
  = ([], Stop (RuntimeError (lit "nonce connId mismatch"))).
Proof.
  intros Hlen Hne. unfold get_chunks_step.
  rewrite (short_test buf Hlen).
  now rewrite (proj2 (bytes_eqb_neq _ _) Hne).
Qed.

(** After a successful decryption the flag is set before the
    deadline test, so the test fails whatever the clock says. *)
Lemma get_step_accept (s : session) (deadline now : Time)
      (st : rx_state Time) (buf plain : bytes) :
  28 <= length buf ->
  slice (slice buf 0 12) 0 4 = session_conn_id s ->
  aesgcm_decrypt (session_key s) (slice buf 0 12)
                 (join_ct_tag (slice_from buf 28) (slice buf 12 28)) (aad s)
  = Some plain ->
  get_chunks_step aesgcm_decrypt time_gtb s deadline st (BinaryMsg buf, now)
  = ([EvDecrypt (slice buf 0 12)
                (join_ct_tag (slice_from buf 28) (slice buf 12 28)) (aad s);
      EvYield plain],
     Next (RxState now true)).
Proof.
  intros Hlen Hconn Hdec. unfold get_chunks_step.
  rewrite (short_test buf Hlen).
  rewrite (proj2 (bytes_eqb_eq _ _) Hconn). cbn [negb].
  rewrite (frame_counter_ok buf Hlen).
  unfold decrypt_frame. rewrite Hdec. cbn.
  now destruct (first_bin_seen st).
Qed.

Lemma get_step_never_first_frame_timeout (s : session) (deadline : Time)
      (st : rx_state Time) (m : ws_message * Time) evs e :
  get_chunks_step aesgcm_decrypt time_gtb s deadline st m = (evs, Stop e) ->
  e = RuntimeError (lit "nonce connId mismatch") \/ e = InvalidTag.
Proof.
  unfold get_chunks_step. destruct m as [[txt|buf] now]; [discriminate|].
  destruct (length buf <? 28) eqn:Elen; [discriminate|].
  apply Nat.ltb_ge in Elen.
  destruct (bytes_eqb (slice (slice buf 0 12) 0 4) (session_conn_id s));
    cbn [negb].
  - rewrite (frame_counter_ok buf Elen).
    destruct (decrypt_frame_cases s (slice buf 0 12) (slice buf 12 28)
                (slice_from buf 28)) as [(plain & _ & ->)|(_ & ->)].
    + cbn. destruct (first_bin_seen st); cbn; discriminate.
    + intros H. injection H as _ <-. now right.
  - intros H. injection H as _ <-. now left.
Qed.

End SessionFacts.

(** *** Frame-level claims *)

(** C6.  A binary frame of at least 28 bytes whose first four nonce
    bytes differ from the handshake's [conn_id] ends the session with
    the error [nonce connId mismatch], in both variants and in every
    loop state.  No call of [aesgcm.decrypt] is made and nothing is
    yielded for it (the frame produces no event), and this holds for
    every decryption function, also one that would accept the frame. *)
Theorem conn_id_mismatch_is_fatal
        (aesgcm_decrypt : bytes -> bytes -> bytes -> bytes -> option bytes)
        (Time : Type) (time_gtb : Time -> Time -> bool)
        (s : session) (buf : bytes)
        (last_counter : Z) (rest : list ws_message)
        (deadline now : Time) (st : rx_state Time)
        (rest' : list (ws_message * Time)) :
  28 <= length buf ->
  slice (slice buf 0 12) 0 4 <> session_conn_id s ->
  run_loop (iter_plain_chunks_step aesgcm_decrypt s) last_counter
           (BinaryMsg buf :: rest)
  = ([], RuntimeError (lit "nonce connId mismatch"))
  /\ run_loop (get_chunks_step aesgcm_decrypt time_gtb s deadline) st
              ((BinaryMsg buf, now) :: rest')
     = ([], RuntimeError (lit "nonce connId mismatch")).
Proof.
  intros Hlen Hne. split; apply run_loop_stop.
  - now apply iter_step_conn_mismatch.
  - now apply get_step_conn_mismatch.
Qed.

Lemma conn_id_mismatch_is_fatal_witness :
  demo_decrypt (session_key demo_session) (slice stale_frame 0 12)
    (join_ct_tag (slice_from stale_frame 28) (slice stale_frame 12 28))
    (aad demo_session) = Some (demo_chunk 1)
  /\ run_loop (iter_plain_chunks_step demo_decrypt demo_session) 0%Z
              [BinaryMsg stale_frame]
     = ([], RuntimeError (lit "nonce connId mismatch"))
  /\ run_loop (get_chunks_step demo_decrypt Z.gtb demo_session 60%Z)
              (RxState 0%Z false) [(BinaryMsg stale_frame, 1%Z)]
     = ([], RuntimeError (lit "nonce connId mismatch")).
Proof.
  split; [vm_compute; reflexivity|].
  apply (conn_id_mismatch_is_fatal demo_decrypt Z Z.gtb demo_session stale_frame
           0%Z [] 60%Z 1%Z (RxState 0%Z false) []).
  - vm_compute. lia.
  - vm_compute. discriminate.
Defined.

(** C7.  A binary message shorter than 28 bytes is logged with a
    warning and skipped: the step raises nothing, yields nothing and
    makes no decryption call, the loop goes on with the next message,
    and the replay counter (in [iter_plain_chunks]) and the
    first-frame flag (in [get_chunks]) are unchanged; the session, with
    its key, is never modified by a step. *)
Theorem short_frame_is_skipped
        (aesgcm_decrypt : bytes -> bytes -> bytes -> bytes -> option bytes)
        (Time : Type) (time_gtb : Time -> Time -> bool)
        (s : session) (buf : bytes)
        (last_counter : Z) (rest : list ws_message)
        (deadline now : Time) (st : rx_state Time)
        (rest' : list (ws_message * Time)) :
  length buf < 28 ->
  let warning :=
    EvLog (Log WARNING (lit "short frame: len=%d") [ArgInt (Z.of_nat (length buf))]) in
  let iter_step := iter_plain_chunks_step aesgcm_decrypt s in
  let get_step := get_chunks_step aesgcm_decrypt time_gtb s deadline in
  iter_step last_counter (BinaryMsg buf) = ([warning], Next last_counter)
  /\ run_loop iter_step last_counter (BinaryMsg buf :: rest)
     = (warning :: fst (run_loop iter_step last_counter rest),
        snd (run_loop iter_step last_counter rest))
  /\ get_step st (BinaryMsg buf, now)
     = ([warning], Next (RxState now (first_bin_seen st)))
  /\ run_loop get_step st ((BinaryMsg buf, now) :: rest')
     = (warning
          :: fst (run_loop get_step (RxState now (first_bin_seen st)) rest'),
        snd (run_loop get_step (RxState now (first_bin_seen st)) rest'))
  /\ yielded [warning] = [] /\ existsb is_decrypt [warning] = false.
Proof.
  intros Hlen warning iter_step get_step.
  pose proof (iter_step_short aesgcm_decrypt s last_counter buf Hlen) as Hi.
  pose proof (get_step_short aesgcm_decrypt Time time_gtb s deadline now st buf Hlen)
    as Hg.
  repeat split.
  - exact Hi.
  - exact (run_loop_next _ _ iter_step _ _ _ rest _ Hi).
  - exact Hg.
  - exact (run_loop_next _ _ get_step _ _ _ rest' _ Hg).
Qed.

Lemma short_frame_is_skipped_witness :
  length short_msg < 28
  /\ iter_plain_chunks_step demo_decrypt demo_session 5%Z (BinaryMsg short_msg)
     = ([EvLog (Log WARNING (lit "short frame: len=%d") [ArgInt 27])], Next 5%Z)
  /\ yielded (fst (iter_plain_chunks demo_decrypt demo_session
       [BinaryMsg (demo_frame demo_session demo_conn 5 (demo_chunk 5));
        BinaryMsg short_msg;
        BinaryMsg (demo_frame demo_session demo_conn 6 (demo_chunk 6))]))
     = [demo_chunk 5; demo_chunk 6].
Proof.
  split; [vm_compute; lia|]. split.
  - exact (proj1 (short_frame_is_skipped demo_decrypt Z Z.gtb demo_session short_msg
                    5%Z [] 60%Z 1%Z (RxState 0%Z false) []
                    ltac:(vm_compute; lia))).
  - vm_compute. reflexivity.
Defined.

(** C8.  In [get_chunks] the first-binary-frame timeout is never
    raised: for every sequence of messages and every clock reading the
    loop ends with the closing of the connection, a connection-id
    mismatch or a decryption failure.  The deadline test stands after
    the decryption of a binary frame and after the flag has been set,
    so its first conjunct is false whenever it is evaluated. *)
Theorem first_frame_timeout_unreachable
        (aesgcm_decrypt : bytes -> bytes -> bytes -> bytes -> option bytes)
        (Time : Type) (time_add : Time -> Time -> Time)
        (time_gtb : Time -> Time -> bool)
        (s : session) (first_frame_timeout t0 : Time)
        (msgs : list (ws_message * Time)) :
  let e := snd (get_chunks aesgcm_decrypt time_add time_gtb s
                           first_frame_timeout t0 msgs) in
  e <> first_frame_error
  /\ (e = ConnectionClosed
      \/ e = RuntimeError (lit "nonce connId mismatch")
      \/ e = InvalidTag).
Proof.
  unfold get_chunks.
  apply (run_loop_exn _ _
           (get_chunks_step aesgcm_decrypt time_gtb s
              (time_add t0 first_frame_timeout))
           (fun e => e <> first_frame_error
                     /\ (e = ConnectionClosed
                         \/ e = RuntimeError (lit "nonce connId mismatch")
                         \/ e = InvalidTag))).
  - split; [discriminate | now left].
  - intros st m evs e Hstep.
    apply get_step_never_first_frame_timeout in Hstep as [->| ->].
    + split; [vm_compute; discriminate | right; now left].
    + split; [discriminate | right; now right].
Qed.

(** No binary frame within the 60 seconds: only text arrives, long
    after the deadline, and the loop still waits for the next message. *)
Example get_chunks_late_text_only :
  get_chunks demo_decrypt Z.add Z.gtb demo_session 60%Z 0%Z
             [(TextMsg (lit "status"), 500%Z); (TextMsg (lit "status"), 900%Z)]
  = ([EvLog (Log DEBUG (lit "[text] %s") [ArgStr (lit "status")]);
      EvLog (Log DEBUG (lit "[text] %s") [ArgStr (lit "status")])],
     ConnectionClosed).
Proof. reflexivity. Qed.

(** C9.  In [iter_plain_chunks] the replay counter starts at 0 and a
    frame is rejected when its counter is at most the last one.  First,
    a first frame carrying counter 0 ends the session with the ordering
    error, before any decryption, although nothing was accepted before
    it.  Second, in any loop state a frame whose counter is at most the
    last one ends the session in the same way.  Third, in every loop
    state a session reaches, a frame that is accepted (the step yields)
    carries a counter of at least 1, above the last one, which becomes
    the new loop state. *)
Theorem counter_zero_rejected
        (aesgcm_decrypt : bytes -> bytes -> bytes -> bytes -> option bytes)
        (s : session) :
  (forall (buf0 : bytes) (rest : list ws_message),
      28 <= length buf0 ->
      slice (slice buf0 0 12) 0 4 = session_conn_id s ->
      be_u64 (slice (slice buf0 0 12) 4 12) = Ok 0%Z ->
      iter_plain_chunks aesgcm_decrypt s (BinaryMsg buf0 :: rest)
      = ([], counter_error 0 0))
  /\ (forall (last_counter counter : Z) (buf : bytes) (rest : list ws_message),
         28 <= length buf ->
         slice (slice buf 0 12) 0 4 = session_conn_id s ->
         be_u64 (slice (slice buf 0 12) 4 12) = Ok counter ->
         (counter <= last_counter)%Z ->
         run_loop (iter_plain_chunks_step aesgcm_decrypt s) last_counter
                  (BinaryMsg buf :: rest)
         = ([], counter_error counter last_counter))
  /\ (forall (msgs : list ws_message) (st st' : Z) (buf : bytes)
             (evs : list event),
         In st (loop_states (iter_plain_chunks_step aesgcm_decrypt s) 0%Z msgs) ->
         iter_plain_chunks_step aesgcm_decrypt s st (BinaryMsg buf)
         = (evs, Next st') ->
         yielded evs <> [] ->
         be_u64 (slice (slice buf 0 12) 4 12) = Ok st'
         /\ (1 <= st')%Z /\ (st < st')%Z).
Proof.
  assert (Hreject : forall last_counter counter buf rest,
             28 <= length buf ->
             slice (slice buf 0 12) 0 4 = session_conn_id s ->
             be_u64 (slice (slice buf 0 12) 4 12) = Ok counter ->
             (counter <= last_counter)%Z ->
             run_loop (iter_plain_chunks_step aesgcm_decrypt s) last_counter
                      (BinaryMsg buf :: rest)
             = ([], counter_error counter last_counter)).
  { intros last_counter counter buf rest Hlen Hconn Hctr Hle.
    apply run_loop_stop.
    rewrite (frame_counter_ok buf Hlen) in Hctr. injection Hctr as Hctr.
    pose proof (iter_step_counter_reject aesgcm_decrypt s last_counter buf
                  Hlen Hconn) as H.
    rewrite Hctr in H. apply H. exact Hle. }
  split; [|split].
  - intros buf0 rest Hlen Hconn Hzero. unfold iter_plain_chunks.
    apply Hreject; [exact Hlen | exact Hconn | exact Hzero | lia].
  - exact Hreject.
  - intros msgs st st' buf evs Hreach Hstep Hyield.
    apply iter_states_nonneg in Hreach.
    apply iter_step_next in Hstep
      as [[_ Hnil]|(b & plain & Hmsg & _ & _ & Hctr & Hlt & _)].
    + contradiction.
    + injection Hmsg as <-. repeat split; [exact Hctr | lia | lia].
Qed.

Lemma counter_zero_rejected_witness :
  iter_plain_chunks demo_decrypt demo_session
    [BinaryMsg (demo_frame demo_session demo_conn 0 (demo_chunk 0))]
  = ([], counter_error 0 0)
  /\ be_u64 (slice (slice (demo_frame demo_session demo_conn 1 (demo_chunk 1)) 0 12)
                   4 12) = Ok 1%Z
  /\ (1 <= 1)%Z /\ (0 < 1)%Z.
Proof.
  destruct (counter_zero_rejected demo_decrypt demo_session)
    as (Hzero & _ & Haccepted).
  split.
  - apply (Hzero (demo_frame demo_session demo_conn 0 (demo_chunk 0)) []).
    + vm_compute. lia.
    + vm_compute. reflexivity.
    + vm_compute. reflexivity.
  - apply (Haccepted [] 0%Z 1%Z
             (demo_frame demo_session demo_conn 1 (demo_chunk 1))
             [EvDecrypt
                (slice (demo_frame demo_session demo_conn 1 (demo_chunk 1)) 0 12)
                (join_ct_tag
                   (slice_from (demo_frame demo_session demo_conn 1 (demo_chunk 1)) 28)
                   (slice (demo_frame demo_session demo_conn 1 (demo_chunk 1)) 12 28))
                (aad demo_session);
              EvYield (demo_chunk 1)]).
    + simpl. left. reflexivity.
    + vm_compute. reflexivity.
    + simpl. discriminate.
Defined.

(** [iter_plain_chunks] of [stream_downloader.py] enforces the order:
    after frame 5, frame 3 ends the session with the ordering error,
    and frame 6 is accepted. *)
Example iter_plain_chunks_5_3 :
  iter_plain_chunks demo_decrypt demo_session
    [BinaryMsg (demo_frame demo_session demo_conn 5 (demo_chunk 5));
     BinaryMsg (demo_frame demo_session demo_conn 3 (demo_chunk 3))]
  = ([EvDecrypt
        (slice (demo_frame demo_session demo_conn 5 (demo_chunk 5)) 0 12)
        (demo_chunk 5
           ++ slice (demo_frame demo_session demo_conn 5 (demo_chunk 5)) 12 28)
        (aad demo_session);
      EvYield (demo_chunk 5)],
     counter_error 3 5).
Proof. vm_compute. reflexivity. Qed.

Example iter_plain_chunks_5_6 :
  let r := iter_plain_chunks demo_decrypt demo_session
    [BinaryMsg (demo_frame demo_session demo_conn 5 (demo_chunk 5));
     BinaryMsg (demo_frame demo_session demo_conn 6 (demo_chunk 6))] in
  yielded (fst r) = [demo_chunk 5; demo_chunk 6]
  /\ snd r = ConnectionClosed.
Proof. vm_compute. repeat split; reflexivity. Qed.

(** C2, the divergence.  [get_chunks] of [tinycam.py] decodes the
    counter and never compares it: fed the counters 5 and then 3 it
    decrypts and yields both frames, and the session goes on until the
    connection is closed. *)
Theorem get_chunks_accepts_replayed_counter :
  let f5 := demo_frame demo_session demo_conn 5 (demo_chunk 5) in
  let f3 := demo_frame demo_session demo_conn 3 (demo_chunk 3) in
  let r := get_chunks demo_decrypt Z.add Z.gtb demo_session 60%Z 0%Z
                      [(BinaryMsg f5, 1%Z); (BinaryMsg f3, 2%Z)] in
  be_u64 (slice (slice f5 0 12) 4 12) = Ok 5%Z
  /\ be_u64 (slice (slice f3 0 12) 4 12) = Ok 3%Z
  /\ yielded (fst r) = [demo_chunk 5; demo_chunk 3]
  /\ snd r = ConnectionClosed.
Proof. vm_compute. repeat split; reflexivity. Qed.

(** ** The handshake tail: associated data *)

Lemma str_of_int_inj (a b : Z) : str_of_int a = str_of_int b -> a = b.
Proof.
  unfold str_of_int, lit. intros H.
  apply (f_equal string_of_list_ascii) in H.
  rewrite !string_of_list_ascii_of_string in H.
  apply (f_equal NilZero.int_of_string) in H.
  assert (Hnz : forall z, Z.to_int z <> Decimal.Pos Decimal.Nil
                          /\ Z.to_int z <> Decimal.Neg Decimal.Nil).
  { intros [|p|p]; split; try discriminate;
      simpl; intros E; injection E as E;
      now apply DecimalPos.Unsigned.to_uint_nonnil in E. }
  rewrite !NilZero.isi in H by apply Hnz.
  injection H as H. now apply DecimalZ.to_int_inj.
Qed.

Lemma string_of_uint_ascii (d : Decimal.uint) :
  Forall is_ascii (list_ascii_of_string (NilEmpty.string_of_uint d)).
Proof.
  induction d; simpl; constructor; try exact IHd; reflexivity.
Qed.

Lemma str_of_int_ascii (z : Z) : Forall is_ascii (str_of_int z).
Proof.
  unfold str_of_int, lit.
  assert (Hu : forall u, Forall is_ascii
                 (list_ascii_of_string (NilZero.string_of_uint u))).
  { intros u. destruct u; try apply string_of_uint_ascii.
    simpl. constructor; [reflexivity|constructor]. }
  destruct (Z.to_int z) as [u|u]; simpl.
  - apply Hu.
  - constructor; [reflexivity|apply Hu].
Qed.

Lemma encode_utf8_app (a b : str) :
  encode_utf8 (a ++ b) = encode_utf8 a ++ encode_utf8 b.
Proof. apply flat_map_app. Qed.

Lemma encode_utf8_ascii (s : str) :
  Forall is_ascii s -> encode_utf8 s = map byte_of_ascii s.
Proof.
  induction 1 as [|c s Hc _ IH]; [reflexivity|].
  simpl. rewrite IH. unfold utf8_char.
  now rewrite (proj2 (N.ltb_lt _ _) Hc).
Qed.

Lemma map_byte_of_ascii_inj (a b : str) :
  map byte_of_ascii a = map byte_of_ascii b -> a = b.
Proof.
  revert b. induction a as [|x a IH]; intros [|y b]; simpl; try discriminate.
  - reflexivity.
  - intros H. injection H as Hxy Hab.
    apply (f_equal ascii_of_byte) in Hxy.
    rewrite !ascii_of_byte_of_ascii in Hxy. subst. f_equal. now apply IH.
Qed.

(** The associated data determines the [exp] it was built from. *)
Lemma build_aad_exp_inj (conn cdc : str) (w h fps e1 e2 : Z) :
  build_aad conn e1 cdc w h fps = build_aad conn e2 cdc w h fps -> e1 = e2.
Proof.
  unfold build_aad. rewrite !encode_utf8_app. intros H.
  apply app_inv_head in H. apply app_inv_head in H.
  rewrite <- !encode_utf8_app in H.
  rewrite (encode_utf8_app (str_of_int e1)), (encode_utf8_app (str_of_int e2)) in H.
  apply app_inv_tail in H.
  rewrite !encode_utf8_ascii in H by apply str_of_int_ascii.
  apply str_of_int_inj, map_byte_of_ascii_inj, H.
Qed.

Lemma check_exp_mismatch (exp_srv exp : Z) :
  exp_srv <> exp -> check_exp exp_srv exp = [EvLog (exp_mismatch_log exp_srv exp)].
Proof.
  intros H. unfold check_exp. now rewrite (proj2 (Z.eqb_neq _ _) H).
Qed.

Lemma derive_session_ok
      (hmac_sha256 : bytes -> bytes -> bytes)
      (digest_size : forall key msg, length (hmac_sha256 key msg) = 32)
      (access_key client_nonce : bytes) (exp : Z) (hl : hello_info) :
  exists key,
    length key = 32
    /\ hkdf_sha256 hmac_sha256 access_key (client_nonce ++ server_nonce hl)
                   hkdf_info 32 = Some (Ok key)
    /\ derive_session hmac_sha256 access_key client_nonce exp hl
       = Some (Ok (Session key
                     (build_aad (conn_b64 hl) exp (codec hl) (w hl) (h hl) (fps hl))
                     (conn_id hl))).
Proof.
  exists (hkdf_spec hmac_sha256 access_key (client_nonce ++ server_nonce hl)
                    hkdf_info 32).
  pose proof (hkdf_spec_length _ digest_size access_key
                (client_nonce ++ server_nonce hl) hkdf_info 32 ltac:(lia)) as Hlen.
  pose proof (hkdf_sha256_in_range _ digest_size access_key
                (client_nonce ++ server_nonce hl) hkdf_info 32 ltac:(lia)) as Hk.
  change (Z.to_nat 32) with 32 in Hlen.
  repeat split; [exact Hlen | exact Hk |].
  unfold derive_session. rewrite Hk. cbn [bind].
  unfold aesgcm_new. rewrite Hlen. reflexivity.
Qed.

(** The demo session is what the client derives in the scenario,
    whatever [exp] the server announces. *)
Lemma derive_demo_session (exp_srv : Z) :
  derive_session Hashlib.hmac_sha256 demo_access_key demo_client_nonce 100
                 (demo_hello exp_srv)
  = Some (Ok demo_session).
Proof. vm_compute. reflexivity. Qed.

(** C1 (as amended).  When the server's hello carries an [exp]
    different from the one the client requested, both variants log the
    mismatch warning and go on: the session key is derived, and the
    associated data is built from the negotiated [conn], [codec],
    [w x h] and [fps] and from the client's own requested [exp]; the
    server's [exp] only appears in the warning and, in [tinycam.py], in
    the [start] message.  The associated data therefore differs from
    the one built with the server's value, and it is what every
    decryption call of the receive loops passes. *)
Theorem aad_built_from_client_exp
        (hmac_sha256 : bytes -> bytes -> bytes)
        (digest_size : forall key msg, length (hmac_sha256 key msg) = 32)
        (aesgcm_decrypt : bytes -> bytes -> bytes -> bytes -> option bytes)
        (Time : Type) (time_add : Time -> Time -> Time)
        (time_gtb : Time -> Time -> bool)
        (access_key client_nonce : bytes) (exp : Z) (hl : hello_info)
        (msgs : list ws_message)
        (first_frame_timeout t0 : Time) (timed_msgs : list (ws_message * Time)) :
  exp_srv hl <> exp ->
  exists key,
    let client_aad :=
      build_aad (conn_b64 hl) exp (codec hl) (w hl) (h hl) (fps hl) in
    let s := Session key client_aad (conn_id hl) in
    hkdf_sha256 hmac_sha256 access_key (client_nonce ++ server_nonce hl)
                hkdf_info 32 = Some (Ok key)
    /\ iter_plain_chunks_setup hmac_sha256 access_key client_nonce exp hl
       = ([EvLog (exp_mismatch_log (exp_srv hl) exp)], Some (Ok s))
    /\ get_chunks_setup hmac_sha256 access_key client_nonce exp hl
       = ([EvLog (exp_mismatch_log (exp_srv hl) exp);
           EvSendStart (conn_b64 hl) (exp_srv hl);
           EvLog (Log INFO (lit "[start] sent") [])],
          Some (Ok s))
    /\ client_aad
       <> build_aad (conn_b64 hl) (exp_srv hl) (codec hl) (w hl) (h hl) (fps hl)
    /\ Forall (decrypts_with client_aad)
              (fst (iter_plain_chunks aesgcm_decrypt s msgs))
    /\ Forall (decrypts_with client_aad)
              (fst (get_chunks aesgcm_decrypt time_add time_gtb s
                               first_frame_timeout t0 timed_msgs)).
Proof.
  intros Hne.
  destruct (derive_session_ok hmac_sha256 digest_size access_key client_nonce exp hl)
    as (key & _ & Hk & Hs).
  exists key. cbn zeta. repeat split.
  - exact Hk.
  - unfold iter_plain_chunks_setup. now rewrite check_exp_mismatch, Hs.
  - unfold get_chunks_setup. now rewrite check_exp_mismatch, Hs.
  - intros H. apply build_aad_exp_inj in H. congruence.
  - exact (iter_plain_chunks_aad aesgcm_decrypt
             (Session key
                (build_aad (conn_b64 hl) exp (codec hl) (w hl) (h hl) (fps hl))
                (conn_id hl)) msgs).
  - exact (get_chunks_aad aesgcm_decrypt Time time_gtb time_add
             (Session key
                (build_aad (conn_b64 hl) exp (codec hl) (w hl) (h hl) (fps hl))
                (conn_id hl))
             first_frame_timeout t0 timed_msgs).
Qed.

Lemma aad_built_from_client_exp_witness :
  exp_srv (demo_hello 200) <> 100%Z
  /\ exists key,
      get_chunks_setup Hashlib.hmac_sha256 demo_access_key demo_client_nonce 100
                       (demo_hello 200)
      = ([EvLog (exp_mismatch_log 200 100);
          EvSendStart (lit "AAAAAA==") 200;
          EvLog (Log INFO (lit "[start] sent") [])],
         Some (Ok (Session key (build_aad (lit "AAAAAA==") 100 (lit "vp9") 1280 720 30)
                           [x00; x00; x00; x00]))).
Proof.
  split; [simpl; lia|].
  destruct (aad_built_from_client_exp Hashlib.hmac_sha256 hmac_sha256_digest_size
              demo_decrypt Z Z.add Z.gtb
              demo_access_key demo_client_nonce 100 (demo_hello 200)
              [] 60%Z 0%Z []
              ltac:(simpl; lia)) as (key & _ & _ & H & _).
  exists key. exact H.
Defined.

(** C1, the claim as stated fails: the client asks for [exp = 100], the
    server's hello says 200; both variants warn and proceed, and the
    associated data reads [...|100|...], not the server-confirmed
    [...|200|...]. *)
Lemma aad_ignores_server_exp :
  let hl := demo_hello 200 in
  let r1 := iter_plain_chunks_setup Hashlib.hmac_sha256 demo_access_key
                                    demo_client_nonce 100 hl in
  let r2 := get_chunks_setup Hashlib.hmac_sha256 demo_access_key
                             demo_client_nonce 100 hl in
  fst r1 = [EvLog (exp_mismatch_log 200 100)]
  /\ snd r1 = Some (Ok demo_session)
  /\ snd r2 = Some (Ok demo_session)
  /\ aad demo_session = map byte_of_ascii (lit "AAAAAA==|100|vp9|1280x720|30")
  /\ aad demo_session
     <> build_aad (conn_b64 hl) (exp_srv hl) (codec hl) (w hl) (h hl) (fps hl)
  /\ build_aad (conn_b64 hl) (exp_srv hl) (codec hl) (w hl) (h hl) (fps hl)
     = map byte_of_ascii (lit "AAAAAA==|200|vp9|1280x720|30").
Proof.
  cbn zeta. unfold iter_plain_chunks_setup, get_chunks_setup.
  cbn [fst snd]. rewrite derive_demo_session.
  repeat split.
  vm_compute. discriminate.
Qed.

(** ** The reconnect loop *)

Lemma main_async_turn_failed (backoff : Z) (a : attempt) :
  failed a = true ->
  waits (fst (main_async_turn backoff a)) = [Z.min backoff 10]
  /\ snd (main_async_turn backoff a) = Next (Z.min (backoff * 2) 10).
Proof.
  unfold failed, main_async_turn. destruct (ending a) as [|e]; [discriminate|].
  intros He. destruct (is_ws_closed e); [now split|].
  rewrite He. now split.
Qed.

Lemma waits_app (a b : list main_event) : waits (a ++ b) = waits a ++ waits b.
Proof.
  induction a as [|[r|n] a IH]; simpl; [reflexivity | exact IH | now rewrite IH].
Qed.

Lemma capped_double (k : nat) :
  (Z.min (Z.min (2 ^ Z.of_nat k) 10 * 2) 10 = Z.min (2 ^ Z.of_nat (S k)) 10)%Z.
Proof.
  rewrite Nat2Z.inj_succ, Z.pow_succ_r by lia.
  pose proof (Z.pow_pos_nonneg 2 (Z.of_nat k) ltac:(lia) ltac:(lia)). lia.
Qed.

(** From [backoff = min(2^k, 10)], failed attempts wait
    [min(2^k, 10)], [min(2^(k+1), 10)], ... *)
Lemma main_async_loop_failed (attempts : list attempt) :
  forallb failed attempts = true ->
  forall k : nat,
    waits (fst (main_async_loop (Z.min (2 ^ Z.of_nat k) 10) attempts))
    = map (fun i => Z.min (2 ^ Z.of_nat i) 10) (seq k (length attempts))
    /\ snd (main_async_loop (Z.min (2 ^ Z.of_nat k) 10) attempts)
       = Next (Z.min (2 ^ Z.of_nat (k + length attempts)) 10).
Proof.
  induction attempts as [|a rest IH]; intros Hall k.
  - simpl. now rewrite Nat.add_0_r.
  - simpl in Hall. apply andb_true_iff in Hall as [Ha Hrest].
    destruct (main_async_turn_failed (Z.min (2 ^ Z.of_nat k) 10) a Ha) as [Hw Hn].
    cbn [main_async_loop].
    destruct (main_async_turn (Z.min (2 ^ Z.of_nat k) 10) a) as [evs r].
    cbn [fst snd] in Hw, Hn. subst r. rewrite capped_double.
    specialize (IH Hrest (S k)).
    destruct (main_async_loop (Z.min (2 ^ Z.of_nat (S k)) 10) rest) as [evs' r'].
    cbn [fst snd] in IH |- *. destruct IH as [IHw IHn]. split.
    + rewrite waits_app, Hw, IHw. cbn [length seq map app].
      f_equal. lia.
    + rewrite IHn. cbn [length]. do 3 f_equal. lia.
Qed.

(** C5 (as amended).  After every attempt that ends with an exception
    the loop waits [backoff] seconds and retries; [backoff] starts at 1,
    doubles after each such attempt and is capped at 10, so the [i]-th
    wait is [min(2^i, 10)] seconds whatever the attempts wrote to the
    file.  [backoff] is set back to 1 only when [stream_to_file] returns
    without raising (the wait is then 1 second and the next value 2),
    which an attempt driven by the receive loop never does: it always
    ends with the exception that ended the loop. *)
Theorem backoff_doubles_until_normal_return (attempts : list attempt) :
  forallb failed attempts = true ->
  waits (fst (main_async attempts))
  = map (fun i => Z.min (2 ^ Z.of_nat i) 10) (seq 0 (length attempts))
  /\ snd (main_async attempts)
     = Next (Z.min (2 ^ Z.of_nat (length attempts)) 10)
  /\ (forall backoff written,
         main_async_turn backoff (Attempt written Returned) = ([Sleep 1], Next 2%Z))
  /\ (forall gen : list event * exn,
         ending (stream_to_file gen) = Raised (snd gen)
         /\ written (stream_to_file gen) = yielded (fst gen)).
Proof.
  intros Hall.
  destruct (main_async_loop_failed attempts Hall 0) as [Hw Hn].
  repeat split.
  - exact Hw.
  - exact Hn.
  - now destruct gen as [evs e].
  - now destruct gen as [evs e].
Qed.

Lemma backoff_doubles_until_normal_return_witness :
  forallb failed
    [attempt_without_frames; attempt_with_one_frame; attempt_without_frames;
     attempt_without_frames; attempt_with_one_frame; attempt_without_frames] = true
  /\ waits (fst (main_async
       [attempt_without_frames; attempt_with_one_frame; attempt_without_frames;
        attempt_without_frames; attempt_with_one_frame; attempt_without_frames]))
     = [1; 2; 4; 8; 10; 10]%Z.
Proof.
  split; [vm_compute; reflexivity|].
  exact (proj1 (backoff_doubles_until_normal_return
                  [attempt_without_frames; attempt_with_one_frame;
                   attempt_without_frames; attempt_without_frames;
                   attempt_with_one_frame; attempt_without_frames]
                  ltac:(vm_compute; reflexivity))).
Defined.

(** C5, the claim as stated fails.  Two attempts fail before any frame,
    the third decrypts one frame and then loses the connection, a
    fourth fails again.  The loop waits 1, 2, 4 and 8 seconds; a reset
    after the third attempt would give a wait of 1 second, either right
    after it or before the fifth attempt. *)
Lemma backoff_not_reset_after_progress :
  let attempts := [attempt_without_frames; attempt_without_frames;
                   attempt_with_one_frame; attempt_without_frames] in
  written attempt_with_one_frame = [demo_chunk 1]
  /\ ending attempt_with_one_frame = Raised ConnectionClosed
  /\ waits (fst (main_async attempts)) = [1; 2; 4; 8]%Z
  /\ policy_waits true 1 attempts = [1; 2; 1; 2]%Z
  /\ policy_waits false 1 attempts = [1; 2; 4; 1]%Z
  /\ forall reset_first,
       waits (fst (main_async attempts)) <> policy_waits reset_first 1 attempts.
Proof.
  vm_compute. repeat split; try reflexivity.
  intros [|]; discriminate.
Qed.

(** ** Base64 *)

(** Induction on a byte string three bytes at a time, the way
    [b64encode] reads it. *)
Lemma bytes_ind3 (P : bytes -> Prop) :
  P [] ->
  (forall x, P [x]) ->
  (forall x y, P [x; y]) ->
  (forall x y z r, P r -> P (x :: y :: z :: r)) ->
  forall b, P b.
Proof.
  intros H0 H1 H2 H3.
  assert (H : forall b, P b /\ (forall x, P (x :: b)) /\ (forall x y, P (x :: y :: b))).
  { induction b as [|z r (IH0 & IH1 & IH2)].
    - repeat split; auto.
    - repeat split; auto. }
  intros b. apply H.
Qed.

Lemma sextets_alphabet :
  forallb (fun n => alphabet_char (b64_char (N.of_nat n))
                    && negb (Ascii.eqb (b64_char (N.of_nat n)) pad_char)
                    && match b64_index (b64_char (N.of_nat n)) with
                       | Some m => N.eqb m (N.of_nat n)
                       | None => false
                       end
                    && (ascii_code (b64_char (N.of_nat n)) <? 128)%N)
          (seq 0 64) = true.
Proof. vm_compute. reflexivity. Qed.

Lemma sextet_facts (n : N) :
  (n < 64)%N ->
  alphabet_char (b64_char n) = true
  /\ Ascii.eqb (b64_char n) pad_char = false
  /\ b64_index (b64_char n) = Some n
  /\ (ascii_code (b64_char n) < 128)%N.
Proof.
  intros Hn. pose proof sextets_alphabet as H.
  rewrite forallb_forall in H.
  specialize (H (N.to_nat n)). rewrite N2Nat.id in H.
  assert (Hin : In (N.to_nat n) (seq 0 64)) by (apply in_seq; lia).
  apply H in Hin.
  apply andb_true_iff in Hin as [Hin H4].
  apply andb_true_iff in Hin as [Hin H3].
  apply andb_true_iff in Hin as [H1 H2].
  repeat split.
  - exact H1.
  - now apply negb_true_iff.
  - destruct (b64_index (b64_char n)) as [m|]; [|discriminate].
    apply N.eqb_eq in H3. now subst.
  - now apply N.ltb_lt.
Qed.

Ltac sextet_bounds :=
  repeat match goal with
         | x : byte |- _ =>
             lazymatch goal with
             | H : (Byte.to_N x <= 255)%N |- _ => fail
             | _ => pose proof (Byte.to_N_bounded x)
             end
         end.

Ltac euclid := Z.to_euclidean_division_equations; lia.

Lemma sextet_ranges (x y z : byte) :
  let n := Byte.to_N x in
  let m := Byte.to_N y in
  let k := Byte.to_N z in
  (n / 4 < 64 /\ (n mod 4) * 16 < 64 /\ (n mod 4) * 16 + m / 16 < 64
   /\ (m mod 16) * 4 < 64 /\ (m mod 16) * 4 + k / 64 < 64 /\ k mod 64 < 64)%N.
Proof.
  cbn zeta. sextet_bounds. repeat split; zify; euclid.
Qed.

(** The shape of a canonical encoding: a multiple of four characters,
    all from the alphabet or [=], with at most two [=]. *)
Lemma b64encode_shape (data : bytes) :
  length (b64encode data) mod 4 = 0
  /\ forallb encoding_char (b64encode data) = true
  /\ count_occ ascii_dec (b64encode data) pad_char <= 2.
Proof.
  induction data as [|x|x y|x y z r (IH1 & IH2 & IH3)] using bytes_ind3.
  - repeat split. simpl. lia.
  - destruct (sextet_ranges x x x) as (H1 & H2 & _).
    destruct (sextet_facts _ H1) as (A1 & B1 & _).
    destruct (sextet_facts _ H2) as (A2 & B2 & _).
    apply Ascii.eqb_neq in B1, B2.
    cbn [b64encode length]. repeat split.
    + cbn [forallb]. unfold encoding_char at 1 2. rewrite A1, A2. reflexivity.
    + cbn [count_occ].
      destruct (ascii_dec _ pad_char); [congruence|].
      destruct (ascii_dec _ pad_char); [congruence|].
      destruct (ascii_dec pad_char pad_char); [|congruence]. lia.
  - destruct (sextet_ranges x y y) as (H1 & _ & H2 & H3 & _).
    destruct (sextet_facts _ H1) as (A1 & B1 & _).
    destruct (sextet_facts _ H2) as (A2 & B2 & _).
    destruct (sextet_facts _ H3) as (A3 & B3 & _).
    apply Ascii.eqb_neq in B1, B2, B3.
    cbn [b64encode length]. repeat split.
    + cbn [forallb]. unfold encoding_char at 1 2 3. rewrite A1, A2, A3. reflexivity.
    + cbn [count_occ].
      destruct (ascii_dec _ pad_char); [congruence|].
      destruct (ascii_dec _ pad_char); [congruence|].
      destruct (ascii_dec _ pad_char); [congruence|].
      destruct (ascii_dec pad_char pad_char); [|congruence]. lia.
  - destruct (sextet_ranges x y z) as (H1 & _ & H2 & _ & H3 & H4).
    destruct (sextet_facts _ H1) as (A1 & B1 & _).
    destruct (sextet_facts _ H2) as (A2 & B2 & _).
    destruct (sextet_facts _ H3) as (A3 & B3 & _).
    destruct (sextet_facts _ H4) as (A4 & B4 & _).
    apply Ascii.eqb_neq in B1, B2, B3, B4.
    cbn [b64encode length]. repeat split.
    + revert IH1. generalize (length (b64encode r)). intros l Hl.
      change (S (S (S (S l)))) with (4 + l).
      rewrite <- Nat.Div0.add_mod_idemp_r, Hl. reflexivity.
    + cbn [forallb]. unfold encoding_char at 1 2 3 4.
      rewrite A1, A2, A3, A4. exact IH2.
    + cbn [count_occ].
      destruct (ascii_dec _ pad_char); [congruence|].
      destruct (ascii_dec _ pad_char); [congruence|].
      destruct (ascii_dec _ pad_char); [congruence|].
      destruct (ascii_dec _ pad_char); [congruence|]. exact IH3.
Qed.

(** ** String primitives *)

Lemma lstrip_spaces (a x : str) :
  forallb isspace a = true -> lstrip (a ++ x) = lstrip x.
Proof.
  induction a as [|c a IH]; simpl; [reflexivity|].
  intros H. apply andb_true_iff in H as [Hc Ha]. rewrite Hc. now apply IH.
Qed.

Lemma lstrip_all_spaces (a : str) : forallb isspace a = true -> lstrip a = [].
Proof.
  intros H. rewrite <- (app_nil_r a). now rewrite lstrip_spaces.
Qed.

Lemma lstrip_stops (c : ascii) (x : str) :
  isspace c = false -> lstrip (c :: x) = c :: x.
Proof. intros H. simpl. now rewrite H. Qed.

Lemma forallb_rev {A : Type} (f : A -> bool) (l : list A) :
  forallb f (rev l) = forallb f l.
Proof.
  induction l as [|x l IH]; [reflexivity|].
  simpl. rewrite forallb_app, IH. simpl. rewrite andb_true_r. apply andb_comm.
Qed.

(** [strip] removes whitespace around a core that neither starts nor
    ends with whitespace. *)
Lemma strip_spec (a m b : str) :
  forallb isspace a = true ->
  forallb isspace b = true ->
  (m = [] \/ exists c0 m0 c1 m1,
      m = c0 :: m0 /\ m = m1 ++ [c1]
      /\ isspace c0 = false /\ isspace c1 = false) ->
  strip (a ++ m ++ b) = m.
Proof.
  intros Ha Hb [->|(c0 & m0 & c1 & m1 & Hhead & Hlast & H0 & H1)].
  - unfold strip. rewrite lstrip_spaces by exact Ha. simpl.
    rewrite lstrip_all_spaces by exact Hb. reflexivity.
  - unfold strip. rewrite lstrip_spaces by exact Ha.
    rewrite Hhead at 1. cbn [app]. rewrite lstrip_stops by exact H0.
    change (c0 :: m0 ++ b) with ((c0 :: m0) ++ b). rewrite <- Hhead.
    unfold rstrip. rewrite rev_app_distr.
    rewrite lstrip_spaces by (now rewrite forallb_rev).
    rewrite Hlast at 1. rewrite rev_app_distr. cbn [rev app].
    rewrite lstrip_stops by exact H1.
    change (c1 :: rev m1) with (rev [c1] ++ rev m1).
    rewrite <- rev_app_distr, <- Hlast. apply rev_involutive.
Qed.

(** A list splits into a prefix and a suffix that satisfy [f] and a
    core that neither starts nor ends with an element satisfying it. *)
Lemma split_front {A : Type} (f : A -> bool) (l : list A) :
  exists a r, l = a ++ r /\ forallb f a = true
              /\ (r = [] \/ exists x r0, r = x :: r0 /\ f x = false).
Proof.
  induction l as [|x l (a & r & -> & Ha & Hr)].
  - exists [], []. repeat split. now left.
  - destruct (f x) eqn:E.
    + exists (x :: a), r. repeat split; [|exact Hr]. simpl. now rewrite E, Ha.
    + exists [], (x :: a ++ r). repeat split. right. eauto.
Qed.

Lemma split_core {A : Type} (f : A -> bool) (l : list A) :
  exists a m b,
    l = a ++ m ++ b /\ forallb f a = true /\ forallb f b = true
    /\ (m = [] \/ exists x m0 y m1,
           m = x :: m0 /\ m = m1 ++ [y] /\ f x = false /\ f y = false).
Proof.
  destruct (split_front f l) as (a & r & -> & Ha & [->|(x & r0 & -> & Hx)]).
  - exists a, [], []. repeat split; auto.
  - destruct (split_front f (rev (x :: r0)))
      as (b' & r' & Hrev & Hb' & [->|(y & r1 & -> & Hy)]).
    + exfalso. rewrite app_nil_r in Hrev. subst b'.
      rewrite forallb_rev in Hb'. simpl in Hb'. now rewrite Hx in Hb'.
    + apply (f_equal (@rev A)) in Hrev.
      rewrite rev_involutive, rev_app_distr in Hrev. cbn [rev] in Hrev.
      exists a, (rev r1 ++ [y]), (rev b'). rewrite <- Hrev.
      repeat split; auto.
      * now rewrite forallb_rev.
      * right. destruct (rev r1) as [|z t] eqn:E.
        -- simpl in Hrev. injection Hrev as -> _.
           exists y, [], y, []. repeat split; auto.
        -- simpl in Hrev. injection Hrev as -> _.
           exists z, (t ++ [y]), y, (z :: t). repeat split; auto.
Qed.

Lemma replace_scan_skip (old new a w : str) :
  replace_scan old new (a ++ w) (length a) = replace_scan old new w 0.
Proof.
  induction a as [|c a IH]; [reflexivity|]. simpl. exact IH.
Qed.

(** Replacing a one-character pattern works character by character. *)
Lemma replace_char (c : ascii) (new s : str) :
  replace [c] new s = flat_map (fun x => if Ascii.eqb c x then new else [x]) s.
Proof.
  unfold replace. induction s as [|x s IH]; [reflexivity|].
  cbn [replace_scan prefixb flat_map length Nat.sub].
  rewrite andb_true_r. destruct (Ascii.eqb c x).
  - now rewrite IH.
  - cbn [app]. now rewrite IH.
Qed.

Section ReplaceEscape.

Variables (old_tail new : str).

Let old : str := backslash :: old_tail.

Lemma replace_scan_plain (a w : str) :
  forallb (fun c => negb (Ascii.eqb backslash c)) a = true ->
  replace_scan old new (a ++ w) 0 = a ++ replace_scan old new w 0.
Proof.
  induction a as [|c a IH]; [reflexivity|].
  intros H. cbn [forallb] in H. apply andb_true_iff in H as [Hc Ha].
  apply negb_true_iff in Hc.
  cbn [app replace_scan]. unfold old at 1. cbn [prefixb]. rewrite Hc.
  cbn [andb]. now rewrite IH.
Qed.

(** An occurrence of the pattern is replaced. *)
Lemma replace_scan_hit (w : str) :
  replace_scan old new (old ++ w) 0 = new ++ replace_scan old new w 0.
Proof.
  assert (Hp : forall p x, prefixb p (p ++ x) = true).
  { induction p as [|c p IH]; intros x; [reflexivity|].
    cbn [app prefixb]. now rewrite Ascii.eqb_refl, IH. }
  unfold old at 2. cbn [app replace_scan].
  change (backslash :: old_tail ++ w) with (old ++ w). rewrite Hp.
  replace (length old - 1) with (length old_tail)
    by (unfold old; cbn [length]; lia).
  now rewrite replace_scan_skip.
Qed.

(** Another escape of the same length is left alone. *)
Lemma replace_scan_miss (other_tail w : str) :
  length other_tail = length old_tail ->
  other_tail <> old_tail ->
  forallb (fun c => negb (Ascii.eqb backslash c)) other_tail = true ->
  replace_scan old new ((backslash :: other_tail) ++ w) 0
  = (backslash :: other_tail) ++ replace_scan old new w 0.
Proof.
  intros Hlen Hne Hplain.
  assert (Hp : forall p q x, length q = length p -> prefixb p (q ++ x) = true -> q = p).
  { induction p as [|c p IH]; intros [|d q] x Hl Hpre; try discriminate; auto.
    cbn [app prefixb] in Hpre. apply andb_true_iff in Hpre as [Hcd Hpq].
    apply Ascii.eqb_eq in Hcd. subst d. f_equal.
    apply (IH q x); [now injection Hl | exact Hpq]. }
  cbn [app replace_scan]. unfold old at 1. cbn [prefixb].
  rewrite Ascii.eqb_refl. cbn [andb].
  destruct (prefixb old_tail (other_tail ++ w)) eqn:E.
  - exfalso. apply Hne. now apply (Hp old_tail other_tail w).
  - now rewrite replace_scan_plain.
Qed.

End ReplaceEscape.

(** ** Normalisation of written encodings *)

Ltac each_char c :=
  destruct c as [[|] [|] [|] [|] [|] [|] [|] [|]].

Lemma embedded_space_isspace (c : ascii) :
  embedded_space c = true -> isspace c = true.
Proof. each_char c; intros H; try reflexivity; discriminate H. Qed.

Lemma piece_ok_plain (p : piece) : piece_ok p = true -> plain_piece p = true.
Proof.
  destruct p as [c|e]; [|reflexivity].
  each_char c; intros H; try reflexivity; discriminate H.
Qed.

Lemma space_piece_facts (p : piece) :
  is_space_piece p = true ->
  forallb isspace (render p) = true /\ reading p = [].
Proof.
  destruct p as [c|e]; [|discriminate]. cbn [is_space_piece render reading forallb].
  intros H. split.
  - now rewrite (embedded_space_isspace c H).
  - unfold standard_char. now rewrite H.
Qed.

(** A piece of an encoding that is not whitespace starts and ends with
    a character that is not whitespace. *)
Lemma piece_edges (p : piece) :
  piece_ok p = true -> is_space_piece p = false ->
  exists c0 m0 c1 m1,
    render p = c0 :: m0 /\ render p = m1 ++ [c1]
    /\ isspace c0 = false /\ isspace c1 = false.
Proof.
  destruct p as [c|e].
  - intros Hok Hsp. exists c, [], c, []. repeat split.
    + revert Hok Hsp. each_char c; intros Hok Hsp; try reflexivity;
        solve [discriminate Hok | discriminate Hsp].
    + revert Hok Hsp. each_char c; intros Hok Hsp; try reflexivity;
        solve [discriminate Hok | discriminate Hsp].
  - intros _ _. exists backslash, (lit (escape_hex e)).
    destruct e;
      [ exists "B"%char, (backslash :: lit "u002")
      | exists "d"%char, (backslash :: lit "u003")
      | exists "D"%char, (backslash :: lit "u003")
      | exists "f"%char, (backslash :: lit "u002")
      | exists "F"%char, (backslash :: lit "u002") ];
      repeat split.
Qed.

Lemma spelling_app (a b : list piece) :
  spelling (a ++ b) = spelling a ++ spelling b.
Proof. apply flat_map_app. Qed.

Lemma canonical_app (a b : list piece) :
  canonical (a ++ b) = canonical a ++ canonical b.
Proof. apply flat_map_app. Qed.

Lemma space_pieces (a : list piece) :
  forallb is_space_piece a = true ->
  forallb isspace (spelling a) = true /\ canonical a = [].
Proof.
  induction a as [|p a IH]; [now split|].
  cbn [forallb]. intros H. apply andb_true_iff in H as [Hp Ha].
  destruct (space_piece_facts p Hp) as [H1 H2].
  destruct (IH Ha) as [H3 H4].
  change (spelling (p :: a)) with (render p ++ spelling a).
  change (canonical (p :: a)) with (reading p ++ canonical a).
  rewrite forallb_app, H1, H2, H3, H4. now split.
Qed.

Lemma pieces_ok_of_canonical (ps : list piece) :
  forallb encoding_char (canonical ps) = true -> forallb piece_ok ps = true.
Proof.
  induction ps as [|p ps IH]; [reflexivity|].
  change (canonical (p :: ps)) with (reading p ++ canonical ps).
  rewrite forallb_app. intros H. apply andb_true_iff in H as [Hp Hps].
  cbn [forallb]. unfold piece_ok at 1. now rewrite Hp, IH.
Qed.

(** [strip] leaves the core of the pieces. *)
Lemma strip_spelling (pre post : str) (ps : list piece) :
  forallb isspace pre = true ->
  forallb isspace post = true ->
  forallb piece_ok ps = true ->
  exists core,
    strip (pre ++ spelling ps ++ post) = spelling core
    /\ canonical core = canonical ps
    /\ forallb piece_ok core = true.
Proof.
  intros Hpre Hpost Hok.
  destruct (split_core is_space_piece ps) as (a & m & b & -> & Ha & Hb & Hm).
  destruct (space_pieces a Ha) as [Ha1 Ha2].
  destruct (space_pieces b Hb) as [Hb1 Hb2].
  rewrite !forallb_app in Hok.
  apply andb_true_iff in Hok as [_ Hok]. apply andb_true_iff in Hok as [Hok _].
  exists m. repeat split.
  - rewrite !spelling_app.
    replace (pre ++ (spelling a ++ spelling m ++ spelling b) ++ post)
      with ((pre ++ spelling a) ++ spelling m ++ (spelling b ++ post))
      by (now rewrite <- !app_assoc).
    apply strip_spec.
    + now rewrite forallb_app, Hpre, Ha1.
    + now rewrite forallb_app, Hpost, Hb1.
    + destruct Hm as [->|(x & m0 & y & m1 & Hhead & Hlast & Hx & Hy)];
        [now left|right].
      assert (Hokx : piece_ok x = true).
      { rewrite Hhead in Hok. cbn [forallb] in Hok.
        now apply andb_true_iff in Hok as [Hokx _]. }
      assert (Hoky : piece_ok y = true).
      { rewrite Hlast, forallb_app in Hok. cbn [forallb] in Hok.
        apply andb_true_iff in Hok as [_ Hoky].
        now apply andb_true_iff in Hoky as [Hoky _]. }
      destruct (piece_edges x Hokx Hx) as (c0 & r0 & _ & _ & Hr0 & _ & Hc0 & _).
      destruct (piece_edges y Hoky Hy) as (_ & _ & c1 & r1 & _ & Hr1 & _ & Hc1).
      exists c0, (r0 ++ spelling m0), c1, (spelling m1 ++ r1). repeat split.
      * rewrite Hhead. change (spelling (x :: m0)) with (render x ++ spelling m0).
        now rewrite Hr0.
      * rewrite Hlast, spelling_app. cbn [spelling flat_map].
        now rewrite app_nil_r, Hr1, app_assoc.
      * exact Hc0.
      * exact Hc1.
  - now rewrite !canonical_app, Ha2, Hb2, app_nil_r.
  - exact Hok.
Qed.

Lemma plain_unescape_one (e : escape) (ps : list piece) :
  forallb plain_piece ps = true ->
  forallb plain_piece (map (unescape_one e) ps) = true.
Proof.
  induction ps as [|p ps IH]; [reflexivity|].
  cbn [forallb map]. intros H. apply andb_true_iff in H as [Hp Hps].
  rewrite (IH Hps), andb_true_r.
  destruct p as [c|e']; [exact Hp|].
  cbn [unescape_one]. destruct (escape_eqb e e'); [|reflexivity].
  now destruct e.
Qed.

(** One [replace] of an escape by its character, on the pieces. *)
Lemma replace_escape (e : escape) (ps : list piece) :
  forallb plain_piece ps = true ->
  replace (escape_text e) [escape_char e] (spelling ps)
  = spelling (map (unescape_one e) ps).
Proof.
  unfold replace, escape_text, json_escape.
  induction ps as [|p ps IH]; [reflexivity|].
  cbn [forallb map]. intros H. apply andb_true_iff in H as [Hp Hps].
  specialize (IH Hps).
  change (spelling (p :: ps)) with (render p ++ spelling ps).
  change (spelling (unescape_one e p :: map (unescape_one e) ps))
    with (render (unescape_one e p) ++ spelling (map (unescape_one e) ps)).
  destruct p as [c|e'].
  - cbn [render unescape_one]. rewrite replace_scan_plain.
    + now rewrite IH.
    + cbn [forallb]. cbn [plain_piece] in Hp. now rewrite Hp.
  - cbn [unescape_one]. destruct (escape_eqb e e') eqn:E.
    + assert (e' = e) as -> by (destruct e, e'; try discriminate; reflexivity).
      cbn [render]. unfold escape_text, json_escape.
      rewrite replace_scan_hit. now rewrite IH.
    + cbn [render]. unfold escape_text, json_escape.
      rewrite replace_scan_miss.
      * now rewrite IH.
      * now destruct e, e'.
      * destruct e, e'; try discriminate E; vm_compute; discriminate.
      * now destruct e'.
Qed.

Lemma unescape_chain (p : piece) :
  unescape_one EscSlashUpper
    (unescape_one EscSlashLower
       (unescape_one EscEqUpper
          (unescape_one EscEqLower (unescape_one EscPlus p))))
  = match p with Chr c => Chr c | Esc e => Chr (escape_char e) end.
Proof. destruct p as [c|[]]; reflexivity. Qed.

Lemma spelling_unescaped (ps : list piece) :
  spelling (map (fun p => match p with
                          | Chr c => Chr c
                          | Esc e => Chr (escape_char e)
                          end) ps)
  = map piece_char ps.
Proof.
  induction ps as [|p ps IH]; [reflexivity|].
  cbn [map]. change (spelling (?x :: ?l)) with (render x ++ spelling l).
  rewrite IH. now destruct p.
Qed.

(** The five [replace] calls on escapes turn every piece into the
    character it stands for. *)
Lemma replace_escapes (ps : list piece) :
  forallb plain_piece ps = true ->
  replace (json_escape "u002F") (lit "/")
    (replace (json_escape "u002f") (lit "/")
       (replace (json_escape "u003D") (lit "=")
          (replace (json_escape "u003d") (lit "=")
             (replace (json_escape "u002B") (lit "+") (spelling ps)))))
  = map piece_char ps.
Proof.
  intros H.
  change (json_escape "u002B") with (escape_text EscPlus).
  change (json_escape "u003d") with (escape_text EscEqLower).
  change (json_escape "u003D") with (escape_text EscEqUpper).
  change (json_escape "u002f") with (escape_text EscSlashLower).
  change (json_escape "u002F") with (escape_text EscSlashUpper).
  change (lit "+") with [escape_char EscPlus].
  change (lit "=") with [escape_char EscEqLower] at 2.
  change (lit "=") with [escape_char EscEqUpper].
  change (lit "/") with [escape_char EscSlashLower] at 2.
  change (lit "/") with [escape_char EscSlashUpper].
  rewrite (replace_escape EscPlus) by exact H.
  apply (plain_unescape_one EscPlus) in H.
  rewrite (replace_escape EscEqLower) by exact H.
  apply (plain_unescape_one EscEqLower) in H.
  rewrite (replace_escape EscEqUpper) by exact H.
  apply (plain_unescape_one EscEqUpper) in H.
  rewrite (replace_escape EscSlashLower) by exact H.
  apply (plain_unescape_one EscSlashLower) in H.
  rewrite (replace_escape EscSlashUpper) by exact H.
  rewrite !map_map.
  rewrite (map_ext _ _ unescape_chain).
  apply spelling_unescaped.
Qed.

Lemma flat_map_flat_map {A B C : Type} (f : B -> list C) (g : A -> list B)
      (l : list A) :
  flat_map f (flat_map g l) = flat_map (fun x => flat_map f (g x)) l.
Proof.
  induction l as [|x l IH]; [reflexivity|].
  cbn [flat_map]. now rewrite flat_map_app, IH.
Qed.

(** The five one-character [replace] calls give the standard reading. *)
Lemma replace_chars (ps : list piece) :
  replace (lit "_") (lit "/")
    (replace (lit "-") (lit "+")
       (replace [char_CR] []
          (replace [char_LF] []
             (replace (lit " ") [] (map piece_char ps)))))
  = canonical ps.
Proof.
  change (lit "_") with ["_"%char]. change (lit "-") with ["-"%char].
  change (lit " ") with [" "%char].
  rewrite !replace_char, !flat_map_flat_map.
  induction ps as [|p ps IH]; [reflexivity|].
  cbn [map flat_map]. rewrite IH.
  change (canonical (p :: ps)) with (reading p ++ canonical ps). f_equal.
  destruct p as [c|e].
  - cbn [piece_char reading]. each_char c; reflexivity.
  - now destruct e.
Qed.

Lemma count_occ_pads (k : nat) :
  count_occ ascii_dec (repeat pad_char k) pad_char = k.
Proof.
  induction k as [|k IH]; [reflexivity|].
  cbn [repeat count_occ]. destruct (ascii_dec pad_char pad_char); congruence.
Qed.

(** Restoring the padding of a canonical encoding that lacks [k] of
    its [=]. *)
Lemma restore_padding (t e : str) (k : nat) :
  t ++ repeat pad_char k = e ->
  length e mod 4 = 0 ->
  k <= 2 ->
  (if length t mod 4 =? 0 then t
   else t ++ repeat pad_char (4 - length t mod 4)) = e.
Proof.
  intros <- Hlen Hk. rewrite length_app, repeat_length in Hlen.
  pose proof (Nat.div_mod_eq (length t + k) 4) as H1.
  pose proof (Nat.div_mod_eq (length t) 4) as H2.
  pose proof (Nat.mod_upper_bound (length t) 4 ltac:(lia)) as H3.
  destruct (length t mod 4 =? 0) eqn:E.
  - apply Nat.eqb_eq in E. assert (k = 0) as -> by lia.
    cbn [repeat]. now rewrite app_nil_r.
  - apply Nat.eqb_neq in E. f_equal. f_equal. lia.
Qed.

(** The normalisation step by step. *)
Lemma normalize_b64_spelling (pre post : str) (ps : list piece) (k : nat)
      (data : bytes) :
  forallb isspace pre = true ->
  forallb isspace post = true ->
  canonical ps ++ repeat pad_char k = b64encode data ->
  normalize_b64 (pre ++ spelling ps ++ post) = b64encode data.
Proof.
  intros Hpre Hpost Heq.
  destruct (b64encode_shape data) as (Hlen & Hchars & Hpads).
  rewrite <- Heq in Hchars, Hpads.
  rewrite forallb_app in Hchars. apply andb_true_iff in Hchars as [Hchars _].
  rewrite count_occ_app, count_occ_pads in Hpads.
  apply pieces_ok_of_canonical in Hchars.
  destruct (strip_spelling pre post ps Hpre Hpost Hchars)
    as (core & Hstrip & Hcanon & Hok).
  assert (Hplain : forallb plain_piece core = true).
  { clear -Hok. induction core as [|p core IH]; [reflexivity|].
    cbn [forallb] in *. apply andb_true_iff in Hok as [Hp Hc].
    now rewrite (piece_ok_plain p Hp), IH. }
  unfold normalize_b64. rewrite Hstrip.
  rewrite (replace_escapes core Hplain), (replace_chars core), Hcanon.
  apply (restore_padding (canonical ps) (b64encode data) k Heq Hlen). lia.
Qed.

(** ** Decoding a canonical encoding *)

Lemma byte_of_to_N (x : byte) : byte_of_N (Byte.to_N x) = x.
Proof.
  unfold byte_of_N. pose proof (Byte.to_N_bounded x).
  rewrite N.mod_small by lia. now rewrite Byte.of_to_N.
Qed.

(** One step of the decoder on a character of the alphabet. *)
Lemma a2b_step_sextet (v : N) (r : str) (quad_pos : nat) (leftchar : N)
      (pads : nat) (out : bytes) :
  (v < 64)%N ->
  a2b_base64_loop (b64_char v :: r) quad_pos leftchar pads out
  = match quad_pos with
    | 0 => a2b_base64_loop r 1 v 0 out
    | 1 => a2b_base64_loop r 2 (v mod 16) 0
             (out ++ [byte_of_N (leftchar * 4 + v / 16)])
    | 2 => a2b_base64_loop r 3 (v mod 4) 0
             (out ++ [byte_of_N (leftchar * 16 + v / 4)])
    | _ => a2b_base64_loop r 0 0 0 (out ++ [byte_of_N (leftchar * 64 + v)])
    end.
Proof.
  intros Hv. destruct (sextet_facts v Hv) as (_ & Hpad & Hidx & _).
  cbn [a2b_base64_loop]. now rewrite Hpad, Hidx.
Qed.

Lemma first_octet (n m : N) :
  (m < 256)%N -> (n / 4 * 4 + (n mod 4 * 16 + m / 16) / 16 = n)%N.
Proof. intros Hm. zify. euclid. Qed.

Lemma second_octet (n m k : N) :
  (m < 256)%N -> (k < 256)%N ->
  ((n mod 4 * 16 + m / 16) mod 16 * 16 + (m mod 16 * 4 + k / 64) / 4 = m)%N.
Proof. intros Hm Hk. zify. euclid. Qed.

Lemma third_octet (m k : N) :
  (k < 256)%N ->
  ((m mod 16 * 4 + k / 64) mod 4 * 64 + k mod 64 = k)%N.
Proof. intros Hk. zify. euclid. Qed.

Lemma a2b_base64_loop_encode (data : bytes) :
  forall out, a2b_base64_loop (b64encode data) 0 0 0 out = Ok (out ++ data).
Proof.
  induction data as [|x|x y|x y z r IH] using bytes_ind3; intros out.
  - cbn. now rewrite app_nil_r.
  - destruct (sextet_ranges x x x) as (H1 & H2 & _).
    cbn [b64encode].
    rewrite (a2b_step_sextet _ _ 0 _ _ _ H1), (a2b_step_sextet _ _ 1 _ _ _ H2).
    cbn [a2b_base64_loop]. rewrite Ascii.eqb_refl. cbn.
    pose proof (first_octet (Byte.to_N x) 0 ltac:(lia)) as E.
    rewrite N.add_0_r in E. rewrite E, byte_of_to_N. reflexivity.
  - destruct (sextet_ranges x y y) as (H1 & _ & H2 & H3 & _).
    pose proof (Byte.to_N_bounded y) as By.
    cbn [b64encode].
    rewrite (a2b_step_sextet _ _ 0 _ _ _ H1), (a2b_step_sextet _ _ 1 _ _ _ H2),
      (a2b_step_sextet _ _ 2 _ _ _ H3).
    cbn [a2b_base64_loop]. rewrite Ascii.eqb_refl. cbn [Nat.leb Nat.add].
    rewrite (first_octet (Byte.to_N x) (Byte.to_N y)) by lia.
    pose proof (second_octet (Byte.to_N x) (Byte.to_N y) 0 ltac:(lia) ltac:(lia)) as E.
    rewrite N.add_0_r in E. rewrite E, !byte_of_to_N, <- app_assoc. reflexivity.
  - destruct (sextet_ranges x y z) as (H1 & _ & H2 & _ & H3 & H4).
    pose proof (Byte.to_N_bounded y) as By.
    pose proof (Byte.to_N_bounded z) as Bz.
    cbn [b64encode].
    rewrite (a2b_step_sextet _ _ 0 _ _ _ H1), (a2b_step_sextet _ _ 1 _ _ _ H2),
      (a2b_step_sextet _ _ 2 _ _ _ H3), (a2b_step_sextet _ _ 3 _ _ _ H4).
    rewrite (first_octet (Byte.to_N x) (Byte.to_N y)) by lia.
    rewrite (second_octet (Byte.to_N x) (Byte.to_N y) (Byte.to_N z)) by lia.
    rewrite third_octet by lia.
    rewrite !byte_of_to_N, IH, <- !app_assoc. reflexivity.
Qed.

Lemma b64encode_ascii (data : bytes) :
  forallb (fun c => (ascii_code c <? 128)%N) (b64encode data) = true.
Proof.
  assert (Hs : forall v, (v < 64)%N -> (ascii_code (b64_char v) <? 128)%N = true).
  { intros v Hv. apply N.ltb_lt. now apply sextet_facts. }
  induction data as [|x|x y|x y z r IH] using bytes_ind3.
  - reflexivity.
  - destruct (sextet_ranges x x x) as (H1 & H2 & _).
    cbn [b64encode forallb]. now rewrite (Hs _ H1), (Hs _ H2).
  - destruct (sextet_ranges x y y) as (H1 & _ & H2 & H3 & _).
    cbn [b64encode forallb]. now rewrite (Hs _ H1), (Hs _ H2), (Hs _ H3).
  - destruct (sextet_ranges x y z) as (H1 & _ & H2 & _ & H3 & H4).
    cbn [b64encode forallb].
    now rewrite (Hs _ H1), (Hs _ H2), (Hs _ H3), (Hs _ H4), IH.
Qed.

(** [base64.b64decode] inverts [base64.b64encode]. *)
Lemma b64decode_b64encode (data : bytes) : b64decode (b64encode data) = Ok data.
Proof.
  unfold b64decode, a2b_base64.
  now rewrite b64encode_ascii, a2b_base64_loop_encode.
Qed.

(** C4 (as amended).  Take the canonical encoding of a byte string
    and write it with any mix of: characters of the URL-safe alphabet
    ([-] for [+], [_] for [/]); the five JSON escapes in place of [+],
    [=] and [/]; spaces, line feeds and carriage returns between its
    characters or escapes; any whitespace before and after; and [k] of
    its trailing [=] left out.  On every such string the normalisation
    gives back the canonical encoding, so [safe_b64decode] returns
    exactly what decoding the canonical encoding returns, namely the
    byte string. *)
Theorem safe_b64decode_spellings (data : bytes) (pre post : str)
        (ps : list piece) (k : nat) :
  forallb isspace pre = true ->
  forallb isspace post = true ->
  canonical ps ++ repeat pad_char k = b64encode data ->
  normalize_b64 (pre ++ spelling ps ++ post) = b64encode data
  /\ safe_b64decode (pre ++ spelling ps ++ post) = b64decode (b64encode data)
  /\ safe_b64decode (pre ++ spelling ps ++ post) = Ok data.
Proof.
  intros Hpre Hpost Heq.
  pose proof (normalize_b64_spelling pre post ps k data Hpre Hpost Heq) as Hn.
  unfold safe_b64decode. rewrite Hn. repeat split.
  apply b64decode_b64encode.
Qed.

Lemma safe_b64decode_spellings_witness :
  forallb isspace demo_pre = true
  /\ forallb isspace demo_post = true
  /\ canonical demo_pieces ++ repeat pad_char 1 = b64encode demo_data
  /\ safe_b64decode (demo_pre ++ spelling demo_pieces ++ demo_post) = Ok demo_data.
Proof.
  split; [reflexivity|]. split; [reflexivity|]. split; [reflexivity|].
  exact (proj2 (proj2 (safe_b64decode_spellings demo_data demo_pre demo_post
                         demo_pieces 1 eq_refl eq_refl eq_refl))).
Defined.

Example safe_b64decode_demo_text :
  spelling demo_pieces
  = lit "-_" ++ json_escape "u002F" ++ json_escape "u002B" ++ lit " Q"
      ++ [char_LF] ++ lit "Q" ++ json_escape "u003d"
  /\ b64encode demo_data = lit "+//+QQ==".
Proof. split; reflexivity. Qed.

(** C4, the claim as stated fails.  The canonical encoding of the byte
    [A] is [QQ==]; written without its padding and with a tab between
    the two characters, it is not decoded: the tab is not among the
    characters the normalisation removes, it counts in the length that
    decides the padding, and the decoder then finds the padding
    incomplete. *)
Lemma safe_b64decode_embedded_tab :
  b64encode [x41] = lit "QQ=="
  /\ b64decode (lit "QQ==") = Ok [x41]
  /\ isspace char_TAB = true
  /\ normalize_b64 (lit "Q" ++ [char_TAB] ++ lit "Q")
     = lit "Q" ++ [char_TAB] ++ lit "Q="
  /\ safe_b64decode (lit "Q" ++ [char_TAB] ++ lit "Q")
     = Raise (BinasciiError (lit "Incorrect padding")).
Proof. repeat split. Qed.


(* ================================================================== *)
(** * Part III: further properties of the code                         *)
(* ================================================================== *)

(** ** Encoding, decoding and signing *)

Lemma encoding_char_standard (c : ascii) :
  encoding_char c = true -> standard_char c = [c].
Proof. each_char c; intros H; try reflexivity; discriminate H. Qed.

Lemma plain_chars (e : str) :
  forallb encoding_char e = true ->
  spelling (map Chr e) = e /\ canonical (map Chr e) = e.
Proof.
  induction e as [|c e IH]; [now split|].
  cbn [forallb map]. intros H. apply andb_true_iff in H as [Hc He].
  destruct (IH He) as [IH1 IH2].
  change (spelling (Chr c :: map Chr e)) with ([c] ++ spelling (map Chr e)).
  change (canonical (Chr c :: map Chr e))
    with (standard_char c ++ canonical (map Chr e)).
  rewrite IH1, IH2, (encoding_char_standard c Hc). now split.
Qed.

Lemma b64encode_length (data : bytes) :
  length (b64encode data) = 4 * ((length data + 2) / 3).
Proof.
  induction data as [|x|x y|x y z r IH] using bytes_ind3; try reflexivity.
  cbn [b64encode length]. rewrite IH.
  replace (S (S (S (length r))) + 2) with (1 * 3 + (length r + 2)) by lia.
  rewrite Nat.div_add_l by lia. lia.
Qed.

Lemma normalize_b64_canonical (data : bytes) :
  normalize_b64 (b64encode data) = b64encode data.
Proof.
  destruct (b64encode_shape data) as (_ & Hchars & _).
  destruct (plain_chars (b64encode data) Hchars) as [Hs Hc].
  pose proof (normalize_b64_spelling [] [] (map Chr (b64encode data)) 0 data
                eq_refl eq_refl) as H.
  cbn [repeat app] in H. rewrite Hs, Hc, !app_nil_r in H. now apply H.
Qed.

(** X1.  What [b64e] writes, [safe_b64decode] reads back: the encoding
    of [n] bytes has [4 * ceil(n / 3)] characters, the normalisation
    leaves it untouched and the decoder returns the bytes. *)
Theorem safe_b64decode_b64e (data : bytes) :
  length (b64e data) = 4 * ((length data + 2) / 3)
  /\ normalize_b64 (b64e data) = b64e data
  /\ safe_b64decode (b64e data) = Ok data.
Proof.
  unfold b64e. repeat split.
  - apply b64encode_length.
  - apply normalize_b64_canonical.
  - unfold safe_b64decode.
    now rewrite normalize_b64_canonical, b64decode_b64encode.
Qed.

Lemma forallb_flat_map {A B : Type} (p : B -> bool) (f : A -> list B)
      (l : list A) :
  (forall x, forallb p (f x) = true) -> forallb p (flat_map f l) = true.
Proof.
  intros H. induction l as [|x l IH]; [reflexivity|].
  cbn [flat_map]. now rewrite forallb_app, H, IH.
Qed.

Lemma forallb_repeat {A : Type} (p : A -> bool) (x : A) (n : nat) :
  p x = true -> forallb p (repeat x n) = true.
Proof.
  intros H. induction n as [|n IH]; [reflexivity|].
  cbn [repeat forallb]. now rewrite H, IH.
Qed.

(** X2.  Whatever the input string, the text that [safe_b64decode]
    hands to the decoder has a length that is a multiple of four and
    holds no space, line feed, carriage return, [-] or [_]. *)
Theorem normalize_b64_wellformed (s : str) :
  length (normalize_b64 s) mod 4 = 0
  /\ forallb (fun c => negb (removed_char c)) (normalize_b64 s) = true.
Proof.
  unfold normalize_b64.
  set (t5 := replace (json_escape "u002F") (lit "/") _).
  change (lit "_") with ["_"%char]. change (lit "-") with ["-"%char].
  change (lit " ") with [" "%char].
  rewrite !replace_char, !flat_map_flat_map.
  set (t := flat_map _ t5).
  assert (Ht : forallb (fun c => negb (removed_char c)) t = true).
  { apply forallb_flat_map. intros x. each_char x; reflexivity. }
  pose proof (Nat.div_mod_eq (length t) 4) as Hd.
  pose proof (Nat.mod_upper_bound (length t) 4 ltac:(lia)) as Hm.
  destruct (length t mod 4 =? 0) eqn:E.
  - apply Nat.eqb_eq in E. now split.
  - apply Nat.eqb_neq in E. split.
    + rewrite length_app, repeat_length.
      replace (length t + (4 - length t mod 4))
        with ((length t / 4 + 1) * 4) by lia.
      apply Nat.Div0.mod_mul.
    + rewrite forallb_app, Ht. now rewrite forallb_repeat.
Qed.

(** X3.  The signature does not depend on how the key is written: for
    every spelling of the key's encoding that [safe_b64decode] accepts
    (URL-safe characters, escapes, whitespace, missing padding),
    [hmac_b64] returns the encoded HMAC of the UTF-8 message under the
    decoded key. *)
Theorem hmac_b64_key_spelling
        (hmac_sha256 : bytes -> bytes -> bytes)
        (message : str) (key : bytes) (pre post : str)
        (ps : list piece) (k : nat) :
  forallb isspace pre = true ->
  forallb isspace post = true ->
  canonical ps ++ repeat pad_char k = b64encode key ->
  hmac_b64 hmac_sha256 message (pre ++ spelling ps ++ post)
  = Ok (b64e (hmac_sha256 key (encode_utf8 message)))
  /\ hmac_b64 hmac_sha256 message (pre ++ spelling ps ++ post)
     = hmac_b64 hmac_sha256 message (b64e key).
Proof.
  intros Hpre Hpost Heq.
  assert (H1 : safe_b64decode (pre ++ spelling ps ++ post) = Ok key).
  { unfold safe_b64decode.
    rewrite (normalize_b64_spelling pre post ps k key Hpre Hpost Heq).
    apply b64decode_b64encode. }
  assert (H2 : safe_b64decode (b64e key) = Ok key).
  { unfold safe_b64decode, b64e.
    now rewrite normalize_b64_canonical, b64decode_b64encode. }
  unfold hmac_b64. rewrite H1, H2. now split.
Qed.

Lemma hmac_b64_key_spelling_witness :
  forallb isspace demo_pre = true
  /\ forallb isspace demo_post = true
  /\ canonical demo_pieces ++ repeat pad_char 1 = b64encode demo_data
  /\ hmac_b64 Hashlib.hmac_sha256 (lit "stream:100")
              (demo_pre ++ spelling demo_pieces ++ demo_post)
     = Ok (b64e (Hashlib.hmac_sha256 demo_data (encode_utf8 (lit "stream:100")))).
Proof.
  split; [reflexivity|]. split; [reflexivity|]. split; [reflexivity|].
  exact (proj1 (hmac_b64_key_spelling Hashlib.hmac_sha256 (lit "stream:100")
                  demo_data demo_pre demo_post demo_pieces 1
                  eq_refl eq_refl eq_refl)).
Defined.

(** X4.  When the key decodes, [hmac_b64] returns a signature of 44
    characters that [safe_b64decode] turns back into the 32 bytes of
    the HMAC; when the key does not decode, [hmac_b64] raises the
    decoder's exception and nothing is signed. *)
Theorem hmac_b64_signature
        (hmac_sha256 : bytes -> bytes -> bytes)
        (digest_size : forall key msg, length (hmac_sha256 key msg) = 32)
        (message key_b64 : str) :
  match safe_b64decode key_b64 with
  | Ok key =>
      exists sig,
        hmac_b64 hmac_sha256 message key_b64 = Ok sig
        /\ length sig = 44
        /\ safe_b64decode sig = Ok (hmac_sha256 key (encode_utf8 message))
  | Raise e => hmac_b64 hmac_sha256 message key_b64 = Raise e
  end.
Proof.
  unfold hmac_b64. destruct (safe_b64decode key_b64) as [key|e]; [|reflexivity].
  cbn [bind]. eexists. split; [reflexivity|].
  unfold b64e. rewrite b64encode_length, digest_size. split; [reflexivity|].
  unfold safe_b64decode.
  now rewrite normalize_b64_canonical, b64decode_b64encode.
Qed.

Lemma hmac_b64_signature_witness :
  exists sig,
    hmac_b64 Hashlib.hmac_sha256 (lit "stream:100") (lit "QQ==") = Ok sig
    /\ length sig = 44
    /\ safe_b64decode sig
       = Ok (Hashlib.hmac_sha256 [x41] (encode_utf8 (lit "stream:100"))).
Proof.
  exact (hmac_b64_signature Hashlib.hmac_sha256 hmac_sha256_digest_size
           (lit "stream:100") (lit "QQ==")).
Defined.

(** ** Frames *)

Lemma be_value_snoc (b : bytes) (x : byte) :
  be_value (b ++ [x]) = (be_value b * 256 + Z.of_N (Byte.to_N x))%Z.
Proof. unfold be_value. now rewrite fold_left_app. Qed.

Lemma be_value_range (b : bytes) :
  (0 <= be_value b < 256 ^ Z.of_nat (length b))%Z.
Proof.
  induction b as [|x b IH] using rev_ind; [cbn; lia|].
  rewrite be_value_snoc, length_app. cbn [length].
  replace (Z.of_nat (length b + 1)) with (Z.succ (Z.of_nat (length b))) by lia.
  rewrite Z.pow_succ_r by lia.
  pose proof (Byte.to_N_bounded x). lia.
Qed.

Lemma be_value_inj (a : bytes) :
  forall b, length a = length b -> be_value a = be_value b -> a = b.
Proof.
  induction a as [|x a IH] using rev_ind; intros b Hlen Hval.
  - destruct b; [reflexivity|discriminate].
  - destruct b as [|y b _] using rev_ind.
    + rewrite length_app in Hlen. simpl in Hlen. lia.
    + rewrite !length_app in Hlen. cbn [length] in Hlen.
      rewrite !be_value_snoc in Hval.
      pose proof (Byte.to_N_bounded x). pose proof (Byte.to_N_bounded y).
      assert (Hab : be_value a = be_value b) by lia.
      assert (Hxy : Byte.to_N x = Byte.to_N y) by lia.
      rewrite (IH b ltac:(lia) Hab). f_equal. f_equal.
      apply (f_equal Byte.of_N) in Hxy. rewrite !Byte.of_to_N in Hxy.
      now injection Hxy.
Qed.

(** X5.  On eight bytes [be_u64] returns a number below [2^64], and
    two different eight-byte strings never give the same number; on any
    other length it raises [struct.error]. *)
Theorem be_u64_eight_bytes (a b c : bytes) :
  length a = 8 -> length b = 8 -> length c <> 8 ->
  exists va vb,
    be_u64 a = Ok va /\ be_u64 b = Ok vb
    /\ (0 <= va < 2 ^ 64)%Z
    /\ (va = vb -> a = b)
    /\ be_u64 c = Raise (StructError (lit "unpack requires a buffer of 8 bytes")).
Proof.
  intros Ha Hb Hc. exists (be_value a), (be_value b). unfold be_u64.
  rewrite Ha, Hb, (proj2 (Nat.eqb_neq _ _) Hc). repeat split.
  - apply be_value_range.
  - pose proof (be_value_range a) as H. rewrite Ha in H. apply H.
  - intros H. apply be_value_inj; congruence.
Qed.

Lemma be_u64_eight_bytes_witness :
  exists va vb,
    be_u64 (u64_be 5) = Ok va /\ be_u64 (u64_be 6) = Ok vb
    /\ (0 <= va < 2 ^ 64)%Z
    /\ (va = vb -> u64_be 5 = u64_be 6)
    /\ be_u64 [x00; x01]
       = Raise (StructError (lit "unpack requires a buffer of 8 bytes")).
Proof.
  exact (be_u64_eight_bytes (u64_be 5) (u64_be 6) [x00; x01]
           eq_refl eq_refl ltac:(discriminate)).
Defined.

(** X6.  Splitting a frame of at least 28 bytes loses nothing: nonce,
    tag and ciphertext have 12, 16 and the remaining bytes and put
    together in that order give the frame back; the data handed to the
    decryption is the ciphertext followed by the tag. *)
Theorem frame_split_lossless (buf : bytes) :
  28 <= length buf ->
  let nonce := slice buf 0 12 in
  let tag := slice buf 12 28 in
  let ct := slice_from buf 28 in
  nonce ++ tag ++ ct = buf
  /\ length nonce = 12 /\ length tag = 16 /\ length ct = length buf - 28
  /\ slice nonce 0 4 ++ slice nonce 4 12 = nonce
  /\ firstn (length ct) (join_ct_tag ct tag) = ct
  /\ skipn (length ct) (join_ct_tag ct tag) = tag.
Proof.
  intros Hlen. cbn zeta. unfold slice, slice_from, join_ct_tag.
  change (skipn 0 buf) with buf.
  change (skipn 0 (firstn (12 - 0) buf)) with (firstn (12 - 0) buf).
  change (12 - 0) with 12. change (28 - 12) with 16.
  change (4 - 0) with 4. change (12 - 4) with 8.
  repeat split.
  - replace (skipn 28 buf) with (skipn 16 (skipn 12 buf))
      by now rewrite skipn_skipn.
    now rewrite (firstn_skipn 16), (firstn_skipn 12).
  - rewrite length_firstn. lia.
  - rewrite length_firstn, length_skipn. lia.
  - now rewrite length_skipn.
  - rewrite <- (firstn_skipn 4 (firstn 12 buf)) at 3. f_equal.
    rewrite firstn_all2; [reflexivity|].
    rewrite length_skipn, length_firstn. lia.
  - rewrite firstn_app, Nat.sub_diag, firstn_all. cbn [firstn].
    now rewrite app_nil_r.
  - rewrite skipn_app, Nat.sub_diag, skipn_all. reflexivity.
Qed.

Lemma frame_split_lossless_witness :
  28 <= length (demo_frame demo_session demo_conn 5 (demo_chunk 5))
  /\ slice (demo_frame demo_session demo_conn 5 (demo_chunk 5)) 0 12
       ++ slice (demo_frame demo_session demo_conn 5 (demo_chunk 5)) 12 28
       ++ slice_from (demo_frame demo_session demo_conn 5 (demo_chunk 5)) 28
     = demo_frame demo_session demo_conn 5 (demo_chunk 5).
Proof.
  split; [vm_compute; lia|].
  exact (proj1 (frame_split_lossless
                  (demo_frame demo_session demo_conn 5 (demo_chunk 5))
                  ltac:(vm_compute; lia))).
Defined.

(** ** Sessions *)

Section MoreSessionFacts.

Variable aesgcm_decrypt : bytes -> bytes -> bytes -> bytes -> option bytes.
Variable Time : Type.
Variable time_gtb : Time -> Time -> bool.

Lemma decrypt_frame_none (s : session) (nonce tag ct : bytes) :
  aesgcm_decrypt (session_key s) nonce (join_ct_tag ct tag) (aad s) = None ->
  decrypt_frame aesgcm_decrypt s nonce tag ct
  = ([EvDecrypt nonce (join_ct_tag ct tag) (aad s);
      EvLog (Log ERROR (lit "decrypt error: %s") [ArgExn InvalidTag])],
     Raise InvalidTag).
Proof. intros H. unfold decrypt_frame. now rewrite H. Qed.

Lemma iter_step_decrypt_fail (s : session) (last_counter : Z) (buf : bytes) :
  28 <= length buf ->
  slice (slice buf 0 12) 0 4 = session_conn_id s ->
  (last_counter < be_value (slice (slice buf 0 12) 4 12))%Z ->
  aesgcm_decrypt (session_key s) (slice buf 0 12)
                 (join_ct_tag (slice_from buf 28) (slice buf 12 28)) (aad s)
  = None ->
  iter_plain_chunks_step aesgcm_decrypt s last_counter (BinaryMsg buf)
  = ([EvDecrypt (slice buf 0 12)
                (join_ct_tag (slice_from buf 28) (slice buf 12 28)) (aad s);
      EvLog (Log ERROR (lit "decrypt error: %s") [ArgExn InvalidTag])],
     Stop InvalidTag).
Proof.
  intros Hlen Hconn Hctr Hdec. unfold iter_plain_chunks_step.
  rewrite (short_test buf Hlen).
  rewrite (proj2 (bytes_eqb_eq _ _) Hconn). cbn [negb].
  rewrite (frame_counter_ok buf Hlen).
  rewrite (proj2 (Z.leb_gt _ _) Hctr).
  now rewrite (decrypt_frame_none s _ _ _ Hdec).
Qed.

Lemma get_step_decrypt_fail (s : session) (deadline now : Time)
      (st : rx_state Time) (buf : bytes) :
  28 <= length buf ->
  slice (slice buf 0 12) 0 4 = session_conn_id s ->
  aesgcm_decrypt (session_key s) (slice buf 0 12)
                 (join_ct_tag (slice_from buf 28) (slice buf 12 28)) (aad s)
  = None ->
  get_chunks_step aesgcm_decrypt time_gtb s deadline st (BinaryMsg buf, now)
  = ([EvDecrypt (slice buf 0 12)
                (join_ct_tag (slice_from buf 28) (slice buf 12 28)) (aad s);
      EvLog (Log ERROR (lit "decrypt error: %s") [ArgExn InvalidTag])],
     Stop InvalidTag).
Proof.
  intros Hlen Hconn Hdec. unfold get_chunks_step.
  rewrite (short_test buf Hlen).
  rewrite (proj2 (bytes_eqb_eq _ _) Hconn). cbn [negb].
  rewrite (frame_counter_ok buf Hlen).
  now rewrite (decrypt_frame_none s _ _ _ Hdec).
Qed.

(** What a step of [iter_plain_chunks] hands to the decryption: nothing,
    or one nonce whose counter is above the last one; the loop goes on
    with that counter or stops. *)
Lemma iter_step_nonces (s : session) (last_counter : Z) (msg : ws_message)
      evs r :
  iter_plain_chunks_step aesgcm_decrypt s last_counter msg = (evs, r) ->
  (decrypt_nonces evs = []
   /\ (r = Next last_counter \/ exists e, r = Stop e))
  \/ (exists nonce,
        decrypt_nonces evs = [nonce]
        /\ (last_counter < nonce_counter nonce)%Z
        /\ (r = Next (nonce_counter nonce) \/ exists e, r = Stop e)).
Proof.
  unfold iter_plain_chunks_step. destruct msg as [txt|buf].
  - intros H. injection H as <- <-. left. split; [reflexivity|now left].
  - destruct (length buf <? 28) eqn:Elen.
    + intros H. injection H as <- <-. left. split; [reflexivity|now left].
    + apply Nat.ltb_ge in Elen.
      destruct (negb _).
      * intros H. injection H as <- <-. left. split; [reflexivity|right; eauto].
      * rewrite (frame_counter_ok buf Elen).
        destruct (_ <=? last_counter)%Z eqn:Ek.
        -- intros H. injection H as <- <-. left.
           split; [reflexivity|right; eauto].
        -- apply Z.leb_gt in Ek.
           destruct (decrypt_frame_cases aesgcm_decrypt s (slice buf 0 12)
                       (slice buf 12 28) (slice_from buf 28))
             as [(plain & _ & ->)|(_ & ->)];
             intros H; injection H as <- <-; right;
             exists (slice buf 0 12); (split; [reflexivity|]);
             (split; [exact Ek|]); [now left | right; eauto].
Qed.

Lemma iter_run_nonces (s : session) (msgs : list ws_message) :
  forall last_counter,
    StronglySorted Z.lt
      (last_counter
         :: map nonce_counter
              (decrypt_nonces (fst (run_loop (iter_plain_chunks_step aesgcm_decrypt s) last_counter msgs)))).
Proof.
  assert (Hn : forall a b, decrypt_nonces (a ++ b)
                           = decrypt_nonces a ++ decrypt_nonces b).
  { induction a as [|[] a IH]; intros b; cbn; rewrite ?IH; reflexivity. }
  assert (Hlow : forall l a b, (a <= b)%Z ->
                   StronglySorted Z.lt (b :: l) -> StronglySorted Z.lt (a :: l)).
  { intros l a b Hab H. inversion H as [|x y Hs Hf]; subst.
    constructor; [exact Hs|]. revert Hf. apply Forall_impl. intros c. lia. }
  induction msgs as [|m rest IH]; intros last_counter.
  - cbn. repeat constructor.
  - cbn [run_loop].
    destruct (iter_plain_chunks_step aesgcm_decrypt s last_counter m) as [evs r] eqn:E.
    apply iter_step_nonces in E
      as [(Hevs & Hr)|(nonce & Hevs & Hlt & Hr)].
    + destruct Hr as [->|(e & ->)].
      * specialize (IH last_counter).
        destruct (run_loop (iter_plain_chunks_step aesgcm_decrypt s) last_counter rest) as [evs' e'].
        cbn [fst] in *. now rewrite Hn, Hevs.
      * cbn [fst]. rewrite Hevs. repeat constructor.
    + destruct Hr as [->|(e & ->)].
      * specialize (IH (nonce_counter nonce)).
        destruct (run_loop (iter_plain_chunks_step aesgcm_decrypt s) (nonce_counter nonce) rest) as [evs' e'].
        cbn [fst] in *. rewrite Hn, Hevs. cbn [app map].
        constructor; [exact IH|].
        constructor; [exact Hlt|].
        inversion IH as [|x y Hs Hf]; subst.
        revert Hf. apply Forall_impl. intros c. lia.
      * cbn [fst]. rewrite Hevs. cbn [map].
        repeat constructor. exact Hlt.
Qed.

End MoreSessionFacts.

Lemma sorted_map_NoDup {A : Type} (f : A -> Z) (l : list A) :
  StronglySorted Z.lt (map f l) -> NoDup l.
Proof.
  induction l as [|x l IH]; intros H; [constructor|].
  cbn [map] in H. inversion H as [|y m Hs Hf]; subst.
  constructor; [|now apply IH].
  intros Hin. rewrite Forall_forall in Hf.
  specialize (Hf (f x) (in_map f l x Hin)). lia.
Qed.

(** X7.  A frame that passes the connection-id test (and, in
    [iter_plain_chunks], the counter test) and fails to decrypt ends
    the session with the decryption's exception, in both variants: the
    error is logged, nothing is yielded and the messages that follow
    are not looked at. *)
Theorem decrypt_failure_is_fatal
        (aesgcm_decrypt : bytes -> bytes -> bytes -> bytes -> option bytes)
        (Time : Type) (time_gtb : Time -> Time -> bool)
        (s : session) (buf : bytes)
        (last_counter : Z) (rest : list ws_message)
        (deadline now : Time) (st : rx_state Time)
        (rest' : list (ws_message * Time)) :
  28 <= length buf ->
  slice (slice buf 0 12) 0 4 = session_conn_id s ->
  (last_counter < be_value (slice (slice buf 0 12) 4 12))%Z ->
  aesgcm_decrypt (session_key s) (slice buf 0 12)
                 (join_ct_tag (slice_from buf 28) (slice buf 12 28)) (aad s)
  = None ->
  let failure :=
    ([EvDecrypt (slice buf 0 12)
                (join_ct_tag (slice_from buf 28) (slice buf 12 28)) (aad s);
      EvLog (Log ERROR (lit "decrypt error: %s") [ArgExn InvalidTag])],
     InvalidTag) in
  run_loop (iter_plain_chunks_step aesgcm_decrypt s) last_counter
           (BinaryMsg buf :: rest) = failure
  /\ run_loop (get_chunks_step aesgcm_decrypt time_gtb s deadline) st
              ((BinaryMsg buf, now) :: rest') = failure
  /\ yielded (fst failure) = [].
Proof.
  intros Hlen Hconn Hctr Hdec. cbn zeta. repeat split.
  - apply run_loop_stop. now apply iter_step_decrypt_fail.
  - apply run_loop_stop. now apply get_step_decrypt_fail.
Qed.

Lemma decrypt_failure_is_fatal_witness :
  28 <= length tampered_frame
  /\ snd (run_loop (iter_plain_chunks_step demo_decrypt demo_session) 0%Z
                   [BinaryMsg tampered_frame;
                    BinaryMsg (demo_frame demo_session demo_conn 2 (demo_chunk 2))])
     = InvalidTag
  /\ snd (run_loop (get_chunks_step demo_decrypt Z.gtb demo_session 60%Z)
                   (RxState 0%Z false)
                   [(BinaryMsg tampered_frame, 1%Z);
                    (BinaryMsg (demo_frame demo_session demo_conn 2 (demo_chunk 2)),
                     2%Z)])
     = InvalidTag.
Proof.
  split; [vm_compute; lia|].
  destruct (decrypt_failure_is_fatal demo_decrypt Z Z.gtb demo_session
              tampered_frame 0%Z
              [BinaryMsg (demo_frame demo_session demo_conn 2 (demo_chunk 2))]
              60%Z 1%Z (RxState 0%Z false)
              [(BinaryMsg (demo_frame demo_session demo_conn 2 (demo_chunk 2)),
                2%Z)]
              ltac:(vm_compute; lia)
              ltac:(vm_compute; reflexivity)
              ltac:(vm_compute; reflexivity)
              ltac:(vm_compute; reflexivity)) as (Hi & Hg & _).
  rewrite Hi, Hg. split; reflexivity.
Defined.

(** X8.  Within one session of [iter_plain_chunks] the counters of the
    nonces handed to the decryption are positive and strictly
    increasing, so no nonce is used twice with the session key. *)
Theorem iter_plain_chunks_nonces_fresh
        (aesgcm_decrypt : bytes -> bytes -> bytes -> bytes -> option bytes)
        (s : session) (msgs : list ws_message) :
  let nonces := decrypt_nonces (fst (iter_plain_chunks aesgcm_decrypt s msgs)) in
  StronglySorted Z.lt (map nonce_counter nonces)
  /\ Forall (fun nonce => (1 <= nonce_counter nonce)%Z) nonces
  /\ NoDup nonces.
Proof.
  cbn zeta. unfold iter_plain_chunks.
  pose proof (iter_run_nonces aesgcm_decrypt s msgs 0%Z) as H.
  inversion H as [|x l Hs Hf]; subst. repeat split.
  - exact Hs.
  - rewrite Forall_map in Hf. revert Hf. apply Forall_impl. intros c. lia.
  - exact (sorted_map_NoDup nonce_counter _ Hs).
Qed.

Lemma yielded_app (a b : list event) : yielded (a ++ b) = yielded a ++ yielded b.
Proof.
  induction a as [|[] a IH]; cbn; rewrite ?IH; reflexivity.
Qed.

Lemma counter_error_head (counter last_counter : Z) :
  exists msg, counter_error counter last_counter
              = RuntimeError ("c"%char :: msg).
Proof. eexists. reflexivity. Qed.

Lemma mismatch_not_counter_error :
  ~ is_counter_error (RuntimeError (lit "nonce connId mismatch")).
Proof.
  intros (c & l & H). destruct (counter_error_head c l) as [msg Hm].
  rewrite Hm in H. discriminate H.
Qed.

Lemma other_not_counter_error (e : exn) :
  e = InvalidTag \/ e = ConnectionClosed
  \/ e = StructError (lit "unpack requires a buffer of 8 bytes") ->
  ~ is_counter_error e.
Proof.
  intros [->|[->| ->]] (c & l & H);
    destruct (counter_error_head c l) as [msg Hm]; rewrite Hm in H;
    discriminate H.
Qed.

Section VariantFacts.

Variable aesgcm_decrypt : bytes -> bytes -> bytes -> bytes -> option bytes.
Variable Time : Type.
Variable time_gtb : Time -> Time -> bool.

(** A text message or a short binary message only logs. *)
Lemma iter_step_not_frame (s : session) (st : Z) (m : ws_message) :
  is_frame m = false ->
  exists r, iter_plain_chunks_step aesgcm_decrypt s st m = ([EvLog r], Next st).
Proof.
  unfold is_frame, iter_plain_chunks_step. destruct m as [txt|buf].
  - intros _. eexists. reflexivity.
  - intros H. apply Nat.leb_gt in H.
    rewrite (proj2 (Nat.ltb_lt _ _) H). eexists. reflexivity.
Qed.

Lemma iter_run_frames_only (s : session) (msgs : list ws_message) :
  forall st,
    yielded (fst (run_loop (iter_plain_chunks_step aesgcm_decrypt s) st msgs))
    = yielded (fst (run_loop (iter_plain_chunks_step aesgcm_decrypt s) st
                             (filter is_frame msgs)))
    /\ snd (run_loop (iter_plain_chunks_step aesgcm_decrypt s) st msgs)
       = snd (run_loop (iter_plain_chunks_step aesgcm_decrypt s) st
                       (filter is_frame msgs)).
Proof.
  induction msgs as [|m rest IH]; intros st; [now split|].
  cbn [filter]. destruct (is_frame m) eqn:E.
  - cbn [run_loop].
    destruct (iter_plain_chunks_step aesgcm_decrypt s st m) as [evs [st'|e]];
      [|now split].
    destruct (IH st') as [IH1 IH2].
    destruct (run_loop _ st' rest) as [e1 x1].
    destruct (run_loop _ st' (filter is_frame rest)) as [e2 x2].
    cbn [fst snd] in *. rewrite !yielded_app, IH1, IH2. now split.
  - destruct (iter_step_not_frame s st m E) as [r Hr].
    cbn [run_loop]. rewrite Hr.
    destruct (IH st) as [IH1 IH2].
    destruct (run_loop _ st rest) as [e1 x1]. cbn [fst snd] in *.
    now split.
Qed.

(** One message in both variants: [iter_plain_chunks] stops on the
    counter, or both do the same. *)
Lemma steps_agree (s : session) (last_counter : Z) (deadline now : Time)
      (st : rx_state Time) (msg : ws_message) :
  (exists e, is_counter_error e
             /\ iter_plain_chunks_step aesgcm_decrypt s last_counter msg
                = ([], Stop e))
  \/ (exists evs e,
         ~ is_counter_error e
         /\ iter_plain_chunks_step aesgcm_decrypt s last_counter msg
            = (evs, Stop e)
         /\ get_chunks_step aesgcm_decrypt time_gtb s deadline st (msg, now)
            = (evs, Stop e))
  \/ (exists evs last_counter' st',
         iter_plain_chunks_step aesgcm_decrypt s last_counter msg
         = (evs, Next last_counter')
         /\ get_chunks_step aesgcm_decrypt time_gtb s deadline st (msg, now)
            = (evs, Next st')).
Proof.
  unfold iter_plain_chunks_step, get_chunks_step. destruct msg as [txt|buf].
  - right. right. do 3 eexists. split; reflexivity.
  - destruct (length buf <? 28).
    + right. right. do 3 eexists. split; reflexivity.
    + destruct (negb _).
      * right. left. do 2 eexists.
        split; [exact mismatch_not_counter_error|split; reflexivity].
      * unfold be_u64. destruct (length _ =? 8).
        -- destruct (_ <=? last_counter)%Z.
           ++ left. eexists. split; [|reflexivity].
              do 2 eexists. reflexivity.
           ++ destruct (decrypt_frame_cases aesgcm_decrypt s (slice buf 0 12)
                          (slice buf 12 28) (slice_from buf 28))
                as [(plain & _ & ->)|(_ & ->)].
              ** right. right. cbn. destruct (first_bin_seen st); cbn;
                   do 3 eexists; split; reflexivity.
              ** right. left. do 2 eexists.
                 split; [apply other_not_counter_error; now left|].
                 split; reflexivity.
        -- right. left. do 2 eexists.
           split; [apply other_not_counter_error; now right; right|].
           split; reflexivity.
Qed.

Lemma runs_agree (s : session) (deadline : Time)
      (msgs : list (ws_message * Time)) :
  forall last_counter st,
    let ri := run_loop (iter_plain_chunks_step aesgcm_decrypt s) last_counter
                       (map fst msgs) in
    let rg := run_loop (get_chunks_step aesgcm_decrypt time_gtb s deadline) st
                       msgs in
    (exists more, yielded (fst rg) = yielded (fst ri) ++ more)
    /\ (~ is_counter_error (snd ri) -> rg = ri).
Proof.
  induction msgs as [|[msg now] rest IH]; intros last_counter st; cbn zeta.
  - split; [exists []; reflexivity | reflexivity].
  - cbn [map fst run_loop].
    destruct (steps_agree s last_counter deadline now st msg)
      as [(e & He & ->)
         |[(evs & e & He & -> & ->)|(evs & l' & st' & -> & ->)]].
    + cbn [fst snd]. split; [eexists; reflexivity | now intros H].
    + cbn [fst snd]. split; [exists []; now rewrite app_nil_r | reflexivity].
    + destruct (IH l' st') as [(more & Hm) Heq]. cbn zeta in *.
      destruct (run_loop _ l' (map fst rest)) as [e1 x1].
      destruct (run_loop _ st' rest) as [e2 x2]. cbn [fst snd] in *.
      split.
      * exists more. now rewrite !yielded_app, Hm, app_assoc.
      * intros H. specialize (Heq H). injection Heq as -> ->. reflexivity.
Qed.

End VariantFacts.

(** X9.  In [iter_plain_chunks] text messages and binary messages
    shorter than 28 bytes are transparent: taking them out of the
    sequence of messages changes neither the chunks yielded nor the
    exception that ends the session.  (In [get_chunks] such messages
    refresh [last_rx_ts], which the watchdog reads, so nothing of the
    kind is stated there.) *)
Theorem only_frames_matter
        (aesgcm_decrypt : bytes -> bytes -> bytes -> bytes -> option bytes)
        (s : session) (msgs : list ws_message) :
  let r := iter_plain_chunks aesgcm_decrypt s msgs in
  let r' := iter_plain_chunks aesgcm_decrypt s (filter is_frame msgs) in
  yielded (fst r) = yielded (fst r') /\ snd r = snd r'.
Proof.
  cbn zeta. unfold iter_plain_chunks.
  exact (iter_run_frames_only aesgcm_decrypt s msgs 0%Z).
Qed.

(** X10.  On the same messages [get_chunks] yields everything that
    [iter_plain_chunks] yields, in the same order, and possibly more. *)
Theorem get_chunks_yields_at_least
        (aesgcm_decrypt : bytes -> bytes -> bytes -> bytes -> option bytes)
        (Time : Type) (time_add : Time -> Time -> Time)
        (time_gtb : Time -> Time -> bool)
        (s : session) (first_frame_timeout t0 : Time)
        (timed_msgs : list (ws_message * Time)) :
  exists more,
    yielded (fst (get_chunks aesgcm_decrypt time_add time_gtb s
                             first_frame_timeout t0 timed_msgs))
    = yielded (fst (iter_plain_chunks aesgcm_decrypt s (map fst timed_msgs)))
        ++ more.
Proof.
  unfold iter_plain_chunks, get_chunks.
  exact (proj1 (runs_agree aesgcm_decrypt Time time_gtb s
                  (time_add t0 first_frame_timeout) timed_msgs
                  0%Z (RxState t0 false))).
Qed.

(** X11.  The two variants differ by the counter test alone: unless
    [iter_plain_chunks] ends with the counter error, [get_chunks]
    produces the same events and ends with the same exception. *)
Theorem variants_agree_without_counter_error
        (aesgcm_decrypt : bytes -> bytes -> bytes -> bytes -> option bytes)
        (Time : Type) (time_add : Time -> Time -> Time)
        (time_gtb : Time -> Time -> bool)
        (s : session) (first_frame_timeout t0 : Time)
        (timed_msgs : list (ws_message * Time)) :
  ~ is_counter_error
      (snd (iter_plain_chunks aesgcm_decrypt s (map fst timed_msgs))) ->
  get_chunks aesgcm_decrypt time_add time_gtb s first_frame_timeout t0 timed_msgs
  = iter_plain_chunks aesgcm_decrypt s (map fst timed_msgs).
Proof.
  unfold iter_plain_chunks, get_chunks.
  exact (proj2 (runs_agree aesgcm_decrypt Time time_gtb s
                  (time_add t0 first_frame_timeout) timed_msgs
                  0%Z (RxState t0 false))).
Qed.

Lemma variants_agree_without_counter_error_witness :
  ~ is_counter_error
      (snd (iter_plain_chunks demo_decrypt demo_session
              (map fst
                 [(BinaryMsg (demo_frame demo_session demo_conn 5 (demo_chunk 5)),
                   1%Z);
                  (BinaryMsg short_msg, 2%Z);
                  (BinaryMsg (demo_frame demo_session demo_conn 6 (demo_chunk 6)),
                   3%Z)])))
  /\ yielded (fst (get_chunks demo_decrypt Z.add Z.gtb demo_session 60%Z 0%Z
         [(BinaryMsg (demo_frame demo_session demo_conn 5 (demo_chunk 5)), 1%Z);
          (BinaryMsg short_msg, 2%Z);
          (BinaryMsg (demo_frame demo_session demo_conn 6 (demo_chunk 6)), 3%Z)]))
     = [demo_chunk 5; demo_chunk 6].
Proof.
  assert (H : ~ is_counter_error
      (snd (iter_plain_chunks demo_decrypt demo_session
              (map fst
                 [(BinaryMsg (demo_frame demo_session demo_conn 5 (demo_chunk 5)),
                   1%Z);
                  (BinaryMsg short_msg, 2%Z);
                  (BinaryMsg (demo_frame demo_session demo_conn 6 (demo_chunk 6)),
                   3%Z)])))).
  { apply other_not_counter_error. right. left. vm_compute. reflexivity. }
  split; [exact H|].
  rewrite (variants_agree_without_counter_error demo_decrypt Z Z.add Z.gtb
             demo_session 60%Z 0%Z _ H).
  vm_compute. reflexivity.
Defined.

(** ** The reconnect loop and the output file *)

Lemma iter_plain_chunks_failed
      (aesgcm_decrypt : bytes -> bytes -> bytes -> bytes -> option bytes)
      (s : session) (msgs : list ws_message) :
  failed (stream_to_file (iter_plain_chunks aesgcm_decrypt s msgs)) = true.
Proof.
  unfold iter_plain_chunks.
  pose proof (run_loop_exn _ _ (iter_plain_chunks_step aesgcm_decrypt s)
                (fun e => is_Exception e = true) eq_refl) as H.
  assert (Hs : forall st m evs e,
             iter_plain_chunks_step aesgcm_decrypt s st m = (evs, Stop e) ->
             is_Exception e = true).
  { intros st m evs e. unfold iter_plain_chunks_step.
    destruct m as [txt|buf]; [discriminate|].
    destruct (length buf <? 28); [discriminate|].
    destruct (negb _); [now intros [= _ <-]|].
    unfold be_u64. destruct (length _ =? 8); [|now intros [= _ <-]].
    destruct (_ <=? st)%Z; [now intros [= _ <-]|].
    destruct (decrypt_frame_cases aesgcm_decrypt s (slice buf 0 12)
                (slice buf 12 28) (slice_from buf 28))
      as [(plain & _ & ->)|(_ & ->)]; [discriminate | now intros [= _ <-]]. }
  specialize (H Hs msgs 0%Z).
  destruct (run_loop _ 0%Z msgs) as [evs e]. exact H.
Qed.

Lemma get_chunks_failed
      (aesgcm_decrypt : bytes -> bytes -> bytes -> bytes -> option bytes)
      (Time : Type) (time_add : Time -> Time -> Time)
      (time_gtb : Time -> Time -> bool)
      (s : session) (first_frame_timeout t0 : Time)
      (msgs : list (ws_message * Time)) :
  failed (stream_to_file (get_chunks aesgcm_decrypt time_add time_gtb s
                                     first_frame_timeout t0 msgs)) = true.
Proof.
  unfold get_chunks.
  pose proof (run_loop_exn _ _
                (get_chunks_step aesgcm_decrypt time_gtb s
                   (time_add t0 first_frame_timeout))
                (fun e => is_Exception e = true) eq_refl) as H.
  assert (Hs : forall st m evs e,
             get_chunks_step aesgcm_decrypt time_gtb s
               (time_add t0 first_frame_timeout) st m = (evs, Stop e) ->
             is_Exception e = true).
  { intros st m evs e He.
    apply get_step_never_first_frame_timeout in He as [->| ->]; reflexivity. }
  specialize (H Hs msgs (RxState t0 false)).
  destruct (run_loop _ (RxState t0 false) msgs) as [evs e]. exact H.
Qed.

Lemma forallb_map_true {A B} (p : B -> bool) (f : A -> B) (l : list A) :
  (forall x, p (f x) = true) -> forallb p (map f l) = true.
Proof.
  intros H. induction l as [|x l IH]; [reflexivity|].
  cbn [map forallb]. now rewrite H, IH.
Qed.

(** X12.  Whatever the server sends in each session, an attempt that
    reached the receive loop ends with an exception that [main_async]
    catches: the loop never ends on its own, [backoff] is never set
    back to 1, and the wait after the [i]-th attempt (from 0) is
    [min(2^i, 10)] seconds.  This holds for the loop of both files. *)
Theorem sessions_never_reset_backoff
        (aesgcm_decrypt : bytes -> bytes -> bytes -> bytes -> option bytes)
        (Time : Type) (time_add : Time -> Time -> Time)
        (time_gtb : Time -> Time -> bool) (first_frame_timeout : Time)
        (sessions : list (session * list ws_message))
        (timed_sessions : list (session * Time * list (ws_message * Time))) :
  let attempts :=
    map (fun x => stream_to_file (iter_plain_chunks aesgcm_decrypt (fst x) (snd x)))
        sessions in
  let timed_attempts :=
    map (fun x => stream_to_file
                    (get_chunks aesgcm_decrypt time_add time_gtb (fst (fst x))
                                first_frame_timeout (snd (fst x)) (snd x)))
        timed_sessions in
  (waits (fst (main_async attempts))
   = map (fun i => Z.min (2 ^ Z.of_nat i) 10) (seq 0 (length sessions))
   /\ snd (main_async attempts)
      = Next (Z.min (2 ^ Z.of_nat (length sessions)) 10))
  /\ (waits (fst (main_async timed_attempts))
      = map (fun i => Z.min (2 ^ Z.of_nat i) 10) (seq 0 (length timed_sessions))
      /\ snd (main_async timed_attempts)
         = Next (Z.min (2 ^ Z.of_nat (length timed_sessions)) 10)).
Proof.
  cbn zeta. unfold main_async. split.
  - pose proof (main_async_loop_failed
                  (map (fun x => stream_to_file
                                   (iter_plain_chunks aesgcm_decrypt (fst x) (snd x)))
                       sessions)) as H.
    rewrite length_map in H. apply (H (forallb_map_true _ _ _
      (fun x => iter_plain_chunks_failed aesgcm_decrypt (fst x) (snd x))) 0).
  - pose proof (main_async_loop_failed
                  (map (fun x => stream_to_file
                                   (get_chunks aesgcm_decrypt time_add time_gtb
                                      (fst (fst x)) first_frame_timeout
                                      (snd (fst x)) (snd x)))
                       timed_sessions)) as H.
    rewrite length_map in H. apply (H (forallb_map_true _ _ _
      (fun x => get_chunks_failed aesgcm_decrypt Time time_add time_gtb
                  (fst (fst x)) first_frame_timeout (snd (fst x)) (snd x))) 0).
Qed.




Lemma write_chunks_concat (chunks : list bytes) :
  forall f, fold_left write_file chunks f = f ++ concat chunks.
Proof.
  induction chunks as [|c chunks IH]; intros f; cbn [fold_left concat].
  - now rewrite app_nil_r.
  - rewrite IH. unfold write_file. now rewrite app_assoc.
Qed.

(** One attempt leaves the chunks it yielded, whatever the path held. *)
Lemma stream_to_file_on_content (file : option bytes) (gen : list event * exn) :
  stream_to_file_on file gen
  = (stream_to_file gen, Some (concat (yielded (fst gen)))).
Proof.
  unfold stream_to_file_on. rewrite write_chunks_concat.
  now destruct file.
Qed.

Lemma main_async_file_last (gens : list (list event * exn))
      (gen : list event * exn) :
  forall backoff file b,
    snd (main_async_loop backoff (map stream_to_file gens)) = Next b ->
    main_async_file backoff (gens ++ [gen]) file
    = Some (concat (yielded (fst gen))).
Proof.
  induction gens as [|x rest IH]; intros backoff file b H.
  - cbn [app main_async_file]. rewrite stream_to_file_on_content.
    now destruct (main_async_turn backoff (stream_to_file gen)) as [evs [b'|e]].
  - cbn [app map main_async_file main_async_loop] in *.
    rewrite stream_to_file_on_content.
    destruct (main_async_turn backoff (stream_to_file x)) as [evs [b'|e]].
    + apply (IH b' _ b).
      now destruct (main_async_loop b' (map stream_to_file rest)) as [evs' r].
    + discriminate H.
Qed.

(** X14.  Every attempt opens the output path anew in mode [wb] and
    appends the chunks it receives: when [main_async] is still running
    after some attempts, the file after the next attempt holds the
    chunks of that attempt alone, one after the other; what the earlier
    attempts wrote, and what the file held before, is gone. *)
Theorem reconnect_overwrites_file
        (gens : list (list event * exn)) (gen : list event * exn)
        (file : option bytes) (backoff : Z) :
  snd (main_async (map stream_to_file gens)) = Next backoff ->
  main_async_file 1 (gens ++ [gen]) file = Some (concat (yielded (fst gen))).
Proof.
  unfold main_async. intros H.
  exact (main_async_file_last gens gen 1%Z file backoff H).
Qed.

Lemma reconnect_overwrites_file_witness :
  main_async_file 1
    [get_chunks demo_decrypt Z.add Z.gtb demo_session 60%Z 0%Z
       [(BinaryMsg (demo_frame demo_session demo_conn 1 (demo_chunk 1)), 1%Z)]]
    (Some [x41])
  = Some (demo_chunk 1)
  /\ main_async_file 1
       ([get_chunks demo_decrypt Z.add Z.gtb demo_session 60%Z 0%Z
           [(BinaryMsg (demo_frame demo_session demo_conn 1 (demo_chunk 1)), 1%Z)]]
          ++ [get_chunks demo_decrypt Z.add Z.gtb demo_session 60%Z 0%Z []])
       (Some [x41])
     = Some [].
Proof.
  split; [vm_compute; reflexivity|].
  exact (reconnect_overwrites_file
           [get_chunks demo_decrypt Z.add Z.gtb demo_session 60%Z 0%Z
              [(BinaryMsg (demo_frame demo_session demo_conn 1 (demo_chunk 1)),
                1%Z)]]
           (get_chunks demo_decrypt Z.add Z.gtb demo_session 60%Z 0%Z [])
           (Some [x41]) 2%Z ltac:(vm_compute; reflexivity)).
Defined.

(** ** The session key *)

(** X15.  With a 32-byte HMAC the session key takes one round of the
    expansion: it is [HMAC(prk, "tinycam hkdf v1" || 0x01)] with
    [prk = HMAC(client_nonce || server_nonce, access_key)], for access
    keys and nonces of any length.  The derivation never raises, and
    the key depends on nothing else in the hello message. *)
Theorem session_key_closed_form
        (hmac_sha256 : bytes -> bytes -> bytes)
        (digest_size : forall key msg, length (hmac_sha256 key msg) = 32)
        (access_key client_nonce : bytes) (exp : Z) (hl : hello_info) :
  let prk := hmac_sha256 (client_nonce ++ server_nonce hl) access_key in
  let key := hmac_sha256 prk (hkdf_info ++ [x01]) in
  derive_session hmac_sha256 access_key client_nonce exp hl
  = Some (Ok (Session key
                (build_aad (conn_b64 hl) exp (codec hl) (w hl) (h hl) (fps hl))
                (conn_id hl)))
  /\ length key = 32.
Proof.
  cbn zeta. split; [|apply digest_size].
  pose proof (hkdf_sha256_in_range _ digest_size access_key
                (client_nonce ++ server_nonce hl) hkdf_info 32 ltac:(lia)) as Hk.
  unfold derive_session. rewrite Hk. cbn [bind].
  unfold hkdf_spec.
  change (hkdf_rounds 32) with 1. change (Z.to_nat 32) with 32.
  cbn [hkdf_blocks hkdf_T app].
  change (Byte.of_N (N.of_nat 1)) with (Some x01).
  rewrite firstn_all2 by (rewrite digest_size; lia).
  unfold aesgcm_new. rewrite digest_size. reflexivity.
Qed.

Lemma session_key_closed_form_witness :
  derive_session Hashlib.hmac_sha256 demo_access_key demo_client_nonce 100
                 (demo_hello 160)
  = Some (Ok (Session
                (Hashlib.hmac_sha256
                   (Hashlib.hmac_sha256
                      (demo_client_nonce ++ server_nonce (demo_hello 160))
                      demo_access_key)
                   (hkdf_info ++ [x01]))
                (build_aad (conn_b64 (demo_hello 160)) 100 (codec (demo_hello 160))
                           (w (demo_hello 160)) (h (demo_hello 160))
                           (fps (demo_hello 160)))
                (conn_id (demo_hello 160)))).
Proof.
  exact (proj1 (session_key_closed_form Hashlib.hmac_sha256
                  hmac_sha256_digest_size demo_access_key demo_client_nonce 100
                  (demo_hello 160))).
Defined.

(** ** The management calls *)


Lemma json_ts_not_json_force (ts : Z) : json_ts ts <> json_force.
Proof.
  intros H. apply (f_equal (fun s => nth 2 s " "%char)) in H.
  cbn in H. discriminate H.
Qed.

Section MoreManagementFacts.

Variable hmac_sha256 : bytes -> bytes -> bytes.
Variable http_base : str.
Variable post : http_request -> outcome http_response.
Variable str_of_exn : exn -> str.
Variable json_string : str -> str.
Variable int_of_str : str -> outcome Z.
Variable abspath : str -> str.
Variable os_sep : str.

Ltac signed_call mgmt :=
  let key := fresh "key" in
  let Hk := fresh "Hk" in
  let sig := fresh "sig" in
  let Hsig := fresh "Hsig" in
  destruct (key_set mgmt) as [key|] eqn:Hk;
  [|cbn [fst dl_events requests skip_log]; split; [apply Forall_nil | cbn; lia]];
  match goal with
  | |- context [hmac_b64 hmac_sha256 ?body key] =>
      destruct (hmac_b64 hmac_sha256 body key) as [sig|] eqn:Hsig;
      [|cbn [fst dl_events requests skip_log]; split; [apply Forall_nil | cbn; lia]]
  end;
  destruct (post _) as [r|];
  repeat match goal with
         | |- context [if ?b then _ else _] => destruct b
         end;
  cbn [fst dl_events requests];
  (split;
   [apply Forall_cons;
    [exists key, sig; split; [exact Hk | split; [exact Hsig | now left]]
    |apply Forall_nil]
   | cbn; lia]).

Lemma start_server_signed (mgmt : option str) (ts : Z) :
  (fun reqs => Forall (signed_with hmac_sha256 mgmt) reqs /\ length reqs <= 1)
    (requests (fst (start_server hmac_sha256 http_base post mgmt ts))).
Proof. unfold start_server. signed_call mgmt. Qed.

Lemma stop_server_signed (mgmt : option str) (ts : Z) :
  (fun reqs => Forall (signed_with hmac_sha256 mgmt) reqs /\ length reqs <= 1)
    (requests (fst (stop_server hmac_sha256 http_base post mgmt ts))).
Proof. unfold stop_server. signed_call mgmt. Qed.

Lemma get_devices_signed (mgmt : option str) (ts : Z) :
  (fun reqs => Forall (signed_with hmac_sha256 mgmt) reqs /\ length reqs <= 1)
    (requests (fst (get_devices hmac_sha256 http_base post mgmt ts))).
Proof. unfold get_devices. signed_call mgmt. Qed.

Lemma get_file_entry_signed (mgmt : option str) (ts : Z) :
  (fun reqs => Forall (signed_with hmac_sha256 mgmt) reqs /\ length reqs <= 1)
    (requests (fst (get_file_entry hmac_sha256 http_base post mgmt ts))).
Proof. unfold get_file_entry. signed_call mgmt. Qed.

Lemma get_file_signed (mgmt : option str) (remote local_prefix : str)
      (attachment resume : bool) (ts : Z) (file : option bytes) :
  (fun reqs => Forall (signed_with hmac_sha256 mgmt) reqs /\ length reqs <= 1)
    (requests (dl_events (get_file hmac_sha256 http_base post json_string
                            int_of_str abspath os_sep mgmt remote local_prefix
                            attachment resume ts file))).
Proof.
  unfold get_file.
  destruct (key_set mgmt) as [key|] eqn:Hk; [|cbn [fst dl_events requests skip_log]; split; [apply Forall_nil | cbn; lia]].
  destruct (hmac_b64 hmac_sha256 (json_file_body json_string remote attachment ts)
                     key) as [sig|] eqn:Hsig;
    [|cbn [fst dl_events requests skip_log]; split; [apply Forall_nil | cbn; lia]].
  assert (Hs : signed_with hmac_sha256 mgmt
                 (Request (http_base ++ lit "/file/download")
                    (download_headers sig (resume_offset resume file))
                    (json_file_body json_string remote attachment ts))).
  { exists key, sig. split; [exact Hk|]. split; [exact Hsig | now left]. }
  assert (Hc : forall r size,
             requests (size_check int_of_str r size) = []).
  { intros r size. unfold size_check.
    destruct (content_range r) as [[|c cr]|]; try reflexivity.
    destruct (existsb _ _); [|reflexivity].
    destruct (int_of_str _); [|reflexivity].
    now destruct (_ =? _)%Z. }
  destruct (post _) as [r|]; [|cbn [dl_events requests]; split; [apply Forall_cons; [exact Hs | apply Forall_nil] | cbn; lia]].
  destruct (in_statuses (status_code r) [401; 403; 404]%Z);
    [cbn [dl_events requests]; split; [apply Forall_cons; [exact Hs | apply Forall_nil] | cbn; lia]|].
  destruct (in_statuses (status_code r) [304]%Z);
    [cbn [dl_events requests]; split; [apply Forall_cons; [exact Hs | apply Forall_nil] | cbn; lia]|].
  destruct (negb (in_statuses (status_code r) [200; 206]%Z));
    [cbn [dl_events requests]; split; [apply Forall_cons; [exact Hs | apply Forall_nil] | cbn; lia]|].
  cbn [dl_events requests]. rewrite Hc.
  split; [apply Forall_cons; [exact Hs | apply Forall_nil] | cbn; lia].
Qed.

End MoreManagementFacts.

(** X16.  Every management call other than [apply_config] sends at
    most one request, and the request carries as [Authorization] the
    signature, under the management key, of the very content it
    sends. *)
Theorem management_requests_are_signed
        (hmac_sha256 : bytes -> bytes -> bytes) (http_base : str)
        (post : http_request -> outcome http_response)
        (json_string : str -> str) (int_of_str : str -> outcome Z)
        (abspath : str -> str) (os_sep : str)
        (mgmt : option str) (ts : Z) (remote local_prefix : str)
        (attachment resume : bool) (file : option bytes) :
  Forall (fun reqs => Forall (signed_with hmac_sha256 mgmt) reqs
                      /\ length reqs <= 1)
    [requests (fst (start_server hmac_sha256 http_base post mgmt ts));
     requests (fst (stop_server hmac_sha256 http_base post mgmt ts));
     requests (fst (get_devices hmac_sha256 http_base post mgmt ts));
     requests (fst (get_file_entry hmac_sha256 http_base post mgmt ts));
     requests (dl_events (get_file hmac_sha256 http_base post json_string
                            int_of_str abspath os_sep mgmt remote local_prefix
                            attachment resume ts file))].
Proof.
  apply Forall_cons; [apply start_server_signed|].
  apply Forall_cons; [apply stop_server_signed|].
  apply Forall_cons; [apply get_devices_signed|].
  apply Forall_cons; [apply get_file_entry_signed|].
  apply Forall_cons; [apply get_file_signed|].
  apply Forall_nil.
Qed.

Lemma range_header_not_fixed (sig v : str) :
  ~ In (lit "Range", v)
       [(lit "Authorization", sig);
        (lit "Content-Type", lit "application/json");
        (lit "Accept", lit "application/octet-stream")].
Proof.
  intros [H|[H|[H|[]]]]; apply (f_equal fst) in H; discriminate H.
Qed.

Lemma range_header_iff (sig v : str) (resume : bool) (file : option bytes) :
  In (lit "Range", v) (download_headers sig (resume_offset resume file))
  <-> (resume = true
       /\ exists old,
           file = Some old /\ old <> []
           /\ v = lit "bytes=" ++ str_of_int (Z.of_nat (length old)) ++ lit "-").
Proof.
  unfold download_headers. rewrite in_app_iff. split.
  - intros [H|H]; [now apply range_header_not_fixed in H|].
    destruct (0 <? resume_offset resume file)%Z eqn:E; [|destruct H].
    destruct H as [H|[]]. injection H as <-.
    unfold resume_offset in *. destruct file as [old|]; [|discriminate E].
    destruct resume; [|discriminate E].
    split; [reflexivity|]. exists old. split; [reflexivity|].
    split; [|reflexivity]. intros ->. discriminate E.
  - intros (-> & old & -> & Hold & ->). right.
    unfold resume_offset. destruct old as [|x old]; [now contradiction Hold|].
    cbn [length]. rewrite (proj2 (Z.ltb_lt _ _)) by lia. now left.
Qed.

Section RequestFacts.

Variable hmac_sha256 : bytes -> bytes -> bytes.
Variable http_base : str.
Variable post : http_request -> outcome http_response.
Variable str_of_exn : exn -> str.
Variable json_string : str -> str.
Variable int_of_str : str -> outcome Z.
Variable abspath : str -> str.
Variable os_sep : str.

Lemma size_check_no_request (r : http_response) (size : nat) :
  requests (size_check int_of_str r size) = [].
Proof.
  unfold size_check. destruct (content_range r) as [[|c cr]|]; try reflexivity.
  destruct (existsb _ _); [|reflexivity].
  destruct (int_of_str _); [|reflexivity].
  now destruct (_ =? _)%Z.
Qed.

(** What [get_file] sends: nothing, or the one download request. *)
Lemma get_file_requests (mgmt : option str) (remote local_prefix : str)
      (attachment resume : bool) (ts : Z) (file : option bytes) :
  let d := get_file hmac_sha256 http_base post json_string int_of_str abspath
                    os_sep mgmt remote local_prefix attachment resume ts file in
  let body := json_file_body json_string remote attachment ts in
  match key_set mgmt with
  | None => requests (dl_events d) = []
  | Some key =>
      match hmac_b64 hmac_sha256 body key with
      | Raise e => requests (dl_events d) = []
      | Ok sig =>
          requests (dl_events d)
          = [Request (http_base ++ lit "/file/download")
                     (download_headers sig (resume_offset resume file)) body]
      end
  end.
Proof.
  cbn zeta. unfold get_file.
  destruct (key_set mgmt) as [key|]; [|reflexivity].
  destruct (hmac_b64 _ _ key) as [sig|e]; [|reflexivity].
  destruct (post _) as [r|e]; [|reflexivity].
  destruct (in_statuses (status_code r) [401; 403; 404]%Z); [reflexivity|].
  destruct (in_statuses (status_code r) [304]%Z); [reflexivity|].
  destruct (negb (in_statuses (status_code r) [200; 206]%Z)); [reflexivity|].
  cbn [dl_events requests]. now rewrite size_check_no_request.
Qed.

Lemma apply_config_requests (mgmt : option str) (ts : Z) :
  match key_set mgmt with
  | None => requests (fst (apply_config hmac_sha256 http_base post str_of_exn
                                        mgmt ts)) = []
  | Some key =>
      match hmac_b64 hmac_sha256 (json_ts ts) key with
      | Raise e =>
          requests (fst (apply_config hmac_sha256 http_base post str_of_exn
                                      mgmt ts)) = []
      | Ok sig =>
          requests (fst (apply_config hmac_sha256 http_base post str_of_exn
                                      mgmt ts))
          = [Request (http_base ++ lit "/apply") (auth_headers sig) json_force]
      end
  end.
Proof.
  unfold apply_config.
  destruct (key_set mgmt) as [key|]; [|reflexivity].
  destruct (hmac_b64 _ _ key) as [sig|e]; [|reflexivity].
  destruct (post _) as [r|e]; [reflexivity|].
  now destruct (is_Exception e).
Qed.

End RequestFacts.

(** X17.  [apply_config] signs one text and sends another: the request
    it posts to [/apply] has the content [{"force": true}], while its
    [Authorization] header is the signature of [{"ts": ts}], a
    different string for every [ts]. *)
Theorem apply_config_signs_other_content
        (hmac_sha256 : bytes -> bytes -> bytes) (http_base : str)
        (post : http_request -> outcome http_response)
        (str_of_exn : exn -> str) (mgmt : option str) (ts : Z) :
  let reqs := requests (fst (apply_config hmac_sha256 http_base post str_of_exn
                                          mgmt ts)) in
  Forall (fun req =>
            req_url req = http_base ++ lit "/apply"
            /\ req_content req = json_force
            /\ exists key sig,
                key_set mgmt = Some key
                /\ hmac_b64 hmac_sha256 (json_ts ts) key = Ok sig
                /\ In (lit "Authorization", sig) (req_headers req))
         reqs
  /\ length reqs <= 1
  /\ json_ts ts <> json_force.
Proof.
  cbn zeta.
  pose proof (apply_config_requests hmac_sha256 http_base post str_of_exn mgmt ts)
    as H.
  split; [|split; [|apply json_ts_not_json_force]].
  - destruct (key_set mgmt) as [key|] eqn:Hk; [|rewrite H; apply Forall_nil].
    destruct (hmac_b64 _ _ key) as [sig|e] eqn:Hsig;
      [|rewrite H; apply Forall_nil].
    rewrite H. apply Forall_cons; [|apply Forall_nil].
    split; [reflexivity|]. split; [reflexivity|].
    exists key, sig. split; [reflexivity|]. split; [exact Hsig | now left].
  - destruct (key_set mgmt) as [key|]; [|rewrite H; cbn; lia].
    destruct (hmac_b64 _ _ key) as [sig|e]; rewrite H; cbn; lia.
Qed.


(** X19.  The download request carries a [Range] header exactly when
    [resume] is asked and the local file exists and is not empty; the
    header then asks for the bytes from the size of that file on. *)
Theorem get_file_range_header
        (hmac_sha256 : bytes -> bytes -> bytes) (http_base : str)
        (post : http_request -> outcome http_response)
        (json_string : str -> str) (int_of_str : str -> outcome Z)
        (abspath : str -> str) (os_sep : str)
        (mgmt : option str) (remote local_prefix : str)
        (attachment resume : bool) (ts : Z) (file : option bytes) :
  Forall (fun req =>
            forall v,
              In (lit "Range", v) (req_headers req)
              <-> (resume = true
                   /\ exists old,
                       file = Some old /\ old <> []
                       /\ v = lit "bytes=" ++ str_of_int (Z.of_nat (length old))
                                ++ lit "-"))
         (requests (dl_events
                      (get_file hmac_sha256 http_base post json_string int_of_str
                                abspath os_sep mgmt remote local_prefix attachment
                                resume ts file))).
Proof.
  pose proof (get_file_requests hmac_sha256 http_base post json_string int_of_str
                abspath os_sep mgmt remote local_prefix attachment resume ts file)
    as H.
  cbn zeta in H.
  destruct (key_set mgmt) as [key|]; [|rewrite H; apply Forall_nil].
  destruct (hmac_b64 _ _ key) as [sig|e]; [|rewrite H; apply Forall_nil].
  rewrite H. apply Forall_cons; [|apply Forall_nil].
  intros v. apply range_header_iff.
Qed.

Section KeyFacts.

Variable hmac_sha256 : bytes -> bytes -> bytes.
Variable http_base : str.
Variable post : http_request -> outcome http_response.
Variable str_of_exn : exn -> str.
Variable json_string : str -> str.
Variable int_of_str : str -> outcome Z.
Variable abspath : str -> str.
Variable os_sep : str.

Ltac sent_iff mgmt :=
  let key := fresh "key" in
  let raw := fresh "raw" in
  let E := fresh "E" in
  unfold hmac_b64;
  destruct (key_set mgmt) as [key|];
  [destruct (safe_b64decode key) as [raw|] eqn:E; cbn [bind];
   [destruct (post _) as [|];
    repeat match goal with
           | |- context [if ?b then _ else _] => destruct b
           end;
    cbn [fst dl_events requests];
    (split; [intros _; exists key, raw; now split | intros _; discriminate])
   |cbn [fst dl_events requests];
    (split; [intros H; now contradiction H
            |intros (k & r & [= <-] & H); rewrite E in H; discriminate H])]
  |cbn [fst dl_events requests skip_log];
   (split; [intros H; now contradiction H
           |intros (k & r & H & _); discriminate H])].

Lemma start_server_sent (mgmt : option str) (ts : Z) :
  requests (fst (start_server hmac_sha256 http_base post mgmt ts)) <> []
  <-> exists key raw, key_set mgmt = Some key /\ safe_b64decode key = Ok raw.
Proof. unfold start_server. sent_iff mgmt. Qed.

Lemma stop_server_sent (mgmt : option str) (ts : Z) :
  requests (fst (stop_server hmac_sha256 http_base post mgmt ts)) <> []
  <-> exists key raw, key_set mgmt = Some key /\ safe_b64decode key = Ok raw.
Proof. unfold stop_server. sent_iff mgmt. Qed.

Lemma apply_config_sent (mgmt : option str) (ts : Z) :
  requests (fst (apply_config hmac_sha256 http_base post str_of_exn mgmt ts)) <> []
  <-> exists key raw, key_set mgmt = Some key /\ safe_b64decode key = Ok raw.
Proof. unfold apply_config. sent_iff mgmt. Qed.

Lemma get_devices_sent (mgmt : option str) (ts : Z) :
  requests (fst (get_devices hmac_sha256 http_base post mgmt ts)) <> []
  <-> exists key raw, key_set mgmt = Some key /\ safe_b64decode key = Ok raw.
Proof. unfold get_devices. sent_iff mgmt. Qed.

Lemma get_file_entry_sent (mgmt : option str) (ts : Z) :
  requests (fst (get_file_entry hmac_sha256 http_base post mgmt ts)) <> []
  <-> exists key raw, key_set mgmt = Some key /\ safe_b64decode key = Ok raw.
Proof. unfold get_file_entry. sent_iff mgmt. Qed.

Lemma get_file_sent (mgmt : option str) (remote local_prefix : str)
      (attachment resume : bool) (ts : Z) (file : option bytes) :
  requests (dl_events (get_file hmac_sha256 http_base post json_string
                                int_of_str abspath os_sep mgmt remote
                                local_prefix attachment resume ts file)) <> []
  <-> exists key raw, key_set mgmt = Some key /\ safe_b64decode key = Ok raw.
Proof.
  pose proof (get_file_requests hmac_sha256 http_base post json_string int_of_str
                abspath os_sep mgmt remote local_prefix attachment resume ts file)
    as H.
  cbn zeta in H. unfold hmac_b64 in H.
  destruct (key_set mgmt) as [key|].
  - destruct (safe_b64decode key) as [raw|e] eqn:E; cbn [bind] in H; rewrite H.
    + split; [intros _; exists key, raw; now split | intros _; discriminate].
    + split; [intros C; now contradiction C
             |intros (k & r & [= <-] & C); rewrite E in C; discriminate C].
  - rewrite H. split; [intros C; now contradiction C
                      |intros (k & r & C & _); discriminate C].
Qed.

End KeyFacts.

(** X20.  Each of the six management calls sends its request if and
    only if the management key is set (neither absent nor the empty
    string) and decodes as base64; otherwise nothing goes out. *)
Theorem request_sent_iff_key_decodes
        (hmac_sha256 : bytes -> bytes -> bytes) (http_base : str)
        (post : http_request -> outcome http_response)
        (str_of_exn : exn -> str)
        (json_string : str -> str) (int_of_str : str -> outcome Z)
        (abspath : str -> str) (os_sep : str)
        (mgmt : option str) (ts : Z) (remote local_prefix : str)
        (attachment resume : bool) (file : option bytes) :
  Forall (fun reqs : list http_request =>
            reqs <> []
            <-> exists key raw,
                key_set mgmt = Some key /\ safe_b64decode key = Ok raw)
    [requests (fst (start_server hmac_sha256 http_base post mgmt ts));
     requests (fst (stop_server hmac_sha256 http_base post mgmt ts));
     requests (fst (apply_config hmac_sha256 http_base post str_of_exn mgmt ts));
     requests (fst (get_devices hmac_sha256 http_base post mgmt ts));
     requests (fst (get_file_entry hmac_sha256 http_base post mgmt ts));
     requests (dl_events (get_file hmac_sha256 http_base post json_string
                            int_of_str abspath os_sep mgmt remote local_prefix
                            attachment resume ts file))].
Proof.
  apply Forall_cons; [apply start_server_sent|].
  apply Forall_cons; [apply stop_server_sent|].
  apply Forall_cons; [apply apply_config_sent|].
  apply Forall_cons; [apply get_devices_sent|].
  apply Forall_cons; [apply get_file_entry_sent|].
  apply Forall_cons; [apply get_file_sent|].
  apply Forall_nil.
Qed.

(** X21.  When the transport raises, [start_server], [stop_server],
    [get_devices], [get_file_entry] and [get_file] raise the same
    exception, and [get_file] leaves the local file as it was;
    [apply_config] alone returns [(0, str(e))] instead, unless the
    exception is not an [Exception]. *)
Theorem transport_failure
        (hmac_sha256 : bytes -> bytes -> bytes) (http_base : str)
        (post : http_request -> outcome http_response)
        (str_of_exn : exn -> str)
        (json_string : str -> str) (int_of_str : str -> outcome Z)
        (abspath : str -> str) (os_sep : str)
        (mgmt : option str) (ts : Z) (key : str) (raw : bytes) (e : exn)
        (remote local_prefix : str) (attachment resume : bool)
        (file : option bytes) :
  key_set mgmt = Some key ->
  safe_b64decode key = Ok raw ->
  (forall req, post req = Raise e) ->
  snd (start_server hmac_sha256 http_base post mgmt ts) = Raise e
  /\ snd (stop_server hmac_sha256 http_base post mgmt ts) = Raise e
  /\ snd (get_devices hmac_sha256 http_base post mgmt ts) = Raise e
  /\ snd (get_file_entry hmac_sha256 http_base post mgmt ts) = Raise e
  /\ dl_value (get_file hmac_sha256 http_base post json_string int_of_str
                        abspath os_sep mgmt remote local_prefix attachment
                        resume ts file) = Raise e
  /\ dl_file (get_file hmac_sha256 http_base post json_string int_of_str
                       abspath os_sep mgmt remote local_prefix attachment
                       resume ts file) = file
  /\ snd (apply_config hmac_sha256 http_base post str_of_exn mgmt ts)
     = if is_Exception e then Ok (0%Z, str_of_exn e) else Raise e.
Proof.
  intros Hk Hraw Hpost.
  unfold start_server, stop_server, get_devices, get_file_entry, get_file,
    apply_config, hmac_b64.
  rewrite Hk, Hraw. cbn [bind]. rewrite !Hpost.
  repeat split. now destruct (is_Exception e).
Qed.

Lemma transport_failure_witness :
  key_set (Some (lit "QQ==")) = Some (lit "QQ==")
  /\ safe_b64decode (lit "QQ==") = Ok [x41]
  /\ snd (start_server demo_sign (lit "http://127.0.0.1:8080") unreachable_server
                       (Some (lit "QQ==")) 100)
     = Raise (RuntimeError (lit "All connection attempts failed"))
  /\ snd (apply_config demo_sign (lit "http://127.0.0.1:8080") unreachable_server
                       (fun _ => lit "All connection attempts failed")
                       (Some (lit "QQ==")) 100)
     = Ok (0%Z, lit "All connection attempts failed").
Proof.
  split; [reflexivity|]. split; [vm_compute; reflexivity|].
  pose proof (transport_failure demo_sign (lit "http://127.0.0.1:8080")
                unreachable_server (fun _ => lit "All connection attempts failed")
                demo_json_string demo_int_of_str (fun p => p) (lit "/")
                (Some (lit "QQ==")) 100 (lit "QQ==") [x41]
                (RuntimeError (lit "All connection attempts failed"))
                (lit "a.webm") (lit "out") true true None
                eq_refl ltac:(vm_compute; reflexivity) (fun _ => eq_refl)) as H.
  split; [exact (proj1 H)|].
  exact (proj2 (proj2 (proj2 (proj2 (proj2 (proj2 H)))))).
Defined.

(** ** The watchdog *)

Section WatchdogFacts.

Variable Time : Type.
Variable time_sub : Time -> Time -> Time.
Variable time_gtb : Time -> Time -> bool.
Variable inactivity_timeout : Time.

Lemma watchdog_quiet_prefix (before rest : list (tick Time)) :
  forallb (fun t => negb (stale time_sub time_gtb inactivity_timeout t)
                    && negb (failed_tick t)) before = true ->
  watchdog_task time_sub time_gtb inactivity_timeout (before ++ rest)
  = watchdog_task time_sub time_gtb inactivity_timeout rest.
Proof.
  induction before as [|[now last_rx|e] before IH]; intros H; [reflexivity| |].
  - cbn [forallb stale failed_tick] in H.
    apply andb_true_iff in H as [H1 H2]. apply andb_true_iff in H1 as [H1 _].
    apply negb_true_iff in H1.
    cbn [app watchdog_task]. rewrite H1. now apply IH.
  - cbn [forallb stale failed_tick] in H. discriminate H.
Qed.

Lemma watchdog_close_calls (ticks : list (tick Time)) :
  length (filter is_close_call
                 (fst (watchdog_task time_sub time_gtb inactivity_timeout ticks)))
  <= (if existsb (stale time_sub time_gtb inactivity_timeout) ticks
      then 1 else 0).
Proof.
  induction ticks as [|[now last_rx|e] rest IH]; [cbn; lia| |].
  - cbn [watchdog_task existsb stale].
    destruct (time_gtb (time_sub now last_rx) inactivity_timeout);
      [cbn; lia | exact IH].
  - cbn [watchdog_task existsb stale orb].
    destruct (is_Exception e); cbn;
      destruct (existsb _ rest); lia.
Qed.

Lemma watchdog_cancelled (ticks : list (tick Time)) :
  snd (watchdog_task time_sub time_gtb inactivity_timeout ticks) = Cancelled ->
  fst (watchdog_task time_sub time_gtb inactivity_timeout ticks) = []
  /\ existsb (stale time_sub time_gtb inactivity_timeout) ticks = false
  /\ existsb failed_tick ticks = false.
Proof.
  induction ticks as [|[now last_rx|e] rest IH]; [now cbn| |].
  - cbn [watchdog_task existsb stale failed_tick orb].
    destruct (time_gtb (time_sub now last_rx) inactivity_timeout);
      [discriminate | exact IH].
  - cbn [watchdog_task]. destruct (is_Exception e); discriminate.
Qed.

End WatchdogFacts.

(** X22.  The watchdog closes the connection at the first tick at
    which more than [inactivity_timeout] has passed since the last
    message, with code 1001, and its loop ends there whatever follows;
    a silence of exactly [inactivity_timeout] does not count. *)
Theorem watchdog_closes_at_first_stale_tick
        (Time : Type) (time_sub : Time -> Time -> Time)
        (time_gtb : Time -> Time -> bool) (inactivity_timeout : Time)
        (before after : list (tick Time)) (now last_rx : Time) :
  forallb (fun t => negb (stale time_sub time_gtb inactivity_timeout t)
                    && negb (failed_tick t)) before = true ->
  time_gtb (time_sub now last_rx) inactivity_timeout = true ->
  watchdog_task time_sub time_gtb inactivity_timeout
                (before ++ Woke now last_rx :: after)
  = ([InactivityWarning inactivity_timeout;
      CloseCall 1001 (lit "client watchdog inactivity")], LoopLeft).
Proof.
  intros Hb Hs. rewrite (watchdog_quiet_prefix _ _ _ _ _ _ Hb).
  cbn [watchdog_task]. now rewrite Hs.
Qed.

Lemma watchdog_closes_at_first_stale_tick_witness :
  stale Z.sub Z.gtb 60%Z (Woke 70%Z 10%Z) = false
  /\ watchdog_task Z.sub Z.gtb 60%Z
                   ([Woke 1%Z 0%Z; Woke 70%Z 10%Z]
                      ++ Woke 71%Z 10%Z :: [Woke 72%Z 72%Z])
     = ([InactivityWarning 60%Z;
         CloseCall 1001 (lit "client watchdog inactivity")], LoopLeft).
Proof.
  split; [reflexivity|].
  exact (watchdog_closes_at_first_stale_tick Z Z.sub Z.gtb 60%Z
           [Woke 1%Z 0%Z; Woke 70%Z 10%Z] [Woke 72%Z 72%Z] 71%Z 10%Z
           eq_refl eq_refl).
Defined.

(** X23.  The watchdog calls [ws.close] at most once, and never unless
    some tick found the connection silent for too long; a watchdog that
    is cancelled has logged nothing and closed nothing. *)
Theorem watchdog_closes_at_most_once
        (Time : Type) (time_sub : Time -> Time -> Time)
        (time_gtb : Time -> Time -> bool) (inactivity_timeout : Time)
        (ticks : list (tick Time)) :
  let run := watchdog_task time_sub time_gtb inactivity_timeout ticks in
  length (filter is_close_call (fst run))
  <= (if existsb (stale time_sub time_gtb inactivity_timeout) ticks
      then 1 else 0)
  /\ (snd run = Cancelled ->
      fst run = []
      /\ existsb (stale time_sub time_gtb inactivity_timeout) ticks = false
      /\ existsb failed_tick ticks = false).
Proof.
  cbn zeta. split.
  - apply watchdog_close_calls.
  - apply watchdog_cancelled.
Qed.
